(** * GitMesh repository intelligence engine: a shallow embedding

    The development follows the TypeScript sources:
    - [github-api.ts]          (class [GitHubSearchEngine]),
    - [project-combinator.ts]  (class [ProjectCombinator]),
    - [enhanced-github-api.ts] (classes [EnhancedGitHubAPI], [RateLimitManager]),
    - [ai-code-analyzer.ts]    (class [AICodeAnalyzer]).

    Conventions.
    - JavaScript strings are [string]s; the texts the engine inspects are
      matched against ASCII keywords only, and [toLowerCase] is the ASCII one.
    - Counts and ids are naturals ([N]), timestamps are integers ([Z],
      milliseconds since the epoch); an ISO timestamp field such as
      [updated_at] is kept as the instant it denotes.
    - The standard quality score is computed on IEEE doubles, operation by
      operation, in [Binary64].  Where only the range or the order of a
      score matters the numbers are reals, and an operation that would
      produce NaN or an infinity (division by zero, logarithm of a
      non-positive number) yields [None].
    - [async] methods run atomically between two [await]s; the external
      services are oracles passed as arguments. *)

From Stdlib Require Import ZArith NArith List Bool Ascii String Lia.
From Stdlib Require Import Decimal DecimalString DecimalN DecimalZ.
From Stdlib Require Import Permutation Sorted.
From Stdlib Require Import Reals Lra.
From Stdlib Require Import SpecFloat QArith Qround Qpower.
From stdpp Require Import base decidable option list gmap strings.

Local Open Scope string_scope.
Local Open Scope list_scope.

(** ** The JavaScript runtime functions the sources call *)

Module JS.

(** [String.prototype.toLowerCase], on ASCII letters. *)
Definition lower_ascii (c : ascii) : ascii :=
  let n := N_of_ascii c in
  if ((65 <=? n) && (n <=? 90))%N then ascii_of_N (n + 32) else c.

Fixpoint toLowerCase (s : string) : string :=
  match s with
  | EmptyString => EmptyString
  | String c s' => String (lower_ascii c) (toLowerCase s')
  end.

(** [String.prototype.includes]: [sub] occurs somewhere in [s]. *)
Fixpoint includes (s sub : string) : bool :=
  String.prefix sub s ||
  match s with
  | EmptyString => false
  | String _ s' => includes s' sub
  end.

(** [Array.prototype.includes] on an array of strings. *)
Definition arr_includes (l : list string) (x : string) : bool :=
  bool_decide (x ∈ l).

(** [Array.prototype.join]. *)
Definition join (sep : string) (l : list string) : string :=
  String.concat sep l.

(** [String(n)] for a natural number and for an integer. *)
Definition str_of_N (n : N) : string :=
  NilZero.string_of_uint (N.to_uint n).

Definition str_of_Z (z : Z) : string :=
  NilZero.string_of_int (Z.to_int z).

(** [s.slice(0, n)]. *)
Definition slice0 (n : nat) (s : string) : string :=
  String.substring 0 n s.

(** Truthiness of a string and of an optional string. *)
Definition truthy (s : string) : bool :=
  negb (String.eqb s "").

Definition or_else (o : option string) (d : string) : string :=
  match o with
  | Some s => if truthy s then s else d
  | None => d
  end.

(** [[...new Set(l)]]: the elements of [l] in order of first occurrence.
    [seen] holds what the set already contains. *)
Fixpoint set_from (seen l : list string) : list string :=
  match l with
  | [] => []
  | x :: l' =>
      if arr_includes seen x then set_from seen l'
      else x :: set_from (x :: seen) l'
  end.

Definition uniq (l : list string) : list string := set_from [] l.

(** [Array.prototype.sort] with a comparator, as an insertion sort: the
    engine's sort is stable, so is this one.  [le a b] says that [a] may
    stay in front of [b]. *)
Section Sort.
Context {A : Type} (le : A → A → bool).

Fixpoint sort_insert (x : A) (l : list A) : list A :=
  match l with
  | [] => [x]
  | y :: l' => if le x y then x :: y :: l' else y :: sort_insert x l'
  end.

Definition sort_by (l : list A) : list A := foldr sort_insert [] l.
End Sort.

(** [Array.prototype.sort()] without a comparator orders the elements by
    their string forms, code unit by code unit. *)
Definition str_le (a b : N) : bool := String.leb (str_of_N a) (str_of_N b).

Definition default_sort (l : list N) : list N := sort_by str_le l.

(** A plain object used as a string-keyed record, in insertion order. *)
Definition obj (V : Type) : Type := list (string * V).

Fixpoint obj_get {V} (o : obj V) (k : string) : option V :=
  match o with
  | [] => None
  | (k', v) :: o' => if String.eqb k' k then Some v else obj_get o' k
  end.

(** [o[k] = v]: an existing key keeps its place. *)
Fixpoint obj_set {V} (o : obj V) (k : string) (v : V) : obj V :=
  match o with
  | [] => [(k, v)]
  | (k', v') :: o' =>
      if String.eqb k' k then (k', v) :: o' else (k', v') :: obj_set o' k v
  end.

(** [{...o, ...extra}]. *)
Definition obj_spread {V} (o extra : obj V) : obj V :=
  fold_left (λ acc kv, obj_set acc (fst kv) (snd kv)) extra o.

End JS.

(** ** Data model ([github-api.ts]) *)

Record Owner := mkOwner {
  login : string;
  avatar_url : string
}.

Record Repository := mkRepository {
  id : N;
  name : string;
  full_name : string;
  description : option string;
  html_url : string;
  language : option string;
  stargazers_count : N;
  forks_count : N;
  open_issues_count : N;
  updated_at : Z;
  created_at : Z;
  topics : list string;
  owner : Owner;
  qualityScore : option Z
}.

(** [repo.qualityScore || d]. *)
Definition score_or (q : option Z) (d : Z) : Z :=
  match q with
  | Some s => if (s =? 0)%Z then d else s
  | None => d
  end.

(** ** The project combinator ([project-combinator.ts]) *)

Module Combinator.
Import JS.

Record CombinationRequest := mkRequest {
  repositories : list Repository;
  projectName : string;
  req_description : option string;
  targetFramework : option string;
  features : list string
}.

Record ProjectStructure := mkStructure {
  folders : list string;
  entryPoints : list string;
  configFiles : list string;
  assetFolders : list string
}.

Inductive FileType := component | config | style | api | utility | test.

Record GeneratedFile := mkFile {
  path : string;
  content : string;
  type : FileType;
  source : string
}.

Record DeploymentConfig := mkDeployment {
  platform : string;
  envVars : list string;
  buildCommand : string;
  outputDirectory : string
}.

Record CombinationResult := mkResult {
  res_id : string;
  res_name : string;
  res_description : string;
  structure : ProjectStructure;
  files : list GeneratedFile;
  dependencies : list string;
  scripts : obj string;
  instructions : list string;
  deploymentConfig : DeploymentConfig
}.

Record RepositoryAnalysis := mkAnalysis {
  repository : Repository;
  framework : string;
  components : list string;
  an_dependencies : list string;
  an_structure : ProjectStructure;
  an_features : list string;
  codeQuality : Z
}.

Record MergeStrategy := mkStrategy {
  strategy_type : string;
  strategy_targetFramework : string;
  conflictResolution : string;
  componentMerging : string;
  dependencyStrategy : string
}.

(** The combinator's only field: the map of cached combinations. *)
Definition State : Type := gmap string CombinationResult.

Definition detectFramework (repo : Repository) : string :=
  let name := toLowerCase (name repo) in
  let description := toLowerCase (or_else (description repo) "") in
  let topics := map toLowerCase (topics repo) in
  let allText := name +:+ " " +:+ description +:+ " " +:+ join " " topics in
  if includes allText "nextjs" || includes allText "next.js" then "nextjs"
  else if includes allText "remix" then "remix"
  else if includes allText "react" then "react"
  else if includes allText "vue" then "vue"
  else if includes allText "angular" then "angular"
  else if includes allText "express" then "express"
  else if includes allText "fastapi" then "fastapi"
  else if includes allText "django" then "django"
  else "unknown".

Definition component_patterns : list string :=
  [ "authentication"; "auth"; "login";
    "dashboard"; "admin"; "panel";
    "chat"; "messaging"; "communication";
    "payment"; "stripe"; "billing";
    "database"; "orm"; "prisma";
    "api"; "rest"; "graphql";
    "ui"; "components"; "design-system";
    "charts"; "visualization"; "analytics";
    "file-upload"; "storage"; "aws";
    "email"; "notifications"; "smtp" ].

Definition extractComponents (repo : Repository) : list string :=
  let topics := topics repo in
  let description := or_else (description repo) "" in
  filter (λ pattern,
            Is_true (arr_includes topics pattern
                     || includes (toLowerCase description) pattern))
         component_patterns.

Definition framework_deps (framework : string) : list string :=
  if String.eqb framework "nextjs" then ["next"; "react"; "react-dom"]
  else if String.eqb framework "remix" then ["@remix-run/node"; "@remix-run/react"]
  else if String.eqb framework "react" then ["react"; "react-dom"]
  else if String.eqb framework "vue" then ["vue"]
  else [].

Definition topic_deps (topic : string) : list string :=
  let t := toLowerCase topic in
  if String.eqb t "typescript" then ["typescript"]
  else if String.eqb t "tailwindcss" then ["tailwindcss"]
  else if String.eqb t "prisma" then ["prisma"]
  else if String.eqb t "stripe" then ["stripe"]
  else if String.eqb t "framer-motion" then ["framer-motion"]
  else [].

Definition extractDependencies (repo : Repository) : list string :=
  let framework := detectFramework repo in
  let deps := framework_deps framework ++ flat_map topic_deps (topics repo) in
  uniq deps.

Definition structures : obj ProjectStructure :=
  [ ("nextjs",
     mkStructure ["app"; "components"; "lib"; "public"; "styles"]
                 ["app/page.tsx"; "app/layout.tsx"]
                 ["next.config.js"; "tailwind.config.js"]
                 ["public"; "assets"]);
    ("remix",
     mkStructure ["app"; "app/routes"; "app/components"; "app/lib"; "public"]
                 ["app/root.tsx"; "app/routes/_index.tsx"]
                 ["remix.config.js"; "tailwind.config.js"]
                 ["public"]);
    ("react",
     mkStructure ["src"; "src/components"; "src/hooks"; "src/utils"; "public"]
                 ["src/App.tsx"; "src/main.tsx"]
                 ["vite.config.ts"; "tailwind.config.js"]
                 ["public"; "src/assets"]) ].

Definition structures_react : ProjectStructure :=
  mkStructure ["src"; "src/components"; "src/hooks"; "src/utils"; "public"]
              ["src/App.tsx"; "src/main.tsx"]
              ["vite.config.ts"; "tailwind.config.js"]
              ["public"; "src/assets"].

Definition analyzeStructure (repo : Repository) : ProjectStructure :=
  let framework := detectFramework repo in
  default structures_react (obj_get structures framework).

Definition featurePatterns : obj (list string) :=
  [ ("User Authentication", ["auth"; "login"; "jwt"; "oauth"]);
    ("Database Integration", ["database"; "orm"; "prisma"; "mongodb"; "postgresql"]);
    ("Payment Processing", ["payment"; "stripe"; "billing"; "checkout"]);
    ("File Upload", ["upload"; "storage"; "aws"; "s3"; "cloudinary"]);
    ("Real-time Features", ["websocket"; "realtime"; "socket.io"; "sse"]);
    ("API Integration", ["api"; "rest"; "graphql"; "fetch"]);
    ("UI Components", ["components"; "ui"; "design-system"; "tailwind"]);
    ("Charts & Analytics", ["charts"; "analytics"; "visualization"; "d3"]);
    ("Search Functionality", ["search"; "elasticsearch"; "algolia"; "fuse"]);
    ("Email System", ["email"; "smtp"; "sendgrid"; "mailgun"]) ].

(** A template literal prints a [null] description as the word. *)
Definition print_nullable (o : option string) : string :=
  match o with
  | Some s => s
  | None => "null"
  end.

Definition identifyFeatures (repo : Repository) : list string :=
  let allText :=
    toLowerCase (name repo +:+ " " +:+ print_nullable (description repo)
                 +:+ " " +:+ join " " (topics repo)) in
  map fst
      (filter (λ entry : string * list string,
                 Is_true (existsb (λ keyword, includes allText keyword) (snd entry)))
              featurePatterns).

Definition analyzeRepository (repo : Repository) : RepositoryAnalysis :=
  {| repository := repo;
     framework := detectFramework repo;
     components := extractComponents repo;
     an_dependencies := extractDependencies repo;
     an_structure := analyzeStructure repo;
     an_features := identifyFeatures repo;
     codeQuality := score_or (qualityScore repo) 0 |}.

(** The repository part of a combination id. *)
Definition repoIds (request : CombinationRequest) : string :=
  join "-" (map str_of_N (default_sort (map id (repositories request)))).

Definition generateCombinationId (now : Z) (request : CombinationRequest) : string :=
  "combo-" +:+ str_of_Z now +:+ "-" +:+ slice0 20 (repoIds request).

(** [acc[fw] = (acc[fw] || 0) + 1]. *)
Definition bump (acc : obj N) (fw : string) : obj N :=
  obj_set acc fw (default 0%N (obj_get acc fw) + 1)%N.

Definition findDominantFramework (frameworks : list string) : string :=
  let counts := fold_left bump frameworks [] in
  let sorted := sort_by (λ x y : string * N, (snd y <=? snd x)%N) counts in
  or_else (fst <$> head sorted) "react".

Definition determineMergeStrategy
    (analyses : list RepositoryAnalysis) (targetFramework : option string)
    : MergeStrategy :=
  let frameworks := map framework analyses in
  let dominantFramework := or_else targetFramework (findDominantFramework frameworks) in
  {| strategy_type := "intelligent";
     strategy_targetFramework := dominantFramework;
     conflictResolution := "smart-merge";
     componentMerging := "selective";
     dependencyStrategy := "unified" |}.

Definition generateProjectStructure
    (analyses : list RepositoryAnalysis) (strategy : MergeStrategy)
    : ProjectStructure :=
  match head analyses with
  | Some a => an_structure a
  | None =>
      mkStructure ["src"; "components"; "lib"; "public"]
                  ["src/App.tsx"] ["package.json"] ["public"]
  end.

Definition generateFiles
    (analyses : list RepositoryAnalysis) (structure : ProjectStructure)
    (strategy : MergeStrategy) : list GeneratedFile := [].

Definition resolveDependencies (analyses : list RepositoryAnalysis) : list string :=
  let allDeps := flat_map an_dependencies analyses in
  uniq allDeps.

Definition baseScripts : obj string :=
  [ ("dev", "npm run dev");
    ("build", "npm run build");
    ("start", "npm start");
    ("lint", "eslint . --ext .ts,.tsx");
    ("type-check", "tsc --noEmit") ].

Definition generateScripts (framework : option string) (structure : ProjectStructure)
    : obj string :=
  match framework with
  | Some fw =>
      if String.eqb fw "nextjs" then
        obj_spread baseScripts
          [("dev", "next dev"); ("build", "next build"); ("start", "next start")]
      else if String.eqb fw "remix" then
        obj_spread baseScripts
          [("dev", "remix dev"); ("build", "remix build"); ("start", "remix-serve build")]
      else baseScripts
  | None => baseScripts
  end.

Definition generateDeploymentConfig (framework : option string) : DeploymentConfig :=
  {| platform := "vercel";
     envVars := ["GITHUB_TOKEN"; "DATABASE_URL"];
     buildCommand := "npm run build";
     outputDirectory :=
       if bool_decide (framework = Some "nextjs") then ".next" else "build" |}.

Definition folder_descriptions : obj string :=
  [ ("app", "Main application code (Remix/Next.js)");
    ("src", "Source code directory");
    ("components", "Reusable UI components");
    ("lib", "Utility functions and services");
    ("public", "Static assets");
    ("styles", "CSS and styling files");
    ("routes", "Route components");
    ("hooks", "Custom React hooks");
    ("utils", "Utility functions");
    ("types", "TypeScript type definitions") ].

Definition getFolderDescription (folder : string) : string :=
  or_else (obj_get folder_descriptions folder) "Project files".

Definition generateInstructions
    (request : CombinationRequest) (structure : ProjectStructure) : list string :=
  [ "🚀 **Setup Instructions**";
    "";
    "1. Clone or download the generated project";
    "2. Install dependencies: `npm install`";
    "3. Copy `.env.example` to `.env` and configure your environment variables";
    "4. Start development server: `npm run dev`";
    "";
    "📁 **Project Structure**" ]
  ++ map (λ folder, "- /" +:+ folder +:+ "/ - " +:+ getFolderDescription folder)
         (folders structure)
  ++ [ "";
       "🔧 **Configuration**";
       "- Update environment variables in `.env`";
       "- Customize configuration files as needed";
       "- Review and modify generated components";
       "";
       "🚀 **Deployment**";
       "- Deploy to Vercel: `vercel --prod`";
       "- Or build for production: `npm run build`";
       "";
       "📚 **Source Repositories**" ]
  ++ map (λ repo, "- [" +:+ full_name repo +:+ "](" +:+ html_url repo +:+ ") - "
                  +:+ print_nullable (description repo))
         (repositories request).

(** [combineProjects]: [now] is the value [Date.now()] returns when the id
    is generated; the result is stored in the combinator's map. *)
Definition combineProjects (now : Z) (request : CombinationRequest) (st : State)
    : CombinationResult * State :=
  let combinationId := generateCombinationId now request in
  let analyses := map analyzeRepository (repositories request) in
  let mergeStrategy := determineMergeStrategy analyses (targetFramework request) in
  let structure := generateProjectStructure analyses mergeStrategy in
  let files := generateFiles analyses structure mergeStrategy in
  let dependencies := resolveDependencies analyses in
  let scripts := generateScripts (targetFramework request) structure in
  let deploymentConfig := generateDeploymentConfig (targetFramework request) in
  let instructions := generateInstructions request structure in
  let result :=
    {| res_id := combinationId;
       res_name := projectName request;
       res_description :=
         or_else (req_description request)
                 ("Combined project from "
                    +:+ str_of_N (N.of_nat (length (repositories request)))
                    +:+ " repositories");
       structure := structure;
       files := files;
       dependencies := dependencies;
       scripts := scripts;
       instructions := instructions;
       deploymentConfig := deploymentConfig |} in
  (result, <[combinationId := result]> st).

(** The merge strategy [combineProjects] computes on its way. *)
Definition mergeStrategyOf (request : CombinationRequest) : MergeStrategy :=
  determineMergeStrategy (map analyzeRepository (repositories request))
                         (targetFramework request).

Definition getCombination (st : State) (cid : string) : option CombinationResult :=
  st !! cid.

Definition getAllCombinations (st : State) : list CombinationResult :=
  snd <$> map_to_list st.

End Combinator.

(** ** Numbers and dates of the runtime *)

Module Num.

(** [Math.log10]: minus infinity at 0 and NaN below are [None]. *)
Definition log10 (x : R) : option R :=
  if Rlt_dec 0 x then Some (ln x / ln 10)%R else None.

(** [a / b] on doubles: an infinity or NaN for [b = 0] is [None]. *)
Definition fdiv (a b : R) : option R :=
  if Req_dec_T b 0 then None else Some (a / b)%R.

(** [Math.round]: the nearest integer, halves upwards. *)
Definition round (x : R) : Z := Int_part (x + / 2).

Definition ofN (n : N) : R := IZR (Z.of_N n).

Definition msPerDay : Z := 1000 * 60 * 60 * 24.

(** A decimal numeral padded with zeros on the left to [w] digits. *)
Fixpoint pad_loop (fuel w : nat) (s : string) : string :=
  match fuel with
  | O => s
  | S fuel' =>
      if (String.length s <? w)%nat then pad_loop fuel' w ("0" +:+ s) else s
  end.

Definition pad (w : nat) (s : string) : string := pad_loop w w s.

(** The calendar date of a day number (days since 1970-01-01), in the
    proleptic Gregorian calendar [Date] uses. *)
Definition civil_from_days (days : Z) : Z * Z * Z :=
  let z := (days + 719468)%Z in
  let era := (z / 146097)%Z in
  let doe := (z - era * 146097)%Z in
  let yoe := ((doe - doe / 1460 + doe / 36524 - doe / 146096) / 365)%Z in
  let y := (yoe + era * 400)%Z in
  let doy := (doe - (365 * yoe + yoe / 4 - yoe / 100))%Z in
  let mp := ((5 * doy + 2) / 153)%Z in
  let d := (doy - (153 * mp + 2) / 5 + 1)%Z in
  let m := (if mp <? 10 then mp + 3 else mp - 9)%Z in
  ((if m <=? 2 then y + 1 else y)%Z, m, d).

Definition year_string (y : Z) : string :=
  if ((0 <=? y) && (y <=? 9999))%Z then pad 4 (JS.str_of_Z y)
  else if (y <? 0)%Z then "-" +:+ pad 6 (JS.str_of_Z (- y))
  else "+" +:+ pad 6 (JS.str_of_Z y).

(** [new Date(ms).toISOString().split('T')[0]]. *)
Definition iso_date (ms : Z) : string :=
  let '(y, m, d) := civil_from_days (ms / msPerDay) in
  year_string y +:+ "-" +:+ pad 2 (JS.str_of_Z m) +:+ "-" +:+ pad 2 (JS.str_of_Z d).

End Num.

(** ** The search engine ([github-api.ts]) *)

Inductive SortKey := by_stars | by_updated | by_created | by_name.
Inductive Order := asc | desc.

Record SearchFilters := mkFilters {
  f_language : option string;
  minStars : option Z;
  maxStars : option Z;
  f_topics : option (list string);
  hasIssues : option bool;
  hasWiki : option bool;
  hasPages : option bool;
  archived : option bool;
  fork : option bool;
  sortBy : option SortKey;
  order : option Order
}.

(** [A] is the type of the repository records: the enhanced search returns
    records with more fields than [Repository] declares. *)
Record SearchResult (A : Type) := mkSearchResult {
  sr_repositories : list A;
  totalCount : N;
  hasMore : bool;
  nextPage : option Z
}.
Arguments mkSearchResult {A} _ _ _ _.
Arguments sr_repositories {A} _.
Arguments totalCount {A} _.
Arguments hasMore {A} _.
Arguments nextPage {A} _.

(** An item of the external search response ([any] in the source): the
    fields the engine reads.  A response may carry a [qualityScore] of its
    own, and [topics] may be missing. *)
Record RawRepo := mkRaw {
  raw_id : N;
  raw_name : string;
  raw_full_name : string;
  raw_description : option string;
  raw_html_url : string;
  raw_language : option string;
  raw_stargazers_count : N;
  raw_forks_count : N;
  raw_open_issues_count : N;
  raw_updated_at : Z;
  raw_created_at : Z;
  raw_topics : option (list string);
  raw_owner : Owner;
  raw_qualityScore : option Z;
  raw_pushed_at : option string;
  raw_license : option string
}.

Record SearchResponse := mkResponse {
  items : list RawRepo;
  total_count : N
}.

(** The request [octokit.rest.search.repos] receives. *)
Record SearchCall := mkCall {
  q : string;
  call_sort : option SortKey;
  call_order : Order;
  per_page : N;
  call_page : Z
}.

(** What a method hands back: a value, or the message of the [Error] it
    throws. *)
Inductive Outcome (A : Type) :=
| Returned (a : A)
| Thrown (message : string).
Arguments Returned {A} a.
Arguments Thrown {A} message.

Module SearchEngine.
Import JS.

(** Arrays are objects: the engine's [exclusionList] field holds a
    reference into the store of arrays. *)
Record Engine := mkEngine {
  heap : list (list string);
  exclusionList : nat
}.

Definition deref (e : Engine) (ref : nat) : list string :=
  default [] (heap e !! ref).

Definition initial : Engine :=
  {| heap := [["Gzeu"]]; exclusionList := 0 |}.

Definition stars_w : R := 0.3.
Definition forks_w : R := 0.2.
Definition issues_w : R := 0.1.
Definition updates_w : R := 0.2.
Definition documentation_w : R := 0.2.

Definition tri (o : option bool) (yes no : string) : list string :=
  match o with
  | Some true => [yes]
  | Some false => [no]
  | None => []
  end.

Definition buildSmartQuery (e : Engine) (query : string) (filters : SearchFilters)
    : string :=
  let parts :=
    [query]
    ++ map (λ user, "-user:" +:+ user) (deref e (exclusionList e))
    ++ match f_language filters with
       | Some l => if truthy l then ["language:" +:+ l] else []
       | None => []
       end
    ++ match minStars filters with
       | Some n => ["stars:>=" +:+ str_of_Z n]
       | None => []
       end
    ++ match maxStars filters with
       | Some n => ["stars:<=" +:+ str_of_Z n]
       | None => []
       end
    ++ match f_topics filters with
       | Some ts => map (λ topic, "topic:" +:+ topic) ts
       | None => []
       end
    ++ tri (hasIssues filters) "has:issues" "-has:issues"
    ++ tri (hasWiki filters) "has:wiki" "-has:wiki"
    ++ tri (hasPages filters) "has:pages" "-has:pages"
    ++ tri (archived filters) "archived:true" "archived:false"
    ++ tri (fork filters) "fork:true" "fork:false" in
  join " " (filter (λ p, Is_true (truthy p)) parts).

(** [calculateQualityScore] in exact arithmetic; [now] is what
    [Date.now()] returns.  [Binary64.calculateQualityScore] is the same
    function on doubles. *)
Definition calculateQualityScore (now : Z) (repo : RawRepo) : option Z :=
  let score := 0%R in
  l ← Num.log10 (Num.ofN (raw_stargazers_count repo) + 1);
  let starScore := Rmin (l * 10) 30 in
  let score := (score + starScore * stars_w)%R in
  l ← Num.log10 (Num.ofN (raw_forks_count repo) + 1);
  let forkScore := Rmin (l * 10) 20 in
  let score := (score + forkScore * forks_w)%R in
  let daysSinceUpdate :=
    (IZR (now - raw_updated_at repo) / IZR Num.msPerDay)%R in
  let activityScore := Rmax (20 - daysSinceUpdate / 30) 0 in
  let score := (score + activityScore * updates_w)%R in
  let hasReadme :=
    match raw_description repo with
    | Some d => (50 <? String.length d)%nat
    | None => false
    end in
  let hasTopics :=
    match raw_topics repo with
    | Some ts => (0 <? length ts)%nat
    | None => false
    end in
  let docScore :=
    ((if hasReadme then 15 else 0) + (if hasTopics then 5 else 0))%R in
  let score := (score + docScore * documentation_w)%R in
  issueRatio ← Num.fdiv (Num.ofN (raw_open_issues_count repo))
                        (Num.ofN (raw_stargazers_count repo) + 1);
  let issueScore := Rmax (10 - issueRatio * 50) 0 in
  let score := (score + issueScore * issues_w)%R in
  Some (Num.round (Rmin score 100)).

Definition enrich_one (now : Z) (repo : RawRepo) : Repository :=
  let qualityScore := calculateQualityScore now repo in
  {| id := raw_id repo;
     name := raw_name repo;
     full_name := raw_full_name repo;
     description := raw_description repo;
     html_url := raw_html_url repo;
     language := raw_language repo;
     stargazers_count := raw_stargazers_count repo;
     forks_count := raw_forks_count repo;
     open_issues_count := raw_open_issues_count repo;
     updated_at := raw_updated_at repo;
     created_at := raw_created_at repo;
     topics := default [] (raw_topics repo);
     owner := {| login := login (raw_owner repo);
                 avatar_url := avatar_url (raw_owner repo) |};
     qualityScore := qualityScore |}.

Definition enrichRepositories (now : Z) (repos : list RawRepo) : list Repository :=
  map (enrich_one now) repos.

(** [searchRepositories]: [octokit] answers the request or fails. *)
Definition searchRepositories
    (octokit : SearchCall → option SearchResponse) (now : Z) (e : Engine)
    (query : string) (filters : SearchFilters) (page : Z)
    : Outcome (SearchResult Repository) :=
  let searchQuery := buildSmartQuery e query filters in
  match octokit {| q := searchQuery;
                   call_sort := Some (default by_stars (sortBy filters));
                   call_order := default desc (order filters);
                   per_page := 30;
                   call_page := page |} with
  | Some response =>
      let repositories := enrichRepositories now (items response) in
      Returned
        {| sr_repositories := repositories;
           totalCount := total_count response;
           hasMore := (length (items response) =? 30)%nat;
           nextPage := if (length (items response) =? 30)%nat
                       then Some (page + 1)%Z else None |}
  | None => Thrown "Failed to search repositories"
  end.

(** [push] on the array the field refers to, unless already there. *)
Definition addToExclusionList (username : string) (e : Engine) : Engine :=
  let arr := deref e (exclusionList e) in
  if arr_includes arr username then e
  else {| heap := <[exclusionList e := arr ++ [username]]> (heap e);
          exclusionList := exclusionList e |}.

(** [filter] builds a new array, which the field then refers to. *)
Definition removeFromExclusionList (username : string) (e : Engine) : Engine :=
  let arr := deref e (exclusionList e) in
  {| heap := heap e ++ [filter (λ user, user ≠ username) arr];
     exclusionList := length (heap e) |}.

(** [[...this.exclusionList]]: a new array with the same elements. *)
Definition getExclusionList (e : Engine) : nat * Engine :=
  let arr := deref e (exclusionList e) in
  (length (heap e),
   {| heap := heap e ++ [arr]; exclusionList := exclusionList e |}).

(** Any mutation a caller performs on an array it holds. *)
Definition array_write (ref : nat) (v : list string) (e : Engine) : Engine :=
  {| heap := <[ref := v]> (heap e); exclusionList := exclusionList e |}.

(** Calls on the engine and mutations by its clients.  A client holds the
    arrays [getExclusionList] gave it, in the order received. *)
Inductive Op :=
| Add (username : string)
| Remove (username : string)
| Get
| Mutate (k : nat) (v : list string).

Record World := mkWorld {
  engine : Engine;
  handles : list nat
}.

Definition step (w : World) (op : Op) : World :=
  match op with
  | Add u => {| engine := addToExclusionList u (engine w); handles := handles w |}
  | Remove u => {| engine := removeFromExclusionList u (engine w); handles := handles w |}
  | Get =>
      let '(ref, e') := getExclusionList (engine w) in
      {| engine := e'; handles := handles w ++ [ref] |}
  | Mutate k v =>
      match handles w !! k with
      | Some ref => {| engine := array_write ref v (engine w); handles := handles w |}
      | None => w
      end
  end.

Definition run (w : World) (ops : list Op) : World := fold_left step ops w.

Definition is_call (op : Op) : bool :=
  match op with
  | Mutate _ _ => false
  | _ => true
  end.

Definition current (w : World) : list string :=
  deref (engine w) (exclusionList (engine w)).

Definition boot : World := {| engine := initial; handles := [] |}.

(** The field refers to an allocated array, and no client holds it. *)
Definition wf (w : World) : Prop :=
  (exclusionList (engine w) < length (heap (engine w)))%nat
  ∧ Forall (λ h, (h < length (heap (engine w)))%nat ∧ h ≠ exclusionList (engine w))
           (handles w).

End SearchEngine.

(** ** The rate limiter ([enhanced-github-api.ts], class [RateLimitManager]) *)

Module RateLimiter.

Record State := mkState {
  lastRequestTime : Z;
  requestCount : Z;
  resetTime : Z;
  remaining : Z
}.

Definition initial : State :=
  {| lastRequestTime := 0; requestCount := 0; resetTime := 0; remaining := 5000 |}.

Definition minInterval : Z := 100.

(** A call of [waitIfNeeded] suspended at one of its two [await]s, with the
    instant its timer is due.  The first keeps the local [now]. *)
Inductive Suspended :=
| QuotaWait (now due : Z)
| SpacingWait (due : Z).

Definition due_time (p : Suspended) : Z :=
  match p with
  | QuotaWait _ due => due
  | SpacingWait due => due
  end.

(** The last three statements; [clock] is what [Date.now()] returns. *)
Definition record (clock : Z) (s : State) : State :=
  {| lastRequestTime := clock;
     requestCount := requestCount s + 1;
     resetTime := resetTime s;
     remaining := remaining s - 1 |}.

(** From "Enforce minimum time between requests" on: [now] is the local
    read at the start of the call, [clock] the current instant. *)
Definition spacing (now clock : Z) (s : State) : State * option Suspended :=
  let timeSinceLastRequest := (now - lastRequestTime s)%Z in
  if (timeSinceLastRequest <? minInterval)%Z
  then (s, Some (SpacingWait (clock + (minInterval - timeSinceLastRequest))))
  else (record clock s, None).

(** The call up to its first [await], or to its end. *)
Definition start (clock : Z) (s : State) : State * option Suspended :=
  let now := clock in
  let s :=
    if (resetTime s <? now)%Z
    then {| lastRequestTime := lastRequestTime s;
            requestCount := 0;
            resetTime := resetTime s;
            remaining := 5000 |}
    else s in
  if (remaining s <=? 100)%Z then
    let waitTime := Z.max 0 (resetTime s - now) in
    if (0 <? waitTime)%Z
    then (s, Some (QuotaWait now (clock + waitTime)))
    else spacing now clock s
  else spacing now clock s.

(** A suspended call goes on when its timer fires, at [clock]. *)
Definition resume (clock : Z) (p : Suspended) (s : State) : State * option Suspended :=
  match p with
  | QuotaWait now _ => spacing now clock s
  | SpacingWait _ => (record clock s, None)
  end.

Definition updateLimits (remaining resetTime : Z) (s : State) : State :=
  {| lastRequestTime := lastRequestTime s;
     requestCount := requestCount s;
     resetTime := resetTime * 1000;
     remaining := remaining |}.

(** One caller, timers firing when due: the instant [waitIfNeeded]
    resolves and the state it leaves. *)
Definition waitIfNeeded (clock : Z) (s : State) : Z * State :=
  match start clock s with
  | (s1, None) => (clock, s1)
  | (s1, Some p1) =>
      let t1 := due_time p1 in
      match resume t1 p1 s1 with
      | (s2, None) => (t1, s2)
      | (s2, Some p2) =>
          let t2 := due_time p2 in
          (t2, fst (resume t2 p2 s2))
      end
  end.

(** The event loop.  Several calls may be in flight; each runs without
    interruption from one [await] to the next.  [Call c t] starts call [c]
    at instant [t]; [Wake c t] fires the timer call [c] waits for. *)
Inductive Event :=
| Call (c : nat) (t : Z)
| Wake (c : nat) (t : Z).

Record Loop := mkLoop {
  clock : Z;
  limiter : State;
  suspended : gmap nat Suspended;
  log : list (nat * Z)
}.

(** [log] lists the completed calls with the timestamp each recorded. *)
Definition settle (c : nat) (t : Z) (lp : Loop) (r : State * option Suspended)
    : Loop :=
  match r with
  | (s, Some p) =>
      {| clock := t; limiter := s;
         suspended := <[c := p]> (suspended lp); log := log lp |}
  | (s, None) =>
      {| clock := t; limiter := s;
         suspended := delete c (suspended lp);
         log := log lp ++ [(c, lastRequestTime s)] |}
  end.

(** An event that cannot happen (time running backwards, a timer firing
    early, a call started twice) gives [None]. *)
Definition exec (lp : Loop) (ev : Event) : option Loop :=
  match ev with
  | Call c t =>
      if (clock lp <=? t)%Z && bool_decide (suspended lp !! c = None)
      then Some (settle c t lp (start t (limiter lp)))
      else None
  | Wake c t =>
      match suspended lp !! c with
      | Some p =>
          if (clock lp <=? t)%Z && (due_time p <=? t)%Z
          then Some (settle c t lp (resume t p (limiter lp)))
          else None
      | None => None
      end
  end.

Fixpoint run (lp : Loop) (evs : list Event) : option Loop :=
  match evs with
  | [] => Some lp
  | ev :: evs' =>
      match exec lp ev with
      | Some lp' => run lp' evs'
      | None => None
      end
  end.

(** A schedule in which no call starts while another is suspended. *)
Fixpoint serial (lp : Loop) (evs : list Event) : bool :=
  match evs with
  | [] => true
  | ev :: evs' =>
      match ev with
      | Call _ _ => bool_decide (suspended lp = ∅)
      | Wake _ _ => true
      end
      && match exec lp ev with
         | Some lp' => serial lp' evs'
         | None => false
         end
  end.

Definition boot (t : Z) : Loop :=
  {| clock := t; limiter := initial; suspended := ∅; log := [] |}.

(** Every two recorded timestamps are at least [minInterval] apart. *)
Definition spaced (l : list (nat * Z)) : Prop :=
  ∀ i j a b, i ≠ j → l !! i = Some a → l !! j = Some b →
             (minInterval <= Z.abs (a.2 - b.2))%Z.

(** The state [start] works on once the quota is refreshed. *)
Definition refreshed (t : Z) (s : State) : State :=
  if (resetTime s <? t)%Z
  then {| lastRequestTime := lastRequestTime s; requestCount := 0;
          resetTime := resetTime s; remaining := 5000 |}
  else s.

(** What the serial schedules maintain: the recorded timestamps grow by
    at least [minInterval] and none is later than [lastRequestTime]; at
    most one call is suspended, and its timer is due late enough. *)
Fixpoint chain (last : Z) (stamps : list Z) : Prop :=
  match stamps with
  | [] => True
  | a :: stamps' => (a <= last)%Z ∧ Forall (λ b, (a + minInterval <= b)%Z) stamps'
                    ∧ chain last stamps'
  end.

Definition due_ok (s : State) (p : Suspended) : Prop :=
  match p with
  | QuotaWait now due => (now <= due)%Z
  | SpacingWait due => (lastRequestTime s + minInterval <= due)%Z
  end.

Definition Inv (lp : Loop) : Prop :=
  chain (lastRequestTime (limiter lp)) (log lp).*2
  ∧ (suspended lp = ∅
     ∨ ∃ c p, suspended lp = {[c := p]} ∧ due_ok (limiter lp) p).

(** Three calls: the second and the third start while the first has just
    finished, and sleep until the same instant. *)
Definition overlapping : list Event :=
  [ Call 1 1700000000000; Call 2 1700000000010; Call 3 1700000000020;
    Wake 2 1700000000100; Wake 3 1700000000100 ].

(** The same calls, each started after the one before has finished. *)
Definition one_by_one : list Event :=
  [ Call 1 1700000000000; Call 2 1700000000010; Wake 2 1700000000100;
    Call 3 1700000000120; Wake 3 1700000000200 ].

End RateLimiter.

(** ** The enhanced search ([enhanced-github-api.ts], class [EnhancedGitHubAPI]) *)

Inductive Level := level_none | level_low | level_medium | level_high.
Inductive Size := small | medium | large.
Inductive Activity := active | maintained | stale.
Inductive Quality := excellent | good | fair | poor.
Inductive TeamSize := team_solo | team_small | team_medium | team_large.

Record EnhancedSearchFilters := mkEnhancedFilters {
  base : SearchFilters;
  vulnerabilities : option Level;
  license : option (list string);
  size : option Size;
  activity : option Activity;
  codeQuality : option Quality;
  teamSize : option TeamSize
}.

(** What [enhancedEnrichment] returns: a [Repository] with four more fields. *)
Record EnhancedRepository := mkEnhancedRepository {
  repo : Repository;
  languages : list string;
  contributorCount : N;
  lastCommit : option string;
  repo_license : option string
}.

Module Enhanced.
Import JS.

(** The external services.  [None] is a failed request. *)
Record Api := mkApi {
  search_repos : SearchCall → option SearchResponse;
  listLanguages : string → option string → option (list string);
  listContributors : string → option string → N → option N;
  elapsed : Z
}.

Inductive Effect :=
| LimiterWait (clock : Z)
| SearchRequest (call : SearchCall)
| LanguagesRequest (fullName : string)
| ContributorsRequest (fullName : string).

Record CachedEntry := mkEntry {
  data : SearchResult EnhancedRepository;
  timestamp : Z
}.

(** The fields of the API object, the clock, and the requests issued so
    far.  The cache holds the search entries; entries of other methods
    live under keys with another prefix. *)
Record World := mkWorld {
  clock : Z;
  rateLimitManager : RateLimiter.State;
  cache : gmap string CachedEntry;
  trace : list Effect
}.

Definition cacheTimeout : Z := 1000 * 60 * 15.

(** [s.split(c)]. *)
Fixpoint split (c : ascii) (s : string) : list string :=
  match s with
  | EmptyString => [""]
  | String a s' =>
      if Ascii.eqb a c then "" :: split c s'
      else match split c s' with
           | h :: t => String a h :: t
           | [] => [String a ""]
           end
  end.

Definition buildEnhancedQuery (now : Z) (query : string)
    (filters : EnhancedSearchFilters) : string :=
  let parts :=
    [query]
    ++ match license filters with
       | Some ls => map (λ l, "license:" +:+ l) ls
       | None => []
       end
    ++ match size filters with
       | Some small => ["size:<1000"]
       | Some medium => ["size:1000..10000"]
       | Some large => ["size:>10000"]
       | None => []
       end
    ++ match activity filters with
       | Some a =>
           let t_active := Num.iso_date (now - 30 * 24 * 60 * 60 * 1000) in
           let t_maintained := Num.iso_date (now - 90 * 24 * 60 * 60 * 1000) in
           let t_stale := "<" +:+ Num.iso_date (now - 365 * 24 * 60 * 60 * 1000) in
           match a with
           | active => ["pushed:>" +:+ t_active]
           | maintained => ["pushed:>" +:+ t_maintained]
           | stale => ["pushed:" +:+ t_stale]
           end
       | None => []
       end
    ++ ["-user:Gzeu"; "-user:octocat"; "NOT tutorial"; "NOT example"] in
  join " " parts.

Definition calculateEnhancedQualityScore
    (now : Z) (repo : RawRepo) (languages : list string) (contributors : N)
    : option Z :=
  let score := 0%R in
  l ← Num.log10 (Num.ofN (raw_stargazers_count repo) + 1);
  let score := (score + Rmin (l * 5) 25)%R in
  let daysSinceUpdate :=
    (IZR (now - raw_updated_at repo) / IZR Num.msPerDay)%R in
  let score := (score + Rmax (20 - daysSinceUpdate / 7) 0)%R in
  let score :=
    match raw_description repo with
    | Some d => if (20 <? String.length d)%nat then (score + 10)%R else score
    | None => score
    end in
  let score :=
    match raw_topics repo with
    | Some ts => if (0 <? length ts)%nat then (score + 5)%R else score
    | None => score
    end in
  let score := (score + Rmin (Num.ofN contributors * 2) 15)%R in
  let score := (score + Rmin (Num.ofN (raw_forks_count repo) / 10) 5)%R in
  let languageCount := N.of_nat (length languages) in
  let score := (score + Rmin (Num.ofN languageCount * 2) 10)%R in
  issueRatio ← Num.fdiv (Num.ofN (raw_open_issues_count repo))
                        (Num.ofN (raw_stargazers_count repo) + 1);
  let score := (score + Rmax (10 - issueRatio * 50) 0)%R in
  Some (Num.round (Rmin score 100)).

Definition getRepositoryLanguages (api : Api) (fullName : string) : list string :=
  let parts := split "/" fullName in
  default [] (listLanguages api (default "" (parts !! 0%nat)) (parts !! 1%nat)).

Definition getTopContributors (api : Api) (fullName : string) : N :=
  let parts := split "/" fullName in
  default 0%N (listContributors api (default "" (parts !! 0%nat)) (parts !! 1%nat) 10).

Definition enhanced_one (api : Api) (now : Z) (raw : RawRepo) : EnhancedRepository :=
  let languages := getRepositoryLanguages api (raw_full_name raw) in
  let contributors := getTopContributors api (raw_full_name raw) in
  let qualityScore := calculateEnhancedQualityScore now raw languages contributors in
  {| repo :=
       {| id := raw_id raw;
          name := raw_name raw;
          full_name := raw_full_name raw;
          description := raw_description raw;
          html_url := raw_html_url raw;
          language := raw_language raw;
          stargazers_count := raw_stargazers_count raw;
          forks_count := raw_forks_count raw;
          open_issues_count := raw_open_issues_count raw;
          updated_at := raw_updated_at raw;
          created_at := raw_created_at raw;
          topics := default [] (raw_topics raw);
          owner := {| login := login (raw_owner raw);
                      avatar_url := avatar_url (raw_owner raw) |};
          qualityScore := qualityScore |};
     languages := languages;
     contributorCount := contributors;
     lastCommit := raw_pushed_at raw;
     repo_license := raw_license raw |}.

Definition enhancedEnrichment (api : Api) (now : Z) (repos : list RawRepo)
    : list EnhancedRepository :=
  map (enhanced_one api now) repos.

Definition enrichment_effects (repos : list RawRepo) : list Effect :=
  flat_map (λ raw, [LanguagesRequest (raw_full_name raw);
                    ContributorsRequest (raw_full_name raw)]) repos.

Definition qualityThresholds (c : Quality) : Z :=
  match c with
  | excellent => 85
  | good => 70
  | fair => 55
  | poor => 0
  end.

Definition keeps (filters : EnhancedSearchFilters) (r : EnhancedRepository) : bool :=
  match codeQuality filters with
  | Some c =>
      if (score_or (qualityScore (repo r)) 0 <? qualityThresholds c)%Z
      then false else true
  | None => true
  end.

Definition applyAdvancedFilters
    (repos : list EnhancedRepository) (filters : EnhancedSearchFilters)
    : list EnhancedRepository :=
  filter (λ r, Is_true (keeps filters r)) repos.

Section Search.
(** [JSON.stringify] on a filter object. *)
Variable stringify : EnhancedSearchFilters → string.
Variable api : Api.

Definition cacheKey (query : string) (filters : EnhancedSearchFilters) (page : Z)
    : string :=
  "search-" +:+ query +:+ "-" +:+ stringify filters +:+ "-" +:+ str_of_Z page.

(** The entry [enhancedSearch] answers from, if there is one. *)
Definition fresh_entry (w : World) (cacheKey : string) : option CachedEntry :=
  match cache w !! cacheKey with
  | Some cached =>
      if (clock w - timestamp cached <? cacheTimeout)%Z then Some cached else None
  | None => None
  end.

Definition enhancedSearch (query : string) (filters : EnhancedSearchFilters)
    (page : Z) (w : World)
    : Outcome (SearchResult EnhancedRepository) * World :=
  let cacheKey := cacheKey query filters page in
  match fresh_entry w cacheKey with
  | Some cached => (Returned (data cached), w)
  | None =>
      let '(t, rate) := RateLimiter.waitIfNeeded (clock w) (rateLimitManager w) in
      let searchQuery := buildEnhancedQuery t query filters in
      let call :=
        {| q := searchQuery;
           call_sort :=
             match sortBy (base filters) with
             | Some by_name => None
             | Some k => Some k
             | None => Some by_stars
             end;
           call_order := default desc (order (base filters));
           per_page := 50;
           call_page := page |} in
      match search_repos api call with
      | Some response =>
          let t' := (t + elapsed api)%Z in
          let enrichedRepos := enhancedEnrichment api t' (items response) in
          let filteredRepos := applyAdvancedFilters enrichedRepos filters in
          let result :=
            {| sr_repositories := filteredRepos;
               totalCount := total_count response;
               hasMore := (length filteredRepos =? 50)%nat;
               nextPage := if (length filteredRepos =? 50)%nat
                           then Some (page + 1)%Z else None |} in
          (Returned result,
           {| clock := t';
              rateLimitManager := rate;
              cache := <[cacheKey := {| data := result; timestamp := t' |}]> (cache w);
              trace := trace w ++ [LimiterWait (clock w); SearchRequest call]
                       ++ enrichment_effects (items response) |})
      | None =>
          (Thrown "Enhanced search failed",
           {| clock := (t + elapsed api)%Z;
              rateLimitManager := rate;
              cache := cache w;
              trace := trace w ++ [LimiterWait (clock w); SearchRequest call] |})
      end
  end.
End Search.

Record Conflict := mkConflict {
  conflict_type : string;
  conflict_description : string;
  severity : Level
}.

Record Compatibility := mkCompatibility {
  compatibilityScore : Z;
  conflicts : list Conflict;
  suggestions : list string
}.

(** The helpers of [analyzeProjectCompatibility] are constant. *)
Definition detectFrameworksDetailed (repos : list Repository) : list string := [].
Definition analyzeLicenseCompatibility (repos : list Repository) : list Conflict := [].
Definition analyzeDependencyCompatibility (repos : list Repository) : list Conflict := [].
Definition calculateCompatibilityScore
    (frameworks : list string) (licenses dependencies : list Conflict) : Z := 85.
Definition generateCompatibilitySuggestions
    (frameworks : list string) (dependencies : list Conflict) : list string :=
  ["Projects appear to be compatible"].

Definition analyzeProjectCompatibility (repos : list Repository)
    : Outcome Compatibility :=
  if (length repos <? 2)%nat then
    Returned {| compatibilityScore := 100;
                conflicts := [];
                suggestions := ["Add more repositories to analyze compatibility"] |}
  else
    let frameworks := detectFrameworksDetailed repos in
    let licenseCompatibility := analyzeLicenseCompatibility repos in
    let dependencyConflicts := analyzeDependencyCompatibility repos in
    let compatibilityScore :=
      calculateCompatibilityScore frameworks licenseCompatibility dependencyConflicts in
    Returned {| compatibilityScore := compatibilityScore;
                conflicts := dependencyConflicts ++ licenseCompatibility;
                suggestions :=
                  generateCompatibilitySuggestions frameworks dependencyConflicts |}.

End Enhanced.


(** ** Sample inputs *)

Module Samples.

Definition shop : Repository :=
  {| id := 10; name := "NextJS-shop"; full_name := "acme/NextJS-shop";
     description := None; html_url := "https://github.com/acme/NextJS-shop";
     language := Some "TypeScript";
     stargazers_count := 120; forks_count := 8; open_issues_count := 3;
     updated_at := 1700000000000; created_at := 1600000000000;
     topics := ["TypeScript"; "stripe"];
     owner := {| login := "acme"; avatar_url := "" |};
     qualityScore := Some 7%Z |}.

Definition blog : Repository :=
  {| id := 9; name := "blog"; full_name := "bob/blog";
     description := Some "A Next.js blog with React";
     html_url := "https://github.com/bob/blog";
     language := None;
     stargazers_count := 5; forks_count := 0; open_issues_count := 0;
     updated_at := 1690000000000; created_at := 1600000000000;
     topics := ["tailwindcss"; "typescript"];
     owner := {| login := "bob"; avatar_url := "" |};
     qualityScore := None |}.

Definition shop_and_blog : Combinator.CombinationRequest :=
  Combinator.mkRequest [shop; blog] "mesh" None None [].

(** The same request with its repositories the other way round. *)
Definition blog_and_shop : Combinator.CombinationRequest :=
  Combinator.mkRequest [blog; shop] "mesh" None None [].

(** A repository record with another [qualityScore]. *)
Definition with_quality (q : option Z) (r : Repository) : Repository :=
  {| id := id r; name := name r; full_name := full_name r;
     description := description r; html_url := html_url r;
     language := language r; stargazers_count := stargazers_count r;
     forks_count := forks_count r; open_issues_count := open_issues_count r;
     updated_at := updated_at r; created_at := created_at r;
     topics := topics r; owner := owner r; qualityScore := q |}.

Definition raw_with_quality (q : option Z) (r : RawRepo) : RawRepo :=
  {| raw_id := raw_id r; raw_name := raw_name r; raw_full_name := raw_full_name r;
     raw_description := raw_description r; raw_html_url := raw_html_url r;
     raw_language := raw_language r;
     raw_stargazers_count := raw_stargazers_count r;
     raw_forks_count := raw_forks_count r;
     raw_open_issues_count := raw_open_issues_count r;
     raw_updated_at := raw_updated_at r; raw_created_at := raw_created_at r;
     raw_topics := raw_topics r; raw_owner := raw_owner r;
     raw_qualityScore := q;
     raw_pushed_at := raw_pushed_at r; raw_license := raw_license r |}.

(** A response item of a new, empty repository, and the same item
    claiming a score of its own. *)
Definition bare : RawRepo :=
  {| raw_id := 77; raw_name := "scratch"; raw_full_name := "carol/scratch";
     raw_description := None; raw_html_url := "https://github.com/carol/scratch";
     raw_language := None;
     raw_stargazers_count := 0; raw_forks_count := 0; raw_open_issues_count := 0;
     raw_updated_at := 1699990000000; raw_created_at := 1699990000000;
     raw_topics := None;
     raw_owner := {| login := "carol"; avatar_url := "" |};
     raw_qualityScore := None;
     raw_pushed_at := None; raw_license := None |}.

Definition boasting : RawRepo := raw_with_quality (Some 100%Z) bare.

(** A search service that answers every request with a full page of 50
    such items, and knows neither languages nor contributors. *)
Definition full_page : Enhanced.Api :=
  {| Enhanced.search_repos := λ _, Some {| items := repeat bare 50; total_count := 1000 |};
     Enhanced.listLanguages := λ _ _, None;
     Enhanced.listContributors := λ _ _ _, None;
     Enhanced.elapsed := 250 |}.

Definition no_filters : SearchFilters :=
  {| f_language := None; minStars := None; maxStars := None; f_topics := None;
     hasIssues := None; hasWiki := None; hasPages := None;
     archived := None; fork := None; sortBy := None; order := None |}.

Definition only_excellent : EnhancedSearchFilters :=
  {| base := no_filters; vulnerabilities := None; license := None; size := None;
     activity := None; codeQuality := Some excellent; teamSize := None |}.

Definition only_active : EnhancedSearchFilters :=
  {| base := no_filters; vulnerabilities := None; license := None; size := None;
     activity := Some active; codeQuality := None; teamSize := None |}.

Definition at_start : Enhanced.World :=
  {| Enhanced.clock := 1700000000000;
     Enhanced.rateLimitManager := RateLimiter.initial;
     Enhanced.cache := ∅;
     Enhanced.trace := [] |}.

End Samples.

(** ** Readings of the specification, to compare the code with *)

Module Spec.
Import JS.

(** The repository part of a combination id with the ids in ascending
    numeric order. *)
Definition numeric_component (request : Combinator.CombinationRequest) : string :=
  slice0 20
    (join "-" (map str_of_N
                   (sort_by N.leb (map id (Combinator.repositories request))))).

Definition log10 (x : R) : R := (ln x / ln 10)%R.

(** The standard quality score as section 4.4 writes it. *)
Definition standard_score (stars forks openIssues : N) (daysSinceUpdate : R)
    (descriptionLength : nat) (hasTopics : bool) : Z :=
  Num.round
    (Rmin (0.3 * Rmin (log10 (Num.ofN stars + 1) * 10) 30
           + 0.2 * Rmin (log10 (Num.ofN forks + 1) * 10) 20
           + 0.2 * Rmax (20 - daysSinceUpdate / 30) 0
           + 0.2 * ((if (50 <? descriptionLength)%nat then 15 else 0)
                    + (if hasTopics then 5 else 0))
           + 0.1 * Rmax (10 - (Num.ofN openIssues / (Num.ofN stars + 1)) * 50) 0)
          100).

Definition daysSinceUpdate (now : Z) (repo : RawRepo) : R :=
  (IZR (now - raw_updated_at repo) / IZR Num.msPerDay)%R.

Definition descriptionLength (repo : RawRepo) : nat :=
  match raw_description repo with
  | Some d => String.length d
  | None => 0
  end.

Definition hasTopics (repo : RawRepo) : bool :=
  match raw_topics repo with
  | Some (_ :: _) => true
  | _ => false
  end.


End Spec.

(** ** Recommendations and security ([enhanced-github-api.ts], continued) *)

Module Recommend.
Import JS Enhanced.

Record Preferences := mkPreferences {
  pref_languages : list string;
  pref_topics : list string;
  pref_minStars : option Z
}.

Record Patterns := mkPatterns {
  pat_languages : list string;
  pat_topics : list string
}.

(** A repository with its [recommendationScore]. *)
Record Recommended := mkRecommended {
  rec_repo : EnhancedRepository;
  recommendationScore : Z
}.

Definition analyzeUserPatterns (history : list Repository) (preferences : Preferences)
    : Patterns :=
  {| pat_languages := pref_languages preferences;
     pat_topics := pref_topics preferences |}.

(** A template literal prints a missing first language as the word
    [undefined]. *)
Definition buildRecommendationQueries (patterns : Patterns) : list string :=
  [ "language:" +:+ default "undefined" (head (pat_languages patterns)) ].

(** [seen] is the [Set] of ids met so far. *)
Fixpoint dedup_from (seen : gset N) (repos : list EnhancedRepository)
    : list EnhancedRepository :=
  match repos with
  | [] => []
  | r :: repos' =>
      if bool_decide (id (repo r) ∈ seen) then dedup_from seen repos'
      else r :: dedup_from ({[ id (repo r) ]} ∪ seen) repos'
  end.

Definition deduplicateRepositories (repos : list EnhancedRepository)
    : list EnhancedRepository :=
  dedup_from ∅ repos.

Definition calculateRecommendationScore (r : EnhancedRepository) (patterns : Patterns)
    : Z :=
  score_or (qualityScore (repo r)) 50.

(** [(b.recommendationScore || 0) - (a.recommendationScore || 0) <= 0]:
    [a] may stay in front of [b]. *)
Definition by_score (a b : Recommended) : bool :=
  (score_or (Some (recommendationScore b)) 0
   <=? score_or (Some (recommendationScore a)) 0)%Z.

(** The default filters of a recommendation search. *)
Definition recommendation_filters (preferences : Preferences) : EnhancedSearchFilters :=
  {| base := {| f_language := None;
                minStars := Some (score_or (pref_minStars preferences) 10);
                maxStars := None; f_topics := None;
                hasIssues := None; hasWiki := None; hasPages := None;
                archived := None; fork := None; sortBy := None; order := None |};
     vulnerabilities := None; license := None; size := None;
     activity := None; codeQuality := None; teamSize := None |}.

Section Recommendations.
Variable stringify : EnhancedSearchFilters → string.
Variable api : Api.

(** The searches of [Promise.all], one after the other; the first that
    throws makes the whole call throw. *)
Fixpoint search_all (queries : list string) (filters : EnhancedSearchFilters)
    (w : World)
    : Outcome (list (SearchResult EnhancedRepository)) * World :=
  match queries with
  | [] => (Returned [], w)
  | query :: queries' =>
      match enhancedSearch stringify api query filters 1 w with
      | (Returned r, w1) =>
          match search_all queries' filters w1 with
          | (Returned rs, w2) => (Returned (r :: rs), w2)
          | (Thrown m, w2) => (Thrown m, w2)
          end
      | (Thrown m, w1) => (Thrown m, w1)
      end
  end.

Definition getSmartRecommendations
    (userHistory : list Repository) (preferences : Preferences) (w : World)
    : Outcome (list Recommended) * World :=
  let patterns := analyzeUserPatterns userHistory preferences in
  let queries := buildRecommendationQueries patterns in
  match search_all queries (recommendation_filters preferences) w with
  | (Returned recommendations, w') =>
      let allRepos := flat_map sr_repositories recommendations in
      let uniqueRepos := deduplicateRepositories allRepos in
      let scoredRepos :=
        map (λ r, {| rec_repo := r;
                     recommendationScore :=
                       calculateRecommendationScore r patterns |})
            uniqueRepos in
      (Returned (take 20 (sort_by by_score scoredRepos)), w')
  | (Thrown m, w') => (Thrown m, w')
  end.
End Recommendations.

End Recommend.

(** ** The code analyzer ([ai-code-analyzer.ts], class [AICodeAnalyzer]) *)

Module CodeAnalysis.
Import JS.

Record CodeIssue := mkIssue {
  issue_type : string;
  issue_severity : string;
  issue_file : string;
  issue_line : option Z;
  issue_description : string;
  issue_suggestion : option string
}.

Record DependencyAnalysis := mkDependency {
  dep_name : string;
  dep_version : string;
  dep_vulnerabilities : Z;
  dep_outdated : bool;
  dep_alternatives : option (list string)
}.

Record CodeAnalysisResult := mkAnalysisResult {
  overallQuality : Z;
  issues : list CodeIssue;
  suggestions : list string;
  securityScore : Z;
  maintainabilityScore : Z;
  testCoverage : option Z;
  dependencies : list DependencyAnalysis
}.

(** [Partial<CodeAnalysisResult>], as far as the analyzer reads it. *)
Record PartialAnalysis := mkPartial {
  p_overallQuality : option Z;
  p_issues : option (list CodeIssue);
  p_suggestions : option (list string);
  p_securityScore : option Z;
  p_maintainabilityScore : option Z
}.

(** The answer of the language model: the request fails, or it carries a
    text, which may be [null]. *)
Inductive Reply :=
| Failed
| Content (text : option string).

(** The suffix of [s] from the first [c] on. *)
Fixpoint from_first (c : ascii) (s : string) : option string :=
  match s with
  | EmptyString => None
  | String a s' => if Ascii.eqb a c then Some s else from_first c s'
  end.

(** The prefix of [s] up to the last [c]. *)
Fixpoint upto_last (c : ascii) (s : string) : option string :=
  match s with
  | EmptyString => None
  | String a s' =>
      match upto_last c s' with
      | Some p => Some (String a p)
      | None => if Ascii.eqb a c then Some (String a EmptyString) else None
      end
  end.

(** [content.match(/\{[\s\S]*\}/)]: from the first opening brace to the
    last closing brace after it. *)
Definition match_braces (content : string) : option string :=
  s ← from_first "{" content;
  match s with
  | String a s' => String a <$> upto_last "}" s'
  | EmptyString => None
  end.

Definition unparsed : PartialAnalysis :=
  {| p_overallQuality := Some 75%Z;
     p_issues := Some [];
     p_suggestions := Some ["Unable to perform detailed analysis"];
     p_securityScore := Some 70%Z;
     p_maintainabilityScore := Some 75%Z |}.

Definition enhanceWithStaticAnalysis (analysis : PartialAnalysis) (repo : Repository)
    : CodeAnalysisResult :=
  {| overallQuality := score_or (p_overallQuality analysis) 75;
     issues := default [] (p_issues analysis);
     suggestions := default [] (p_suggestions analysis);
     securityScore := score_or (p_securityScore analysis) 70;
     maintainabilityScore := score_or (p_maintainabilityScore analysis) 75;
     testCoverage := None;
     dependencies := [] |}.

Definition getFallbackAnalysis (repo : Repository) : CodeAnalysisResult :=
  {| overallQuality := score_or (qualityScore repo) 60;
     issues := [ {| issue_type := "maintainability";
                    issue_severity := "medium";
                    issue_file := "unknown";
                    issue_line := None;
                    issue_description := "Analysis temporarily unavailable";
                    issue_suggestion := None |} ];
     suggestions := ["Repository analysis will be available shortly"];
     securityScore := 70;
     maintainabilityScore := 65;
     testCoverage := None;
     dependencies := [] |}.

Section Analyze.
(** [JSON.parse], [None] when it throws, and the text of a timestamp. *)
Variable JSON_parse : string → option PartialAnalysis.
Variable timestamp_text : Z → string.

Definition parseAIAnalysis (content : string) : PartialAnalysis :=
  match match_braces content with
  | Some json => default unparsed (JSON_parse json)
  | None => unparsed
  end.

Definition cacheKey (repo : Repository) : string :=
  full_name repo +:+ "-" +:+ timestamp_text (updated_at repo).

Definition analyzeRepository (reply : Reply) (repo : Repository)
    (cache : gmap string CodeAnalysisResult)
    : CodeAnalysisResult * gmap string CodeAnalysisResult :=
  match cache !! cacheKey repo with
  | Some cached => (cached, cache)
  | None =>
      match reply with
      | Content text =>
          let analysis := parseAIAnalysis (or_else text "") in
          let enhancedAnalysis := enhanceWithStaticAnalysis analysis repo in
          (enhancedAnalysis, <[cacheKey repo := enhancedAnalysis]> cache)
      | Failed => (getFallbackAnalysis repo, cache)
      end
  end.

(** What a call of [analyzeRepository] that missed the cache returns
    once the request to the model is settled. *)
Definition finished (reply : Reply) (repo : Repository) : CodeAnalysisResult :=
  match reply with
  | Content text =>
      enhanceWithStaticAnalysis (parseAIAnalysis (or_else text "")) repo
  | Failed => getFallbackAnalysis repo
  end.

(** [Promise.all(repos.map(repo => this.analyzeRepository(repo)))].  Each
    call runs up to its first [await] as soon as it is made, so every
    call looks into the cache as it is before any of them writes to it:
    [cache0].  A call that finds its key returns the cached analysis.
    The others settle later, in the order [order] of their positions in
    [repos]; the call at position [i] gets the reply [replies i] and
    writes its analysis into the cache when the request succeeded.  The
    analyses come in the order of [repos]. *)
Definition settle (replies : nat → Reply) (repos : list Repository)
    (cache0 cache : gmap string CodeAnalysisResult) (i : nat)
    : gmap string CodeAnalysisResult :=
  match repos !! i with
  | Some repo =>
      match cache0 !! cacheKey repo, replies i with
      | None, Content _ => <[cacheKey repo := finished (replies i) repo]> cache
      | _, _ => cache
      end
  | None => cache
  end.

Definition analyzeAll (replies : nat → Reply) (order : list nat)
    (repos : list Repository) (cache0 : gmap string CodeAnalysisResult)
    : list CodeAnalysisResult * gmap string CodeAnalysisResult :=
  (imap (λ i repo, default (finished (replies i) repo) (cache0 !! cacheKey repo))
        repos,
   fold_left (settle replies repos cache0) order cache0).

Definition detectFrameworks (repos : list Repository) : list string :=
  map (λ _, "react") repos.
Definition calculateFrameworkCompatibility (frameworks : list string) : R := 85.
Definition analyzeDependencyConflicts (analyses : list CodeAnalysisResult) : R := 90.
Definition analyzeArchitecturalPatterns (analyses : list CodeAnalysisResult) : R := 80.

(** [getCompatibilityScore]. *)
Definition getCompatibilityScore (replies : nat → Reply) (order : list nat)
    (repos : list Repository) (cache : gmap string CodeAnalysisResult)
    : Outcome Z * gmap string CodeAnalysisResult :=
  if (length repos <? 2)%nat then (Returned 100%Z, cache)
  else
    let '(analyses, cache') := analyzeAll replies order repos cache in
    let frameworks := detectFrameworks repos in
    let frameworkCompatibility := calculateFrameworkCompatibility frameworks in
    let dependencyCompatibility := analyzeDependencyConflicts analyses in
    let architecturalCompatibility := analyzeArchitecturalPatterns analyses in
    (Returned (Num.round (frameworkCompatibility * 0.4
                          + dependencyCompatibility * 0.4
                          + architecturalCompatibility * 0.2)), cache').
End Analyze.

(** White space ([\s] and [trim]: tab to carriage return, space and the
    no-break space, among the code units below 256) and the digits. *)
Definition is_space (a : ascii) : bool :=
  let n := N_of_ascii a in
  ((9 <=? n) && (n <=? 13) || (n =? 32) || (n =? 160))%N.

Definition is_digit (a : ascii) : bool :=
  let n := N_of_ascii a in
  ((48 <=? n) && (n <=? 57))%N.

Fixpoint trim_start (s : string) : string :=
  match s with
  | String a s' => if is_space a then trim_start s' else s
  | EmptyString => EmptyString
  end.

Fixpoint trim_end (s : string) : string :=
  match s with
  | String a s' =>
      match trim_end s' with
      | EmptyString => if is_space a then EmptyString else String a EmptyString
      | t => String a t
      end
  | EmptyString => EmptyString
  end.

Definition trim (s : string) : string := trim_end (trim_start s).

Fixpoint skip_digits (s : string) : string :=
  match s with
  | String a s' => if is_digit a then skip_digits s' else s
  | EmptyString => EmptyString
  end.

(** What is left of [s] after a match of [/^\d+\./] at its start. *)
Definition after_number (s : string) : option string :=
  match s with
  | String a s' =>
      if is_digit a then
        match skip_digits s' with
        | String "." rest => Some rest
        | _ => None
        end
      else None
  | EmptyString => None
  end.

(** [line.replace(/^\d+\.\s*/, '')]. *)
Definition strip_number (line : string) : string :=
  match after_number line with
  | Some rest => trim_start rest
  | None => line
  end.

Definition parseSuggestions (content : string) : list string :=
  let lines := Enhanced.split "010" content in
  let lines := filter (λ line, Is_true (0 <? String.length (trim line))%nat) lines in
  let lines := filter (λ line, is_Some (after_number (trim line))) lines in
  take 8 (map (λ line, trim (strip_number line)) lines).

End CodeAnalysis.

(** ** Vocabulary of the combinator *)

Module Vocabulary.

(** Every name [extractDependencies] can produce. *)
Definition dependency_names : list string :=
  [ "next"; "react"; "react-dom"; "@remix-run/node"; "@remix-run/react"; "vue";
    "typescript"; "tailwindcss"; "prisma"; "stripe"; "framer-motion" ].

(** The values of [detectFramework]. *)
Definition framework_names : list string :=
  [ "nextjs"; "remix"; "react"; "vue"; "angular"; "express"; "fastapi";
    "django"; "unknown" ].

(** How often [f] occurs in [fws]. *)
Definition occurrences (fws : list string) (f : string) : nat :=
  count_occ string_dec fws f.

(** An object that holds the entry [(g, c g)] for each key [g] of a list,
    and a count function changed at one key. *)
Definition table (keys : list string) (c : string → N) : JS.obj N :=
  map (λ g, (g, c g)) keys.

Definition put (f : string) (v : N) (c : string → N) : string → N :=
  λ g, if String.eqb g f then v else c g.

End Vocabulary.

(** ** The exclusion list as a set *)

Module ExclusionSet.
Import SearchEngine.

(** The names the calls of a sequence of operations leave excluded. *)
Definition apply_op (s : gset string) (op : Op) : gset string :=
  match op with
  | Add u => {[ u ]} ∪ s
  | Remove u => s ∖ {[ u ]}
  | Get => s
  | Mutate _ _ => s
  end.

Definition excluded (ops : list Op) : gset string :=
  fold_left apply_op ops {[ "Gzeu" ]}.

End ExclusionSet.

(** ** Passing time and reading characters *)

Module Aux.

(** The world [d] milliseconds later, nothing else having happened. *)
Definition later (d : Z) (w : Enhanced.World) : Enhanced.World :=
  {| Enhanced.clock := Enhanced.clock w + d;
     Enhanced.rateLimitManager := Enhanced.rateLimitManager w;
     Enhanced.cache := Enhanced.cache w;
     Enhanced.trace := Enhanced.trace w |}.

(** [c] occurs in [s]. *)
Fixpoint occurs (c : ascii) (s : string) : bool :=
  match s with
  | EmptyString => false
  | String a s' => Ascii.eqb a c || occurs c s'
  end.

(** The id and the score of a recommendation. *)
Definition rec_id (x : Recommend.Recommended) : N := id (repo (Recommend.rec_repo x)).

Definition enhanced_id (r : EnhancedRepository) : N := id (repo r).

(** The replies to two requests: a JSON object, then no text at all. *)
Definition two_replies (i : nat) : CodeAnalysis.Reply :=
  match i with
  | O => CodeAnalysis.Content (Some "{}")
  | _ => CodeAnalysis.Content None
  end.

End Aux.

(** ** The standard score on doubles

    [calculateQualityScore] as the engine computes it: every number is an
    IEEE 754 binary64 value ([spec_float] with 53 bits of precision), every
    operation rounds to nearest, ties to even.  [Math.log10] is left to the
    implementation by the language standard and is an argument here. *)

Module Binary64.

Local Open Scope Z_scope.

Definition prec : Z := 53.
Definition emax : Z := 1024.

Definition float : Type := spec_float.

Definition add : float → float → float := SFadd prec emax.
Definition sub : float → float → float := SFsub prec emax.
Definition mul : float → float → float := SFmul prec emax.
Definition div : float → float → float := SFdiv prec emax.

Declare Scope f64_scope.
Delimit Scope f64_scope with f64.
Infix "+" := add : f64_scope.
Infix "-" := sub : f64_scope.
Infix "*" := mul : f64_scope.
Infix "/" := div : f64_scope.

(** The double nearest to an integer: the integer itself up to [2^53]. *)
Definition of_Z (z : Z) : float := binary_normalize prec emax z 0 false.
Definition of_N (n : N) : float := of_Z (Z.of_N n).

(** The double a decimal literal stands for, [dec 3 10] for [0.3]: the
    correctly rounded quotient of two integers is the double nearest to the
    fraction. *)
Definition dec (n d : Z) : float := div (of_Z n) (of_Z d).

(** The number a finite double denotes, [(-1)^s * m * 2^e]. *)
Definition value (s : bool) (m : positive) (e : Z) : Q :=
  (inject_Z (cond_Zopp s (Zpos m)) * 2 ^ e)%Q.

(** [x < y]: the order of the numbers denoted; false when one of the two is
    NaN. *)
Definition ltb (x y : float) : bool :=
  match x, y with
  | S754_nan, _ | _, S754_nan => false
  | S754_infinity sx, S754_infinity sy => sx && negb sy
  | S754_infinity sx, _ => sx
  | _, S754_infinity sy => negb sy
  | S754_zero _, S754_zero _ => false
  | S754_zero _, S754_finite sy _ _ => negb sy
  | S754_finite sx _ _, S754_zero _ => sx
  | S754_finite sx mx ex, S754_finite sy my ey =>
      negb (Qle_bool (value sy my ey) (value sx mx ex))
  end.

Definition is_nan (x : float) : bool :=
  match x with S754_nan => true | _ => false end.

(** [x <= y]. *)
Definition leb (x y : float) : bool :=
  negb (is_nan x) && negb (is_nan y) && negb (ltb y x).

(** [Math.min] and [Math.max] of two numbers: NaN when one is NaN, and
    [-0] counts as smaller than [+0]. *)
Definition Math_min (x y : float) : float :=
  match x, y with
  | S754_nan, _ | _, S754_nan => S754_nan
  | S754_zero sx, S754_zero sy => S754_zero (sx || sy)
  | _, _ => if ltb y x then y else x
  end.

Definition Math_max (x y : float) : float :=
  match x, y with
  | S754_nan, _ | _, S754_nan => S754_nan
  | S754_zero sx, S754_zero sy => S754_zero (sx && sy)
  | _, _ => if ltb x y then y else x
  end.

(** [Math.round]: the integer nearest to [x], halves upwards, that is
    [floor (x + 1/2)] on the number denoted; [None] stands for NaN and the
    infinities. *)
Definition Math_round (x : float) : option Z :=
  match x with
  | S754_zero _ => Some 0
  | S754_finite s m e => Some (Qfloor (value s m e + (1 # 2))%Q)
  | _ => None
  end.

Definition is_finite (x : float) : bool :=
  match x with S754_zero _ | S754_finite _ _ _ => true | _ => false end.

(** Not NaN and with the sign bit clear: [+0], a positive number or
    [+Infinity]. *)
Definition nonneg (x : float) : bool :=
  match x with
  | S754_zero s | S754_finite s _ _ | S754_infinity s => negb s
  | S754_nan => false
  end.

(** [1 <= x] read off the representation: the leading bit of the mantissa
    stands at [2^0] or above. *)
Definition ge_one (x : float) : bool :=
  match x with
  | S754_finite false m e => 1 <=? Zdigits2 (Zpos m) + e
  | S754_infinity false => true
  | _ => false
  end.

(** A positive number that is not an infinity. *)
Definition positive_finite (x : float) : bool :=
  match x with S754_finite false _ _ => true | _ => false end.

(** The fields of a repository record the score reads.  [description] is
    the sequence of the UTF-16 code units of the text (its [length] is
    their number), or [None] for [null]; [topics] may be missing. *)
Record Metadata := mkMetadata {
  stargazers_count : N;
  forks_count : N;
  open_issues_count : N;
  updated_at : Z;
  description : option (list N);
  topics : option (list string)
}.

(** [qualityWeights]. *)
Definition stars_w : float := dec 3 10.
Definition forks_w : float := dec 2 10.
Definition updates_w : float := dec 2 10.
Definition documentation_w : float := dec 2 10.
Definition issues_w : float := dec 1 10.

Section Score.
(** [Math.log10]. *)
Variable log10 : float → float.

(** [calculateQualityScore]; [now] is what [Date.now()] returns. *)
Definition calculateQualityScore (now : Z) (repo : Metadata) : option Z :=
  let score := of_Z 0 in
  let starScore :=
    Math_min (log10 (of_N (stargazers_count repo) + of_Z 1) * of_Z 10)%f64
             (of_Z 30) in
  let score := (score + starScore * stars_w)%f64 in
  let forkScore :=
    Math_min (log10 (of_N (forks_count repo) + of_Z 1) * of_Z 10)%f64
             (of_Z 20) in
  let score := (score + forkScore * forks_w)%f64 in
  let daysSinceUpdate :=
    ((of_Z now - of_Z (updated_at repo))
     / (of_Z 1000 * of_Z 60 * of_Z 60 * of_Z 24))%f64 in
  let activityScore :=
    Math_max (of_Z 20 - daysSinceUpdate / of_Z 30)%f64 (of_Z 0) in
  let score := (score + activityScore * updates_w)%f64 in
  let hasReadme :=
    match description repo with
    | Some d => (50 <? length d)%nat
    | None => false
    end in
  let hasTopics :=
    match topics repo with
    | Some ts => (0 <? length ts)%nat
    | None => false
    end in
  let docScore :=
    ((if hasReadme then of_Z 15 else of_Z 0)
     + (if hasTopics then of_Z 5 else of_Z 0))%f64 in
  let score := (score + docScore * documentation_w)%f64 in
  let issueRatio :=
    (of_N (open_issues_count repo) / (of_N (stargazers_count repo) + of_Z 1))%f64 in
  let issueScore :=
    Math_max (of_Z 10 - issueRatio * of_Z 50)%f64 (of_Z 0) in
  let score := (score + issueScore * issues_w)%f64 in
  Math_round (Math_min score (of_Z 100)).
End Score.

(** The record of the search response as the score reads it; a character
    of the description is one code unit. *)
Definition of_raw (repo : RawRepo) : Metadata :=
  {| stargazers_count := raw_stargazers_count repo;
     forks_count := raw_forks_count repo;
     open_issues_count := raw_open_issues_count repo;
     updated_at := raw_updated_at repo;
     description :=
       option_map (λ d, map N_of_ascii (list_ascii_of_string d)) (raw_description repo);
     topics := raw_topics repo |}.

(** A stand-in for [Math.log10] to compute with: the integer part of the
    logarithm of a number from 1 on (0 below 1), exact at the powers of
    ten. *)
Fixpoint digits10 (fuel : nat) (n : Z) : Z :=
  match fuel with
  | O => 0
  | S fuel' => if n <? 10 then 0 else 1 + digits10 fuel' (n / 10)
  end.

Definition log10_floor (x : float) : float :=
  match x with
  | S754_finite false m e =>
      let n := Z.shiftl (Zpos m) e in
      of_Z (digits10 (Z.to_nat (Z.log2 n)) n)
  | S754_infinity false => x
  | S754_zero _ => S754_infinity true
  | _ => S754_nan
  end.

(** The safe integers and the time values of the language. *)
Definition safe_integer (n : N) : Prop := (n <= 9007199254740991)%N.
Definition time_value (t : Z) : Prop :=
  -8640000000000000 <= t <= 8640000000000000.

(** 9999 stars, 10 open issues, no description, no topics, last updated
    524.25 days before the call. *)
Definition halfway : Metadata :=
  {| stargazers_count := 9999;
     forks_count := 0;
     open_issues_count := 10;
     updated_at := 1700000000000 - 45295200000;
     description := None;
     topics := None |}.

End Binary64.

(** ** The formula of section 4.4 read on doubles

    The standard score as the specification writes it, in the arithmetic of
    the language, to compare [Binary64.calculateQualityScore] with. *)

Module Spec64.
Import Binary64.

Local Open Scope Z_scope.

Definition daysSinceUpdate (now : Z) (repo : Metadata) : float :=
  ((of_Z now - of_Z (updated_at repo)) / of_Z 86400000)%f64.

Definition descriptionLength (repo : Metadata) : nat :=
  match description repo with
  | Some d => length d
  | None => 0%nat
  end.

Definition hasTopics (repo : Metadata) : bool :=
  match topics repo with
  | Some (_ :: _) => true
  | _ => false
  end.

Definition standard_score (log10 : float → float)
    (stars forks openIssues : N) (days : float)
    (len : nat) (topical : bool) : option Z :=
  Math_round
    (Math_min
       (dec 3 10 * Math_min (log10 (of_N stars + of_Z 1) * of_Z 10) (of_Z 30)
        + dec 2 10 * Math_min (log10 (of_N forks + of_Z 1) * of_Z 10) (of_Z 20)
        + dec 2 10 * Math_max (of_Z 20 - days / of_Z 30) (of_Z 0)
        + dec 2 10 * ((if (50 <? len)%nat then of_Z 15 else of_Z 0)
                      + (if topical then of_Z 5 else of_Z 0))
        + dec 1 10
          * Math_max (of_Z 10 - (of_N openIssues / (of_N stars + of_Z 1)) * of_Z 50)
                     (of_Z 0))%f64
       (of_Z 100)).

End Spec64.

(** * Properties *)

(** ** The runtime functions *)

Module JSFacts.
Import JS.

Lemma str_of_N_inj a b : str_of_N a = str_of_N b → a = b.
Proof.
  unfold str_of_N. intros H.
  assert (Hn : ∀ n, N.to_uint n ≠ Nil).
  { intros [|p]; cbn; [discriminate|]. apply DecimalPos.Unsigned.to_uint_nonnil. }
  apply DecimalN.Unsigned.to_uint_inj.
  assert (E : Some (N.to_uint a) = Some (N.to_uint b)).
  { rewrite <- (NilZero.usu (N.to_uint a)), <- (NilZero.usu (N.to_uint b)) by auto.
    now rewrite H. }
  now injection E.
Qed.

(** [set_from] keeps exactly the elements not seen before, once each. *)
Lemma set_from_elem l : ∀ seen x,
  x ∈ set_from seen l ↔ x ∈ l ∧ x ∉ seen.
Proof.
  induction l as [|y l IH]; intros seen x; cbn.
  - split; [intros H; inversion H | intros [H _]; inversion H].
  - unfold arr_includes. case_bool_decide as Hy.
    + rewrite IH, elem_of_cons. split; [tauto|].
      intros [[->|H] Hx]; tauto.
    + rewrite !elem_of_cons, IH, not_elem_of_cons. split.
      * intros [->|(H & Hne & Hx)]; tauto.
      * intros [[->|H] Hx]; [tauto|].
        destruct (decide (x = y)); tauto.
Qed.

Lemma set_from_NoDup l : ∀ seen, NoDup (set_from seen l).
Proof.
  induction l as [|y l IH]; intros seen; cbn.
  - constructor.
  - unfold arr_includes. case_bool_decide as Hy; [apply IH|].
    constructor; [|apply IH].
    rewrite set_from_elem, not_elem_of_cons. tauto.
Qed.

Lemma uniq_elem l x : x ∈ uniq l ↔ x ∈ l.
Proof.
  unfold uniq. rewrite set_from_elem. split; [tauto|].
  intros H. split; [done|]. apply not_elem_of_nil.
Qed.

Lemma uniq_NoDup l : NoDup (uniq l).
Proof. apply set_from_NoDup. Qed.

(** Insertion sort along a total order. *)
Section SortFacts.
Context {A : Type} (le : A → A → bool).
Hypothesis le_total : ∀ x y, le x y = true ∨ le y x = true.
Hypothesis le_trans : ∀ x y z, le x y = true → le y z = true → le x z = true.
Hypothesis le_antisym : ∀ x y, le x y = true → le y x = true → x = y.

Lemma sort_insert_perm x l : Permutation (x :: l) (sort_insert le x l).
Proof.
  induction l as [|y l IH]; cbn; [done|].
  destruct (le x y); [done|].
  rewrite perm_swap. now constructor.
Qed.

Lemma sort_by_perm l : Permutation l (sort_by le l).
Proof.
  induction l as [|x l IH]; cbn; [done|].
  rewrite <- sort_insert_perm. now constructor.
Qed.

Lemma sort_insert_comm x y l :
  sort_insert le x (sort_insert le y l) = sort_insert le y (sort_insert le x l).
Proof.
  induction l as [|z l IH]; cbn.
  - destruct (le x y) eqn:Hxy, (le y x) eqn:Hyx; try done.
    + now rewrite (le_antisym x y).
    + destruct (le_total x y); congruence.
  - destruct (le x z) eqn:Hxz, (le y z) eqn:Hyz; cbn;
      rewrite ?Hxz, ?Hyz.
    + destruct (le x y) eqn:Hxy, (le y x) eqn:Hyx; try done.
      * now rewrite (le_antisym x y).
      * destruct (le_total x y); congruence.
    + destruct (le y x) eqn:Hyx; [|done].
      rewrite (le_trans y x z) in Hyz; done.
    + destruct (le x y) eqn:Hxy; [|done].
      rewrite (le_trans x y z) in Hxz; done.
    + now rewrite IH.
Qed.

Lemma sort_by_permutation l1 l2 :
  Permutation l1 l2 → sort_by le l1 = sort_by le l2.
Proof.
  unfold sort_by.
  induction 1 as [|x l1 l2 _ IH|x y l|l1 l2 l3 _ IH1 _ IH2]; cbn.
  - done.
  - now rewrite IH.
  - apply sort_insert_comm.
  - congruence.
Qed.

Lemma sort_insert_sorted x l :
  Sorted (λ a b, le a b = true) l →
  Sorted (λ a b, le a b = true) (sort_insert le x l).
Proof.
  induction 1 as [|y l Hs IH Hhd]; cbn.
  - repeat constructor.
  - destruct (le x y) eqn:Hxy.
    + repeat constructor; done.
    + constructor; [done|].
      destruct Hhd as [|z l Hyz]; cbn.
      * constructor. destruct (le_total x y); congruence.
      * destruct (le x z); constructor; [|done].
        destruct (le_total x y); congruence.
Qed.

Lemma sort_by_sorted l : Sorted (λ a b, le a b = true) (sort_by le l).
Proof.
  induction l as [|x l IH]; cbn; [constructor|].
  now apply sort_insert_sorted.
Qed.
End SortFacts.

(** The order of strings by code units. *)
Lemma string_compare_trans c : ∀ s1 s2 s3,
  String.compare s1 s2 = c → String.compare s2 s3 = c → String.compare s1 s3 = c.
Proof.
  induction s1 as [|a1 s1 IH]; intros [|a2 s2] [|a3 s3]; cbn; try congruence.
  unfold Ascii.compare.
  destruct (N.compare_spec (N_of_ascii a1) (N_of_ascii a2)) as [E12|L12|G12];
    destruct (N.compare_spec (N_of_ascii a2) (N_of_ascii a3)) as [E23|L23|G23];
    intros H1 H2; subst; try congruence.
  - rewrite E12, E23, N.compare_refl. now apply (IH s2).
  - rewrite E12. now apply N.compare_lt_iff in L23 as ->.
  - rewrite E12. apply N.compare_gt_iff in G23. now rewrite G23.
  - rewrite <- E23. now apply N.compare_lt_iff in L12 as ->.
  - assert (L : (N_of_ascii a1 < N_of_ascii a3)%N) by lia.
    now apply N.compare_lt_iff in L as ->.
  - rewrite <- E23. apply N.compare_gt_iff in G12. now rewrite G12.
  - assert (L : (N_of_ascii a3 < N_of_ascii a1)%N) by lia.
    apply N.compare_gt_iff in L. now rewrite L.
Qed.

Lemma string_leb_trans s1 s2 s3 :
  String.leb s1 s2 = true → String.leb s2 s3 = true → String.leb s1 s3 = true.
Proof.
  unfold String.leb.
  destruct (String.compare s1 s2) eqn:H12; [| |done];
    destruct (String.compare s2 s3) eqn:H23; try done; intros _ _.
  - apply String.compare_eq_iff in H12 as ->. now rewrite H23.
  - apply String.compare_eq_iff in H12 as ->. now rewrite H23.
  - apply String.compare_eq_iff in H23 as <-. now rewrite H12.
  - now rewrite (string_compare_trans Lt s1 s2 s3).
Qed.

Lemma default_sort_permutation l1 l2 :
  Permutation l1 l2 → default_sort l1 = default_sort l2.
Proof.
  apply sort_by_permutation.
  - intros x y. apply String.leb_total.
  - intros x y z. apply string_leb_trans.
  - intros x y H1 H2. apply str_of_N_inj. now apply String.leb_antisym.
Qed.

Example default_sort_by_decimal_form :
  default_sort [10; 9; 100; 1; 2]%N = [1; 10; 100; 2; 9]%N.
Proof. reflexivity. Qed.

Example iso_date_epoch : Num.iso_date 0 = "1970-01-01".
Proof. reflexivity. Qed.

Example iso_date_before_epoch : Num.iso_date (-1) = "1969-12-31".
Proof. reflexivity. Qed.

Example iso_date_leap_day : Num.iso_date 1709164800000 = "2024-02-29".
Proof. reflexivity. Qed.

Example iso_date_sample : Num.iso_date 1700000000000 = "2023-11-14".
Proof. reflexivity. Qed.

End JSFacts.

(** ** The project combinator *)

Module CombinatorFacts.
Import JS JSFacts Combinator Samples.

(** Counting a list of one framework gives one entry. *)
Lemma bump_same fw fws : ∀ n,
  Forall (λ f, f = fw) fws →
  fold_left bump fws [(fw, n)] = [(fw, (n + N.of_nat (length fws))%N)].
Proof.
  induction fws as [|f fws IH]; intros n Hall; cbn [fold_left length].
  - now rewrite N.add_0_r.
  - apply Forall_cons in Hall as [-> Hall'].
    assert (E : bump [(fw, n)] fw = [(fw, (n + 1)%N)]).
    { unfold bump; cbn. now rewrite String.eqb_refl. }
    rewrite E, IH by done. do 2 f_equal. lia.
Qed.

Lemma findDominantFramework_same fw fws :
  fw ≠ "" → fws ≠ [] → Forall (λ f, f = fw) fws →
  findDominantFramework fws = fw.
Proof.
  intros Hfw Hne Hall. destruct fws as [|f fws]; [done|].
  apply Forall_cons in Hall as [-> Hall'].
  unfold findDominantFramework; cbn [fold_left].
  assert (E : bump [] fw = [(fw, 1%N)]) by done.
  rewrite E, bump_same by done. cbn.
  unfold truthy. destruct (String.eqb_spec fw ""); done.
Qed.

Lemma analysed_frameworks fw rs :
  Forall (λ r, detectFramework r = fw) rs →
  Forall (λ f, f = fw) (map framework (map analyzeRepository rs)).
Proof. induction 1; cbn; constructor; done. Qed.

Lemma detected_dependencies r :
  detectFramework r = "nextjs" →
  "next" ∈ extractDependencies r ∧ "react" ∈ extractDependencies r
  ∧ "react-dom" ∈ extractDependencies r.
Proof.
  intros H. unfold extractDependencies. rewrite H. cbn [framework_deps String.eqb].
  rewrite !uniq_elem. cbn.
  repeat split; rewrite !elem_of_cons; tauto.
Qed.

Lemma resolveDependencies_elem x a analyses :
  a ∈ analyses → x ∈ an_dependencies a → x ∈ resolveDependencies analyses.
Proof.
  intros Ha Hx. unfold resolveDependencies. rewrite uniq_elem.
  apply list_elem_of_In, in_flat_map. exists a.
  split; now apply list_elem_of_In.
Qed.

(** C5.  Without a target framework, two or more repositories that are
    all detected as nextjs give the merge strategy the target framework
    nextjs, and the resulting dependency list holds next, react and
    react-dom and no entry twice. *)
Theorem combine_all_nextjs (now : Z) (request : CombinationRequest) (st : State) :
  targetFramework request = None →
  (2 ≤ length (repositories request))%nat →
  Forall (λ r, detectFramework r = "nextjs") (repositories request) →
  strategy_targetFramework (mergeStrategyOf request) = "nextjs"
  ∧ "next" ∈ dependencies (combineProjects now request st).1
  ∧ "react" ∈ dependencies (combineProjects now request st).1
  ∧ "react-dom" ∈ dependencies (combineProjects now request st).1
  ∧ NoDup (dependencies (combineProjects now request st).1).
Proof.
  intros Htarget Hlen Hall.
  destruct (repositories request) as [|r rs] eqn:Hrepos; [cbn in Hlen; lia|].
  assert (Hr : detectFramework r = "nextjs") by now inversion Hall.
  destruct (detected_dependencies r Hr) as (H1 & H2 & H3).
  split.
  - unfold mergeStrategyOf, determineMergeStrategy; cbn.
    rewrite Htarget, Hrepos; cbn.
    apply findDominantFramework_same; [done|done|].
    apply (analysed_frameworks "nextjs" (r :: rs) Hall).
  - unfold combineProjects; cbn. rewrite Hrepos; cbn [map].
    repeat split;
      try (apply (resolveDependencies_elem _ (analyzeRepository r));
           [apply elem_of_cons; now left | done]).
    apply uniq_NoDup.
Qed.

Lemma combine_all_nextjs_witness :
  strategy_targetFramework (mergeStrategyOf shop_and_blog) = "nextjs"
  ∧ "next" ∈ dependencies (combineProjects 1700000000000 shop_and_blog ∅).1
  ∧ "react" ∈ dependencies (combineProjects 1700000000000 shop_and_blog ∅).1
  ∧ "react-dom" ∈ dependencies (combineProjects 1700000000000 shop_and_blog ∅).1
  ∧ NoDup (dependencies (combineProjects 1700000000000 shop_and_blog ∅).1).
Proof.
  apply (combine_all_nextjs 1700000000000 shop_and_blog ∅).
  - reflexivity.
  - cbn. lia.
  - repeat constructor.
Defined.

Example dominant_tie_first_seen :
  findDominantFramework ["react"; "vue"; "vue"; "react"; "express"] = "react".
Proof. reflexivity. Qed.

Example dominant_of_none : findDominantFramework [] = "react".
Proof. reflexivity. Qed.

(** Against C7 as stated.  The ids 9 and 10 come out as 10 before 9: the
    parameterless [sort] compares the decimal forms, and the id of the
    combination is not the one with the ids in numeric order. *)
Lemma combination_id_not_numeric :
  res_id (combineProjects 1700000000000 shop_and_blog ∅).1
  ≠ "combo-" +:+ str_of_Z 1700000000000 +:+ "-" +:+ Spec.numeric_component shop_and_blog.
Proof. vm_compute. discriminate. Qed.

(** C7, amended.  Two calls with the same request give the same
    dependencies and the same scripts whatever the instants and the
    stored combinations, and ids that differ in the timestamp only.  The
    repository part of the id is the ids in the order of their decimal
    forms (a permutation of the ids, sorted by [String.leb]), joined
    with "-" and cut to 20 characters; a request with the same
    repositories in another order has the same part. *)
Theorem combine_repeatable (t1 t2 : Z) (request request' : CombinationRequest)
    (st1 st2 : State) :
  Permutation (repositories request) (repositories request') →
  let r1 := (combineProjects t1 request st1).1 in
  let r2 := (combineProjects t2 request st2).1 in
  let ids := map id (repositories request) in
  let part := slice0 20 (join "-" (map str_of_N (default_sort ids))) in
  dependencies r1 = dependencies r2
  ∧ scripts r1 = scripts r2
  ∧ res_id r1 = "combo-" +:+ str_of_Z t1 +:+ "-" +:+ part
  ∧ res_id r2 = "combo-" +:+ str_of_Z t2 +:+ "-" +:+ part
  ∧ Permutation ids (default_sort ids)
  ∧ Sorted (λ a b, str_le a b = true) (default_sort ids)
  ∧ slice0 20 (repoIds request') = part.
Proof.
  intros Hperm r1 r2 ids part.
  repeat split.
  - apply sort_by_perm.
  - apply (sort_by_sorted str_le). intros x y. apply String.leb_total.
  - unfold part, ids, repoIds.
    rewrite (default_sort_permutation (map id (repositories request'))
                                      (map id (repositories request))); [done|].
    now apply Permutation_map, Permutation_sym.
Qed.

Lemma combine_repeatable_witness :
  let r1 := (combineProjects 1700000000000 shop_and_blog ∅).1 in
  let r2 := (combineProjects 1700000360000 shop_and_blog ∅).1 in
  dependencies r1 = dependencies r2
  ∧ scripts r1 = scripts r2
  ∧ res_id r1 = "combo-1700000000000-10-9"
  ∧ res_id r2 = "combo-1700000360000-10-9"
  ∧ Permutation [10; 9]%N (default_sort [10; 9]%N)
  ∧ Sorted (λ a b, str_le a b = true) (default_sort [10; 9]%N)
  ∧ slice0 20 (repoIds blog_and_shop) = "10-9".
Proof.
  apply (combine_repeatable 1700000000000 1700000360000
           shop_and_blog blog_and_shop ∅ ∅).
  apply perm_swap.
Defined.

End CombinatorFacts.

(** ** The exclusion list of the search engine *)

Module ExclusionFacts.
Import JS SearchEngine.

Lemma deref_insert_eq e ref v :
  (ref < length (heap e))%nat →
  default [] (<[ref := v]> (heap e) !! ref) = v.
Proof. intros H. now rewrite list_lookup_insert_eq. Qed.

Lemma current_add u w :
  wf w →
  current (step w (Add u)) = if arr_includes (current w) u then current w
                             else current w ++ [u].
Proof.
  intros [Hlt _]. unfold current, step, addToExclusionList; cbn.
  destruct (arr_includes _ u) eqn:E; [done|].
  unfold deref; cbn. now rewrite list_lookup_insert_eq.
Qed.

Lemma current_remove u w :
  current (step w (Remove u)) = filter (λ user, user ≠ u) (current w).
Proof.
  unfold current, step, removeFromExclusionList, deref; cbn.
  now rewrite lookup_app_r, Nat.sub_diag by lia.
Qed.

Lemma current_get w : wf w → current (step w Get) = current w.
Proof.
  intros [Hlt _]. unfold current, step, getExclusionList, deref; cbn.
  now rewrite lookup_app_l.
Qed.

Lemma current_mutate k v w : wf w → current (step w (Mutate k v)) = current w.
Proof.
  intros [Hlt Hh]. unfold current, step.
  destruct (handles w !! k) as [ref|] eqn:E; [|done].
  unfold array_write, deref; cbn.
  rewrite Forall_forall in Hh.
  destruct (Hh ref) as [_ Hne]; [eapply list_elem_of_lookup_2; eassumption|].
  now rewrite list_lookup_insert_ne.
Qed.

Lemma wf_step w op : wf w → wf (step w op).
Proof.
  intros [Hlt Hh]. destruct op as [u|u| |k v]; unfold wf, step.
  - unfold addToExclusionList. destruct (arr_includes _ u); cbn; [done|].
    rewrite length_insert. done.
  - cbn. rewrite length_app; cbn. split; [lia|].
    eapply Forall_impl; [exact Hh|]. cbn. intros h [H1 H2]. lia.
  - cbn. rewrite length_app; cbn. split; [lia|].
    apply Forall_app. split.
    + eapply Forall_impl; [exact Hh|]. cbn. intros h [H1 H2]. lia.
    + repeat constructor; lia.
  - destruct (handles w !! k) as [ref|]; cbn; [|done].
    rewrite length_insert. done.
Qed.

Lemma NoDup_step w op : wf w → NoDup (current w) → NoDup (current (step w op)).
Proof.
  intros Hwf Hnd. destruct op as [u|u| |k v].
  - rewrite current_add by done. unfold arr_includes.
    case_bool_decide as Hu; [done|].
    apply NoDup_app. repeat split; [done| |apply NoDup_singleton].
    intros x Hx Hx'. apply list_elem_of_singleton in Hx' as ->. done.
  - rewrite current_remove. now apply NoDup_filter.
  - now rewrite current_get.
  - now rewrite current_mutate.
Qed.

Lemma run_cons w op ops : run w (op :: ops) = run (step w op) ops.
Proof. reflexivity. Qed.

(** Two worlds with the same list stay so when the first runs all the
    operations and the second only the calls on the engine. *)
Lemma run_calls_only ops : ∀ w w',
  wf w → wf w' → current w = current w' →
  current (run w ops) = current (run w' (List.filter is_call ops)).
Proof.
  induction ops as [|op ops IH]; intros w w' Hw Hw' Hc; [done|].
  destruct op as [u|u| |k v]; cbn [List.filter is_call]; rewrite ?run_cons.
  - apply IH; try now apply wf_step.
    rewrite !current_add by done. now rewrite Hc.
  - apply IH; try now apply wf_step.
    rewrite !current_remove. now rewrite Hc.
  - apply IH; try now apply wf_step.
    rewrite !current_get by done. done.
  - apply IH; try done; [now apply wf_step|].
    rewrite current_mutate by done. done.
Qed.

Lemma run_wf ops : ∀ w, wf w → wf (run w ops).
Proof.
  induction ops as [|op ops IH]; intros w Hw; [done|].
  rewrite run_cons. apply IH. now apply wf_step.
Qed.

Lemma run_NoDup ops : ∀ w, wf w → NoDup (current w) → NoDup (current (run w ops)).
Proof.
  induction ops as [|op ops IH]; intros w Hw Hnd; [done|].
  rewrite run_cons. apply IH; [now apply wf_step | now apply NoDup_step].
Qed.

(** The query only reads the array the field refers to. *)
Lemma buildSmartQuery_current e e' query filters :
  deref e (exclusionList e) = deref e' (exclusionList e') →
  buildSmartQuery e query filters = buildSmartQuery e' query filters.
Proof. intros H. unfold buildSmartQuery. now rewrite H. Qed.

Lemma boot_wf : wf boot.
Proof. split; cbn; [lia | constructor]. Qed.

(** C10.  After any sequence of calls of [addToExclusionList],
    [removeFromExclusionList] and [getExclusionList], mixed with any
    mutations of the arrays [getExclusionList] returned, the exclusion
    list has no duplicate; adding a name it holds changes nothing; the
    list, and so every query built, is what the calls alone would have
    produced; and [getExclusionList] returns a new array with the same
    names, writing to which changes neither the list nor the queries. *)
Theorem exclusion_list_sound (ops : list Op) :
  let w := run boot ops in
  NoDup (current w)
  ∧ (∀ u, u ∈ current w → addToExclusionList u (engine w) = engine w)
  ∧ current w = current (run boot (List.filter is_call ops))
  ∧ (∀ query filters,
       buildSmartQuery (engine w) query filters
       = buildSmartQuery (engine (run boot (List.filter is_call ops))) query filters)
  ∧ (∀ v query filters,
       let '(ref, e') := getExclusionList (engine w) in
       ref ≠ exclusionList e'
       ∧ deref e' ref = current w
       ∧ deref (array_write ref v e') (exclusionList e') = current w
       ∧ buildSmartQuery (array_write ref v e') query filters
         = buildSmartQuery (engine w) query filters).
Proof.
  intros w.
  assert (Hwf : wf w) by apply run_wf, boot_wf.
  assert (Hc : current w = current (run boot (List.filter is_call ops))).
  { apply run_calls_only; auto using boot_wf. }
  split; [|split; [|split; [|split]]].
  - apply run_NoDup; [apply boot_wf|]. cbn. apply NoDup_singleton.
  - intros u Hu. unfold addToExclusionList, arr_includes.
    fold (current w). now rewrite bool_decide_eq_true_2.
  - exact Hc.
  - intros query filters. now apply buildSmartQuery_current.
  - intros v query filters. destruct Hwf as [Hlt _].
    unfold getExclusionList; cbn.
    assert (Hd : deref (array_write (length (heap (engine w))) v
                 {| heap := heap (engine w) ++ [current w];
                    exclusionList := exclusionList (engine w) |})
                 (exclusionList (engine w)) = current w).
    { unfold array_write, deref; cbn.
      rewrite list_lookup_insert_ne by lia. now rewrite lookup_app_l. }
    split; [lia|]. split; [|split].
    + unfold deref; cbn. now rewrite lookup_app_r, Nat.sub_diag by lia.
    + exact Hd.
    + exact (buildSmartQuery_current _ (engine w) query filters Hd).
Qed.

Example exclusion_run_sample :
  run boot [Add "bob"; Get; Mutate 0 ["x"; "x"]; Add "Gzeu"; Remove "Gzeu";
            Get; Add "amy"]
  = {| engine := {| heap := [["Gzeu"; "bob"]; ["x"; "x"]; ["bob"; "amy"]; ["bob"]];
                    exclusionList := 2 |};
       handles := [1; 3]%nat |}.
Proof. reflexivity. Qed.

End ExclusionFacts.

(** ** The quality scores in exact arithmetic *)

Module ScoreFacts.
Import SearchEngine.

Local Open Scope R_scope.

Lemma ofN_nonneg n : 0 <= Num.ofN n.
Proof. unfold Num.ofN. apply IZR_le. lia. Qed.

Lemma ln10_pos : 0 < ln 10.
Proof. rewrite <- ln_1. apply ln_increasing; lra. Qed.

Lemma log10_count n :
  Num.log10 (Num.ofN n + 1) = Some (Spec.log10 (Num.ofN n + 1))
  ∧ 0 <= Spec.log10 (Num.ofN n + 1).
Proof.
  pose proof (ofN_nonneg n) as Hn. pose proof ln10_pos as H10.
  unfold Num.log10, Spec.log10.
  destruct (Rlt_dec 0 (Num.ofN n + 1)) as [_|Hneg]; [|lra].
  split; [done|].
  apply Rmult_le_pos; [|left; now apply Rinv_0_lt_compat].
  destruct (Req_dec (Num.ofN n) 0) as [->|Hz].
  - rewrite Rplus_0_l, ln_1. lra.
  - left. rewrite <- ln_1. apply ln_increasing; lra.
Qed.

Lemma fdiv_count a n : Num.fdiv a (Num.ofN n + 1) = Some (a / (Num.ofN n + 1)).
Proof.
  pose proof (ofN_nonneg n) as Hn. unfold Num.fdiv.
  destruct (Req_dec_T (Num.ofN n + 1) 0); [lra|done].
Qed.

Lemma round_bounds (lo hi : Z) x :
  IZR lo <= x <= IZR hi → (lo <= Num.round x <= hi)%Z.
Proof.
  intros [Hlo Hhi]. unfold Num.round.
  destruct (base_Int_part (x + / 2)) as [H1 H2].
  split.
  - assert (H : IZR lo - 1 < IZR (Int_part (x + / 2))) by lra.
    rewrite <- minus_IZR in H. apply lt_IZR in H. lia.
  - assert (H : IZR (Int_part (x + / 2)) < IZR hi + 1) by lra.
    rewrite <- plus_IZR in H. apply lt_IZR in H. lia.
Qed.

Lemma round_integer (z : Z) : Num.round (IZR z) = z.
Proof.
  unfold Num.round. symmetry. apply Int_part_spec. lra.
Qed.

Lemma standard_score_formula (now : Z) (repo : RawRepo) :
  calculateQualityScore now repo
  = Some (Spec.standard_score
            (raw_stargazers_count repo) (raw_forks_count repo)
            (raw_open_issues_count repo) (Spec.daysSinceUpdate now repo)
            (Spec.descriptionLength repo) (Spec.hasTopics repo)).
Proof.
  destruct (log10_count (raw_stargazers_count repo)) as [Hs _].
  destruct (log10_count (raw_forks_count repo)) as [Hf _].
  unfold calculateQualityScore.
  rewrite Hs; cbn [mbind option_bind]. rewrite Hf; cbn [mbind option_bind].
  rewrite fdiv_count; cbn [mbind option_bind].
  unfold Spec.standard_score, Spec.daysSinceUpdate, Spec.descriptionLength,
    Spec.hasTopics, stars_w, forks_w, updates_w, documentation_w, issues_w.
  do 3 f_equal.
  assert (Hd : (match raw_description repo with
                | Some d => (50 <? String.length d)%nat
                | None => false
                end)
               = (50 <? match raw_description repo with
                        | Some d => String.length d
                        | None => 0%nat
                        end)%nat).
  { now destruct (raw_description repo). }
  assert (Ht : (match raw_topics repo with
                | Some ts => (0 <? length ts)%nat
                | None => false
                end)
               = match raw_topics repo with
                 | Some (_ :: _) => true
                 | _ => false
                 end).
  { now destruct (raw_topics repo) as [[|]|]. }
  rewrite Hd, Ht. lra.
Qed.


(** With no stars, forks or open issues the popularity sub-scores are 0
    and the issue sub-score is 10. *)
Lemma standard_score_zero_counts (now : Z) (repo : RawRepo) :
  raw_stargazers_count repo = 0%N → raw_forks_count repo = 0%N →
  raw_open_issues_count repo = 0%N →
  calculateQualityScore now repo
  = Some (Num.round
            (Rmin (0.2 * Rmax (20 - Spec.daysSinceUpdate now repo / 30) 0
                   + 0.2 * ((if (50 <? Spec.descriptionLength repo)%nat
                             then 15 else 0)
                            + (if Spec.hasTopics repo then 5 else 0))
                   + 1)
                  100)).
Proof.
  intros Hs Hf Hi. rewrite standard_score_formula.
  rewrite Hs, Hf, Hi. unfold Spec.standard_score.
  change (Num.ofN 0) with 0.
  assert (Hlog : Spec.log10 (0 + 1) = 0).
  { unfold Spec.log10. rewrite Rplus_0_l, ln_1. lra. }
  rewrite Hlog.
  rewrite (Rmin_left (0 * 10) 30), (Rmin_left (0 * 10) 20) by lra.
  rewrite (Rmax_left (10 - 0 / (0 + 1) * 50) 0) by lra.
  do 3 f_equal. lra.
Qed.

End ScoreFacts.

(** ** The standard score on doubles *)

Module Binary64Facts.
Import Binary64 Spec64.
Local Open Scope Z_scope.

(** *** Digits and magnitudes *)

Lemma digits2_size p : digits2_pos p = Pos.size p.
Proof. induction p; cbn; congruence. Qed.

Lemma Zdigits2_log2 z : 0 < z → Zdigits2 z = Z.log2 z + 1.
Proof.
  destruct z as [|p|p]; [lia| |lia]. intros _. cbn. rewrite digits2_size.
  destruct p; cbn; lia.
Qed.

Lemma Zdigits2_pos z : 0 < z → 0 < Zdigits2 z.
Proof. intros H. rewrite Zdigits2_log2 by done. pose proof (Z.log2_nonneg z). lia. Qed.

Lemma Zdigits2_mono a b : 0 < a → a <= b → Zdigits2 a <= Zdigits2 b.
Proof.
  intros Ha Hab. rewrite !Zdigits2_log2 by lia.
  pose proof (Z.log2_le_mono a b Hab). lia.
Qed.

Lemma Zdigits2_succ a : 0 < a → Zdigits2 (a + 1) <= Zdigits2 a + 1.
Proof.
  intros Ha. rewrite !Zdigits2_log2 by lia.
  pose proof (Z.log2_succ_le a). unfold Z.succ in *. lia.
Qed.

Lemma shr_1_m mrs : 0 <= shr_m mrs → shr_m (shr_1 mrs) = Z.div2 (shr_m mrs).
Proof. destruct mrs as [[|[p|p|]|p] r s]; cbn; intros; (lia || reflexivity). Qed.

Lemma iter_shr_m p : ∀ mrs,
  0 <= shr_m mrs → shr_m (SpecFloat.iter_pos shr_1 p mrs) = Z.shiftr (shr_m mrs) (Zpos p).
Proof.
  induction p as [p IH|p IH|]; intros mrs H; cbn [SpecFloat.iter_pos].
  - assert (H1 : 0 <= shr_m (shr_1 mrs)).
    { rewrite shr_1_m by done. rewrite Z.div2_nonneg. done. }
    assert (H2 : 0 <= shr_m (SpecFloat.iter_pos shr_1 p (shr_1 mrs))).
    { rewrite IH by done. now apply Z.shiftr_nonneg. }
    rewrite IH, IH, shr_1_m by done.
    rewrite Z.div2_spec, !Z.shiftr_shiftr by lia. f_equal. lia.
  - assert (H2 : 0 <= shr_m (SpecFloat.iter_pos shr_1 p mrs)).
    { rewrite IH by done. now apply Z.shiftr_nonneg. }
    rewrite IH, IH by done. rewrite Z.shiftr_shiftr by lia. f_equal. lia.
  - rewrite shr_1_m by done. now rewrite Z.div2_spec.
Qed.

Lemma shr_record_m m l : shr_m (shr_record_of_loc m l) = m.
Proof. now destruct l as [|[]]. Qed.

Lemma shr_fexp_nonneg m e l :
  0 <= m → 0 <= shr_m (shr_fexp prec emax m e l).1.
Proof.
  intros Hm. unfold shr_fexp, shr.
  destruct (fexp prec emax (Zdigits2 m + e) - e) as [|p|p]; cbn [fst];
    rewrite ?iter_shr_m, ?shr_record_m; rewrite ?shr_record_m;
    try apply Z.shiftr_nonneg; done.
Qed.

Lemma round_nearest_even_bounds m l :
  m <= round_nearest_even m l <= m + 1.
Proof. destruct l as [|[]]; cbn; try destruct (Z.even m); lia. Qed.

(** Rounding keeps the sign and never makes a NaN. *)
Lemma round_aux_sign s m e l :
  0 <= m →
  match binary_round_aux prec emax s m e l with
  | S754_zero s' | S754_infinity s' | S754_finite s' _ _ => s' = s
  | S754_nan => False
  end.
Proof.
  intros Hm. unfold binary_round_aux.
  pose proof (shr_fexp_nonneg m e l Hm) as H1.
  destruct (shr_fexp prec emax m e l) as [mrs' e'].
  pose proof (round_nearest_even_bounds (shr_m mrs') (loc_of_shr_record mrs')) as Hr.
  cbn [fst] in H1.
  pose proof (shr_fexp_nonneg
                (round_nearest_even (shr_m mrs') (loc_of_shr_record mrs')) e'
                loc_Exact ltac:(lia)) as H2.
  destruct (shr_fexp prec emax _ e' loc_Exact) as [mrs'' e''].
  cbn [fst] in H2.
  destruct (shr_m mrs'') as [|p|p]; [done| |lia].
  now destruct (e'' <=? emax - prec).
Qed.

Lemma shr_fexp_mag m e l :
  0 < m → emin prec emax < Zdigits2 m + e →
  0 < shr_m (shr_fexp prec emax m e l).1
  ∧ Zdigits2 (shr_m (shr_fexp prec emax m e l).1) + (shr_fexp prec emax m e l).2
    = Zdigits2 m + e
  ∧ (shr_fexp prec emax m e l).2 = Z.max e (fexp prec emax (Zdigits2 m + e)).
Proof.
  intros Hm Hmag. unfold shr_fexp, shr.
  pose proof (Zdigits2_log2 m Hm) as Hd.
  assert (Hf : fexp prec emax (Zdigits2 m + e) - e < Zdigits2 m).
  { unfold fexp, prec in *. lia. }
  destruct (fexp prec emax (Zdigits2 m + e) - e) as [|p|p] eqn:E; cbn [fst snd];
    rewrite ?shr_record_m; [repeat split; lia| |repeat split; lia].
  rewrite iter_shr_m by (rewrite shr_record_m; lia). rewrite shr_record_m.
  assert (Hpos : 0 < Z.shiftr m (Zpos p)).
  { pose proof (Z.shiftr_nonneg m (Zpos p)) as [_ Hn].
    specialize (Hn ltac:(lia)).
    destruct (Z.eq_dec (Z.shiftr m (Zpos p)) 0) as [Hz|]; [|lia].
    apply Z.shiftr_eq_0_iff in Hz. lia. }
  split; [done|]. split; [|lia].
  rewrite Zdigits2_log2 by done. rewrite Z.log2_shiftr by done. lia.
Qed.

(** Rounding a number of magnitude above the smallest exponent gives a
    number of at least that magnitude, or an infinity when it is too
    large. *)
Lemma round_aux_mag s m e l :
  0 < m → emin prec emax < Zdigits2 m + e →
  (∃ m' e', binary_round_aux prec emax s m e l = S754_finite s m' e'
            ∧ Zdigits2 m + e <= Zdigits2 (Zpos m') + e')
  ∨ (binary_round_aux prec emax s m e l = S754_infinity s
     ∧ (emax - prec < e ∨ emax <= Zdigits2 m + e)).
Proof.
  intros Hm Hmag. unfold binary_round_aux.
  destruct (shr_fexp_mag m e l Hm Hmag) as (H1 & H2 & H3).
  destruct (shr_fexp prec emax m e l) as [mrs' e']. cbn [fst snd] in *.
  pose proof (round_nearest_even_bounds (shr_m mrs') (loc_of_shr_record mrs')) as Hr.
  set (m2 := round_nearest_even (shr_m mrs') (loc_of_shr_record mrs')) in *.
  assert (Hd2 : Zdigits2 (shr_m mrs') <= Zdigits2 m2 <= Zdigits2 (shr_m mrs') + 1).
  { split; [apply Zdigits2_mono; lia|].
    destruct (Z.eq_dec m2 (shr_m mrs')) as [->|]; [lia|].
    replace m2 with (shr_m mrs' + 1) by lia. now apply Zdigits2_succ. }
  destruct (shr_fexp_mag m2 e' loc_Exact ltac:(lia) ltac:(lia)) as (G1 & G2 & G3).
  destruct (shr_fexp prec emax m2 e' loc_Exact) as [mrs'' e'']. cbn [fst snd] in *.
  destruct (shr_m mrs'') as [|p|p] eqn:Ep; [lia| |lia].
  destruct (Z.leb_spec e'' (emax - prec)); [left|right].
  - exists p, e''. split; [done|]. lia.
  - split; [done|]. unfold fexp, emin, emax, prec in *. lia.
Qed.

(** *** Normalisation *)

Lemma shl_align_spec m e e' :
  Zpos (shl_align m e e').1 = Zpos m * 2 ^ (e - (shl_align m e e').2)
  ∧ (shl_align m e e').2 = Z.min e e'.
Proof.
  unfold shl_align. destruct (e' - e) as [|d|d] eqn:E; cbn [fst snd].
  - replace (e - e) with 0 by lia. split; lia.
  - replace (e - e) with 0 by lia. split; lia.
  - split; [|lia]. replace (e - e') with (Zpos d) by lia.
    change (Pos.iter xO m d) with (shift_pos d m).
    rewrite shift_pos_correct, Z.pow_pos_fold. lia.
Qed.

Lemma shl_align_mag m e e' :
  Zdigits2 (Zpos (shl_align m e e').1) + (shl_align m e e').2
  = Zdigits2 (Zpos m) + e.
Proof.
  destruct (shl_align_spec m e e') as [H1 H2].
  rewrite H1. rewrite !Zdigits2_log2 by lia.
  rewrite Z.log2_mul_pow2 by lia. lia.
Qed.

Lemma binary_round_sign s m e :
  match binary_round prec emax s m e with
  | S754_zero s' | S754_infinity s' | S754_finite s' _ _ => s' = s
  | S754_nan => False
  end.
Proof.
  unfold binary_round.
  destruct (shl_align m e _) as [mz ez]. now apply round_aux_sign.
Qed.

Lemma binary_round_mag s m e :
  emin prec emax < Zdigits2 (Zpos m) + e →
  (∃ m' e', binary_round prec emax s m e = S754_finite s m' e'
            ∧ Zdigits2 (Zpos m) + e <= Zdigits2 (Zpos m') + e')
  ∨ (binary_round prec emax s m e = S754_infinity s
     ∧ (emax - prec < e ∨ emax <= Zdigits2 (Zpos m) + e)).
Proof.
  intros Hmag. unfold binary_round.
  pose proof (shl_align_mag m e (fexp prec emax (Zpos (digits2_pos m) + e))) as Ha.
  destruct (shl_align_spec m e (fexp prec emax (Zpos (digits2_pos m) + e))) as [_ Hb].
  destruct (shl_align m e _) as [mz ez]. cbn [fst snd] in *.
  destruct (round_aux_mag s (Zpos mz) ez loc_Exact ltac:(lia) ltac:(lia))
    as [(m' & e' & -> & H)|[-> H]]; [left|right].
  - exists m', e'. split; [done|lia].
  - split; [done|lia].
Qed.

Lemma of_Z_not_nan z : is_nan (of_Z z) = false.
Proof.
  unfold of_Z, binary_normalize. destruct z as [|p|p]; [done| |].
  - pose proof (binary_round_sign false p 0). now destruct (binary_round _ _ _ _ _).
  - pose proof (binary_round_sign true p 0). now destruct (binary_round _ _ _ _ _).
Qed.

Lemma of_Z_nonneg z : 0 <= z → nonneg (of_Z z) = true.
Proof.
  unfold of_Z, binary_normalize. destruct z as [|p|p]; [done| |lia]. intros _.
  pose proof (binary_round_sign false p 0).
  destruct (binary_round _ _ _ _ _); cbn; subst; done.
Qed.

Lemma of_Z_ge_one z : 0 < z → ge_one (of_Z z) = true.
Proof.
  unfold of_Z, binary_normalize. destruct z as [|p|p]; [lia| |lia]. intros _.
  pose proof (Zdigits2_pos (Zpos p) ltac:(lia)) as Hd.
  destruct (binary_round_mag false p 0) as [(m' & e' & -> & H)|[-> _]];
    [unfold emin, emax, prec; lia| |done].
  unfold ge_one. apply Z.leb_le. lia.
Qed.

(** The integers up to [2^53] in absolute value are finite doubles. *)
Lemma of_Z_finite z : Z.abs z < 2 ^ 53 → is_finite (of_Z z) = true.
Proof.
  intros Hz. unfold of_Z, binary_normalize. destruct z as [|p|p]; [done| |].
  - assert (Hd : Zdigits2 (Zpos p) <= 53).
    { rewrite Zdigits2_log2 by lia.
      pose proof (proj1 (Z.log2_lt_pow2 (Zpos p) 53 ltac:(lia)) ltac:(lia)). lia. }
    pose proof (Zdigits2_pos (Zpos p) ltac:(lia)) as Hd0.
    destruct (binary_round_mag false p 0) as [(m' & e' & -> & H)|[_ H]];
      [unfold emin, emax, prec; lia|done|unfold emax, prec in H; lia].
  - assert (Hd : Zdigits2 (Zpos p) <= 53).
    { rewrite Zdigits2_log2 by lia.
      pose proof (proj1 (Z.log2_lt_pow2 (Zpos p) 53 ltac:(lia)) ltac:(lia)). lia. }
    pose proof (Zdigits2_pos (Zpos p) ltac:(lia)) as Hd0.
    destruct (binary_round_mag true p 0) as [(m' & e' & -> & H)|[_ H]];
      [unfold emin, emax, prec; lia|done|unfold emax, prec in H; lia].
Qed.

Lemma of_N_cases n : of_N n = S754_zero false ∨ ge_one (of_N n) = true.
Proof.
  unfold of_N. destruct n as [|p]; [now left|right].
  now apply of_Z_ge_one.
Qed.

Lemma ge_one_nonneg x : ge_one x = true → nonneg x = true.
Proof. now destruct x as [| [] | | [] ]. Qed.

(** *** The operations on numbers that are not negative *)

Lemma add_nonneg x y : nonneg x = true → nonneg y = true → nonneg (add x y) = true.
Proof.
  destruct x as [[]|[]| |[] mx ex], y as [[]|[]| |[] my ey]; try done.
  intros _ _. unfold add, SFadd. cbn [cond_Zopp].
  unfold binary_normalize.
  destruct (Z.pos _ + Z.pos _) as [|p|p] eqn:E; [done| |lia].
  pose proof (binary_round_sign false p (Z.min ex ey)).
  destruct (binary_round _ _ _ _ _); cbn; subst; done.
Qed.

Lemma add_ge_one x y :
  (x = S754_zero false ∨ ge_one x = true) → ge_one y = true →
  ge_one (add x y) = true.
Proof.
  intros [->|Hx] Hy.
  { now destruct y as [[]|[]| |[] my ey]. }
  destruct x as [[]|[]| |[] mx ex], y as [[]|[]| |[] my ey]; try done.
  unfold ge_one in Hx, Hy. apply Z.leb_le in Hx, Hy.
  unfold add, SFadd. cbn [cond_Zopp]. unfold binary_normalize.
  pose proof (shl_align_mag mx ex (Z.min ex ey)) as Hax.
  destruct (shl_align_spec mx ex (Z.min ex ey)) as [_ Hbx].
  destruct (shl_align mx ex (Z.min ex ey)) as [ax ex']. cbn [fst snd] in *.
  destruct (shl_align my ey (Z.min ex ey)) as [ay ey']. cbn [fst].
  change (Z.pos ax + Z.pos ay) with (Z.pos (ax + ay)).
  pose proof (Zdigits2_mono (Zpos ax) (Zpos (ax + ay)) ltac:(lia) ltac:(lia)) as Hm.
  destruct (binary_round_mag false (ax + ay) (Z.min ex ey))
    as [(m' & e' & -> & H)|[-> _]]; [unfold emin, emax, prec; lia| |done].
  unfold ge_one. apply Z.leb_le. lia.
Qed.

Lemma mul_nonneg x y :
  nonneg x = true → positive_finite y = true → nonneg (mul x y) = true.
Proof.
  destruct x as [[]|[]| |[] mx ex], y as [[]|[]| |[] my ey]; try done.
  intros _ _. unfold mul, SFmul. cbn [xorb].
  pose proof (round_aux_sign false (Zpos (mx * my)) (ex + ey) loc_Exact ltac:(lia)).
  destruct (binary_round_aux _ _ _ _ _ _); cbn; subst; done.
Qed.

Lemma mul_not_nan x y :
  is_nan x = false → positive_finite y = true → is_nan (mul x y) = false.
Proof.
  destruct x as [sx|sx| |sx mx ex], y as [[]|[]| |[] my ey]; try done.
  intros _ _. unfold mul, SFmul.
  pose proof (round_aux_sign (xorb sx false) (Zpos (mx * my)) (ex + ey) loc_Exact
                ltac:(lia)).
  now destruct (binary_round_aux _ _ _ _ _ _).
Qed.

Lemma mul_comm x y : mul x y = mul y x.
Proof.
  destruct x as [sx|sx| |sx mx ex], y as [sy|sy| |sy my ey]; cbn;
    rewrite ?(xorb_comm sx sy); try reflexivity.
  now rewrite (Pos.mul_comm mx my), (Z.add_comm ex ey).
Qed.

Lemma div_core_nonneg m1 e1 m2 e2 :
  0 <= (SFdiv_core_binary prec emax (Zpos m1) e1 (Zpos m2) e2).1.1.
Proof.
  unfold SFdiv_core_binary.
  set (s := _ - _ - _).
  set (m' := match s with Zpos _ => Z.shiftl (Z.pos m1) s | 0 => Z.pos m1 | Zneg _ => 0 end).
  assert (Hm' : 0 <= m').
  { subst m'. destruct s; [lia| |lia]. apply Z.shiftl_nonneg. lia. }
  pose proof (Z_div_mod m' (Zpos m2) ltac:(lia)) as H.
  destruct (Z.div_eucl m' (Z.pos m2)) as [q r]. cbn [fst]. nia.
Qed.

Lemma div_not_nan x y :
  is_nan x = false → positive_finite y = true → is_nan (div x y) = false.
Proof.
  destruct x as [sx|sx| |sx mx ex], y as [[]|[]| |[] my ey]; try done.
  intros _ _. unfold div, SFdiv.
  pose proof (div_core_nonneg mx ex my ey) as Hq.
  destruct (SFdiv_core_binary _ _ _ _ _ _) as [[mz ez] lz]. cbn [fst] in Hq.
  pose proof (round_aux_sign (xorb sx false) mz ez lz Hq).
  now destruct (binary_round_aux _ _ _ _ _ _).
Qed.

Lemma div_nonneg x y :
  nonneg x = true → is_finite x = true → ge_one y = true →
  nonneg (div x y) = true.
Proof.
  destruct x as [[]|[]| |[] mx ex], y as [[]|[]| |[] my ey]; try done.
  intros _ _ _. unfold div, SFdiv. cbn [xorb].
  pose proof (div_core_nonneg mx ex my ey) as Hq.
  destruct (SFdiv_core_binary _ _ _ _ _ _) as [[mz ez] lz]. cbn [fst] in Hq.
  pose proof (round_aux_sign false mz ez lz Hq).
  destruct (binary_round_aux _ _ _ _ _ _); cbn; subst; done.
Qed.

Lemma sub_not_nan x y :
  is_finite x = true → is_nan y = false → is_nan (sub x y) = false.
Proof.
  destruct x as [sx|sx| |sx mx ex], y as [sy|sy| |sy my ey]; try done.
  - now destruct sx, sy.
  - intros _ _. unfold sub, SFsub. unfold binary_normalize.
    destruct (_ - _) as [|p|p]; [done| |].
    + pose proof (binary_round_sign false p (Z.min ex ey)).
      now destruct (binary_round _ _ _ _ _).
    + pose proof (binary_round_sign true p (Z.min ex ey)).
      now destruct (binary_round _ _ _ _ _).
Qed.

Lemma min_nonneg x y :
  nonneg x = true → nonneg y = true → nonneg (Math_min x y) = true.
Proof.
  destruct x as [[]|[]| |[] mx ex], y as [[]|[]| |[] my ey]; try done;
    intros _ _; unfold Math_min; try done;
    match goal with |- context [if ?b then _ else _] => now destruct b end.
Qed.

Lemma max_zero_nonneg x :
  is_nan x = false → nonneg (Math_max x (S754_zero false)) = true.
Proof. now destruct x as [[]|[]| |[] mx ex]. Qed.

Lemma nonneg_not_nan x : nonneg x = true → is_nan x = false.
Proof. now destruct x. Qed.

Lemma add_zero_l x : nonneg x = true → add (of_Z 0) x = x.
Proof. now destruct x as [[]|[]| |[] mx ex]. Qed.

(** *** The order of the values *)

Lemma value_ge_one m e :
  1 <= Zdigits2 (Zpos m) + e → (1 <= value false m e)%Q.
Proof.
  intros H. unfold value. cbn [cond_Zopp].
  rewrite Zdigits2_log2 in H by lia.
  pose proof (Z.log2_spec (Zpos m) ltac:(lia)) as [Hlo _].
  assert (H2 : (0 < 2 ^ e)%Q) by now apply Qpower_0_lt.
  apply Qle_trans with (inject_Z (2 ^ Z.log2 (Zpos m)) * 2 ^ e)%Q.
  - rewrite Zpower_Qpower by apply Z.log2_nonneg.
    rewrite <- Qpower_plus by done.
    apply Qpower_1_le; [done|lia].
  - apply Qmult_le_compat_r; [|now apply Qlt_le_weak].
    now rewrite <- Zle_Qle.
Qed.

Lemma ge_one_leb x : ge_one x = true → leb (of_Z 1) x = true.
Proof.
  destruct x as [[]|[]| |[] m e]; try done.
  unfold ge_one. intros H%Z.leb_le. apply value_ge_one in H.
  change (of_Z 1) with (S754_finite false 4503599627370496 (-52)).
  unfold leb, ltb. cbn [is_nan negb andb]. rewrite negb_involutive.
  apply Qle_bool_iff.
  apply Qle_trans with 1%Q; [|done].
  apply Qle_bool_iff. reflexivity.
Qed.

Lemma round_range r :
  nonneg r = true → ltb (of_Z 100) r = false →
  ∃ z, Math_round r = Some z ∧ 0 <= z <= 100.
Proof.
  destruct r as [[]|[]| |[] m e]; try done.
  - intros _ _. exists 0. split; [done|lia].
  - intros _.
    change (of_Z 100) with (S754_finite false 7036874417766400 (-46)).
    unfold ltb. intros H%negb_false_iff%Qle_bool_iff.
    eexists. split; [reflexivity|]. split.
    + change 0 with (Qfloor 0). apply Qfloor_resp_le.
      unfold value. cbn [cond_Zopp].
      apply Qle_trans with (0 + (1 # 2))%Q; [done|].
      apply Qplus_le_l. apply Qmult_le_0_compat; [done|].
      apply Qpower_0_le. done.
    + change 100 with (Qfloor (201 # 2)). apply Qfloor_resp_le.
      apply Qle_trans with (value false 7036874417766400 (-46) + (1 # 2))%Q.
      * now apply Qplus_le_l.
      * apply Qle_bool_iff. reflexivity.
Qed.

Lemma min_cap x :
  nonneg x = true →
  nonneg (Math_min x (of_Z 100)) = true
  ∧ ltb (of_Z 100) (Math_min x (of_Z 100)) = false.
Proof.
  change (of_Z 100) with (S754_finite false 7036874417766400 (-46)).
  destruct x as [[]|[]| |[] m e]; try done.
  intros _. unfold Math_min.
  destruct (ltb (S754_finite false 7036874417766400 (-46)) (S754_finite false m e))
    eqn:E; [|done].
  split; [done|]. unfold ltb. apply negb_false_iff, Qle_bool_iff. apply Qle_refl.
Qed.

(** *** The score *)

Lemma count_plus_one n : ge_one (add (of_N n) (of_Z 1)) = true.
Proof. apply add_ge_one; [apply of_N_cases | now apply of_Z_ge_one]. Qed.

Lemma capped_log_nonneg (log10 : float → float) n cap :
  (∀ x, leb (of_Z 1) x = true → nonneg (log10 x) = true) →
  nonneg cap = true →
  nonneg (Math_min (mul (log10 (add (of_N n) (of_Z 1))) (of_Z 10)) cap) = true.
Proof.
  intros Hlog Hcap. apply min_nonneg; [|done].
  apply mul_nonneg; [|reflexivity].
  apply Hlog, ge_one_leb, count_plus_one.
Qed.

Lemma floor_at_zero_nonneg x c :
  is_finite c = true → is_nan x = false →
  nonneg (Math_max (sub c x) (of_Z 0)) = true.
Proof. intros Hc Hx. apply max_zero_nonneg. now apply sub_not_nan. Qed.

Lemma documentation_nonneg (a b : bool) :
  nonneg (add (if a then of_Z 15 else of_Z 0) (if b then of_Z 5 else of_Z 0)) = true.
Proof. now destruct a, b. Qed.

Lemma safe_count_finite n : safe_integer n → is_finite (of_N n) = true.
Proof. unfold safe_integer, of_N. intros H. apply of_Z_finite. lia. Qed.

Lemma time_value_finite t : time_value t → is_finite (of_Z t) = true.
Proof. unfold time_value. intros H. apply of_Z_finite. lia. Qed.

Lemma binary64_score_formula (log10 : float → float) (now : Z) (repo : Metadata) :
  (∀ x, leb (of_Z 1) x = true → nonneg (log10 x) = true) →
  calculateQualityScore log10 now repo
  = standard_score log10 (stargazers_count repo) (forks_count repo)
      (open_issues_count repo) (daysSinceUpdate now repo)
      (descriptionLength repo) (hasTopics repo).
Proof.
  intros Hlog. unfold calculateQualityScore, standard_score.
  rewrite add_zero_l.
  2:{ apply mul_nonneg; [|reflexivity]. now apply capped_log_nonneg. }
  unfold stars_w, forks_w, updates_w, documentation_w, issues_w,
    daysSinceUpdate, descriptionLength, hasTopics.
  change (mul (mul (mul (of_Z 1000) (of_Z 60)) (of_Z 60)) (of_Z 24))
    with (of_Z 86400000).
  rewrite !(mul_comm _ (dec _ 10)).
  assert (Hd : match description repo with
               | Some d => (50 <? length d)%nat
               | None => false
               end
               = (50 <? match description repo with
                        | Some d => length d
                        | None => 0%nat
                        end)%nat).
  { now destruct (description repo). }
  assert (Ht : match topics repo with
               | Some ts => (0 <? length ts)%nat
               | None => false
               end
               = match topics repo with
                 | Some (_ :: _) => true
                 | _ => false
                 end).
  { now destruct (topics repo) as [[|]|]. }
  now rewrite Hd, Ht.
Qed.

Lemma binary64_score_range (log10 : float → float) (now : Z) (repo : Metadata) :
  (∀ x, leb (of_Z 1) x = true → nonneg (log10 x) = true) →
  time_value now → safe_integer (open_issues_count repo) →
  ∃ s, calculateQualityScore log10 now repo = Some s ∧ 0 <= s <= 100.
Proof.
  intros Hlog Hnow Hsafe. unfold calculateQualityScore.
  match goal with
  | |- ∃ s, Math_round (Math_min ?score _) = _ ∧ _ =>
      assert (Hscore : nonneg score = true)
  end.
  2:{ destruct (min_cap _ Hscore) as [H1 H2]. exact (round_range _ H1 H2). }
  repeat apply add_nonneg.
  - reflexivity.
  - apply mul_nonneg; [|reflexivity]. now apply capped_log_nonneg.
  - apply mul_nonneg; [|reflexivity]. now apply capped_log_nonneg.
  - apply mul_nonneg; [|reflexivity].
    apply floor_at_zero_nonneg; [reflexivity|].
    apply div_not_nan; [|reflexivity].
    apply div_not_nan; [|reflexivity].
    apply sub_not_nan; [now apply time_value_finite | apply of_Z_not_nan].
  - apply mul_nonneg; [|reflexivity]. apply documentation_nonneg.
  - apply mul_nonneg; [|reflexivity].
    apply floor_at_zero_nonneg; [reflexivity|].
    apply mul_not_nan; [|reflexivity]. apply nonneg_not_nan.
    apply div_nonneg.
    + apply of_Z_nonneg. lia.
    + now apply safe_count_finite.
    + apply count_plus_one.
Qed.

(** C1.  On doubles, with a [Math.log10] that gives neither NaN nor a
    negative number from 1 on, at a time value and for a safe number of
    open issues: the standard score is the rounded, capped weighted sum
    of the five sub-scores of section 4.4, computed in the arithmetic of
    the language, and it is an integer between 0 and 100; no operation in
    it gives NaN, whatever the counts (zero included). *)
Theorem standard_score_spec (log10 : float → float) (now : Z) (repo : Metadata) :
  (∀ x, leb (of_Z 1) x = true → nonneg (log10 x) = true) →
  time_value now → safe_integer (open_issues_count repo) →
  calculateQualityScore log10 now repo
  = standard_score log10 (stargazers_count repo) (forks_count repo)
      (open_issues_count repo) (daysSinceUpdate now repo)
      (descriptionLength repo) (hasTopics repo)
  ∧ ∃ s, calculateQualityScore log10 now repo = Some s ∧ 0 <= s <= 100.
Proof.
  intros Hlog Hnow Hsafe. split.
  - now apply binary64_score_formula.
  - now apply binary64_score_range.
Qed.

Lemma digits10_nonneg fuel : ∀ n, 0 <= digits10 fuel n.
Proof.
  induction fuel as [|fuel IH]; intros n; cbn; [lia|].
  destruct (n <? 10); [lia|]. specialize (IH (n / 10)). lia.
Qed.

Lemma negative_below_one m e : leb (of_Z 1) (S754_finite true m e) = false.
Proof.
  change (of_Z 1) with (S754_finite false 4503599627370496 (-52)).
  unfold leb, ltb. cbn [is_nan negb andb]. rewrite negb_involutive.
  destruct (Qle_bool _ _) eqn:E; [|done].
  apply Qle_bool_iff in E.
  assert (H1 : (1 <= value false 4503599627370496 (-52))%Q)
    by (apply Qle_bool_iff; reflexivity).
  assert (H2 : (value true m e <= 0)%Q).
  { unfold value. cbn [cond_Zopp].
    apply Qle_trans with (0 * 2 ^ e)%Q; [|now rewrite Qmult_0_l].
    apply Qmult_le_compat_r; [done|]. now apply Qpower_0_le. }
  pose proof (Qle_trans _ _ _ H1 (Qle_trans _ _ _ E H2)) as H.
  now apply Qle_bool_iff in H.
Qed.

Lemma log10_floor_nonneg x : leb (of_Z 1) x = true → nonneg (log10_floor x) = true.
Proof.
  destruct x as [[]|[]| |[] m e]; try done.
  - now rewrite negative_below_one.
  - intros _. unfold log10_floor. apply of_Z_nonneg, digits10_nonneg.
Qed.

Lemma standard_score_spec_witness :
  calculateQualityScore log10_floor 1700000000000 halfway
  = standard_score log10_floor (stargazers_count halfway) (forks_count halfway)
      (open_issues_count halfway) (daysSinceUpdate 1700000000000 halfway)
      (descriptionLength halfway) (hasTopics halfway)
  ∧ ∃ s, calculateQualityScore log10_floor 1700000000000 halfway = Some s
         ∧ 0 <= s <= 100.
Proof.
  apply (standard_score_spec log10_floor 1700000000000 halfway).
  - exact log10_floor_nonneg.
  - unfold time_value. lia.
  - unfold safe_integer. cbn. lia.
Defined.

(** With 9999 stars the star sub-score is capped at 30 whatever the
    logarithm, and the sum of the weighted sub-scores is the double just
    below 10.5, which rounds to 10; in exact arithmetic the sum is 10.5
    and would round to 11. *)
Lemma standard_score_halfway :
  calculateQualityScore log10_floor 1700000000000 halfway = Some 10.
Proof. vm_compute. reflexivity. Qed.

Lemma standard_score_zero_counts_sample :
  calculateQualityScore log10_floor 1700000000000 (of_raw Samples.bare) = Some 5.
Proof. vm_compute. reflexivity. Qed.

End Binary64Facts.

(** ** The rate limiter *)

Module RateLimiterFacts.
Import RateLimiter.

Local Open Scope Z_scope.

Lemma spacing_inv now t s s' o :
  spacing now t s = (s', o) →
  (o = None ∧ s' = record t s ∧ lastRequestTime s + minInterval <= now)
  ∨ (o = Some (SpacingWait (t + (minInterval - (now - lastRequestTime s))))
     ∧ s' = s ∧ now < lastRequestTime s + minInterval).
Proof.
  unfold spacing, minInterval.
  destruct (Z.ltb_spec (now - lastRequestTime s) 100);
    intros [= <- <-]; [right|left]; repeat split; lia.
Qed.

Lemma refreshed_last t s : lastRequestTime (refreshed t s) = lastRequestTime s.
Proof. unfold refreshed. now destruct (resetTime s <? t). Qed.

Lemma refreshed_remaining t s :
  remaining (refreshed t s) = if resetTime s <? t then 5000 else remaining s.
Proof. unfold refreshed. now destruct (resetTime s <? t). Qed.

Lemma start_inv t s s' o :
  start t s = (s', o) →
  (∃ due, o = Some (QuotaWait t due) ∧ s' = refreshed t s ∧ t < due)
  ∨ spacing t t (refreshed t s) = (s', o).
Proof.
  unfold start. fold (refreshed t s).
  destruct (remaining (refreshed t s) <=? 100); [|now right].
  destruct (Z.ltb_spec 0 (Z.max 0 (resetTime (refreshed t s) - t)));
    [|now right].
  intros [= <- <-]. left. eexists. repeat split. lia.
Qed.

Lemma chain_snoc last t stamps :
  chain last stamps → last + minInterval <= t → chain t (stamps ++ [t]).
Proof.
  unfold minInterval. intros Hc Ht.
  induction stamps as [|a stamps IH]; cbn in *.
  - repeat split; [lia | constructor].
  - destruct Hc as (Ha & Hall & Hc). repeat split; [lia| |now apply IH].
    apply Forall_app. split; [done|]. repeat constructor.
    unfold minInterval. lia.
Qed.

Lemma chain_lookup last stamps : ∀ i j a b,
  chain last stamps → (i < j)%nat →
  stamps !! i = Some a → stamps !! j = Some b → a + minInterval <= b.
Proof.
  induction stamps as [|x stamps IH]; intros i j a b Hc Hij Hi Hj; [done|].
  destruct Hc as (_ & Hall & Hc).
  destruct j as [|j]; [lia|]. destruct i as [|i]; cbn in *.
  - injection Hi as ->. rewrite Forall_forall in Hall.
    apply Hall. eapply list_elem_of_lookup_2. eassumption.
  - apply (IH i j); [done | lia | done | done].
Qed.

Lemma chain_spaced last (l : list (nat * Z)) : chain last l.*2 → spaced l.
Proof.
  intros Hc i j a b Hij Hi Hj.
  assert (Hi' : l.*2 !! i = Some a.2) by now rewrite list_lookup_fmap, Hi.
  assert (Hj' : l.*2 !! j = Some b.2) by now rewrite list_lookup_fmap, Hj.
  destruct (Nat.lt_total i j) as [Hlt|[->|Hlt]]; [|done|].
  - pose proof (chain_lookup _ _ _ _ _ _ Hc Hlt Hi' Hj'). lia.
  - pose proof (chain_lookup _ _ _ _ _ _ Hc Hlt Hj' Hi'). lia.
Qed.

(** Settling a segment that keeps the invariant. *)
Lemma settle_spacing c now t lp s0 :
  chain (lastRequestTime s0) (log lp).*2 →
  now <= t →
  (suspended lp = ∅ ∨ ∃ p, suspended lp = {[c := p]}) →
  Inv (settle c t lp (spacing now t s0)).
Proof.
  intros Hc Hnow Hsus.
  destruct (spacing now t s0) as [s' o] eqn:E.
  apply spacing_inv in E as [(-> & -> & Hgap)|(-> & -> & Hgap)]; cbn.
  - split; cbn.
    + rewrite fmap_app; cbn. apply (chain_snoc (lastRequestTime s0)); [done|lia].
    + left. destruct Hsus as [->|[p ->]];
        [apply delete_empty | apply delete_singleton_eq].
  - split; cbn; [done|]. right. eexists c, _. split.
    + destruct Hsus as [->|[p ->]];
        [apply insert_empty | apply insert_singleton_eq].
    + cbn. lia.
Qed.

Lemma exec_inv lp ev lp' :
  Inv lp → exec lp ev = Some lp' →
  match ev with
  | Call _ _ => suspended lp = ∅
  | Wake _ _ => True
  end →
  Inv lp'.
Proof.
  intros [Hc Hsus] Hexec Hserial. destruct ev as [c t|c t]; cbn in Hexec.
  - destruct (_ && _); [|done]. injection Hexec as <-.
    destruct (start t (limiter lp)) as [s' o] eqn:E.
    destruct (start_inv _ _ _ _ E) as [(due & -> & -> & Hdue)|E'].
    + split; cbn.
      * now rewrite refreshed_last.
      * right. exists c, (QuotaWait t due). rewrite Hserial.
        split; [apply insert_empty | cbn; lia].
    + rewrite <- E'. apply settle_spacing.
      * now rewrite refreshed_last.
      * lia.
      * left. exact Hserial.
  - destruct (suspended lp !! c) as [p|] eqn:Hp; [|done].
    destruct (Z.leb_spec (clock lp) t); [|done].
    destruct (Z.leb_spec (due_time p) t) as [Hdue|]; [|done].
    cbn in Hexec. injection Hexec as <-.
    destruct Hsus as [Hs|(c0 & p0 & Hs & Hok)];
      [now rewrite Hs, lookup_empty in Hp|].
    rewrite Hs in Hp. apply lookup_singleton_Some in Hp as [<- <-].
    destruct p0 as [now due|due]; cbn in *.
    + apply settle_spacing; [done|lia|right; eauto].
    + split; cbn.
      * rewrite fmap_app; cbn.
        apply (chain_snoc (lastRequestTime (limiter lp))); [done|lia].
      * left. rewrite Hs. apply delete_singleton_eq.
Qed.

Lemma run_inv evs : ∀ lp lp',
  Inv lp → run lp evs = Some lp' → serial lp evs = true → Inv lp'.
Proof.
  induction evs as [|ev evs IH]; intros lp lp' Hinv Hrun Hser; cbn in *.
  - now injection Hrun as <-.
  - apply andb_prop in Hser as [Hcall Hser].
    destruct (exec lp ev) as [lp1|] eqn:E; [|done].
    apply (IH lp1); [|done|done].
    apply (exec_inv lp ev); [done|done|].
    destruct ev; [|done]. now apply bool_decide_eq_true in Hcall.
Qed.

Lemma boot_inv t : Inv (boot t).
Proof. split; cbn; [done | now left]. Qed.

(** C8.  The limiter does not keep overlapping calls apart.  A call that
    starts while another is asleep reads the same [lastRequestTime] as the
    sleeper, since the time is only written once a call is through: of
    three calls started 0, 10 and 20 ms after one another, the second and
    the third both sleep until 100 ms and record that same instant.  The
    minimum of 100 ms between requests that [waitIfNeeded] is there to
    enforce fails. *)
Theorem overlapping_calls_collide :
  ∃ lp, run (boot 1700000000000) overlapping = Some lp
        ∧ log lp = [(1%nat, 1700000000000); (2%nat, 1700000000100);
                    (3%nat, 1700000000100)]
        ∧ ¬ spaced (log lp)
        ∧ serial (boot 1700000000000) overlapping = false.
Proof.
  eexists. split; [vm_compute; reflexivity|]. split; [reflexivity|].
  split; [|reflexivity].
  intros H. specialize (H 1%nat 2%nat _ _ ltac:(lia) eq_refl eq_refl).
  vm_compute in H. now apply H.
Qed.

(** Calls that do not overlap are kept apart.  In a run of the event
    loop, where a timer fires no earlier than it is due and the clock does
    not go back, when no call of [waitIfNeeded] starts while another is
    suspended, every two completed calls record timestamps at least 100 ms
    apart.  At its start a call sets the remaining quota back to 5000 when
    the instant is past [resetTime]; the step that completes a call
    records the current instant and takes exactly one from the remaining
    quota; a step that suspends leaves both as they are. *)
Theorem serial_calls_spaced (t0 : Z) (evs : list Event) (lp : Loop) :
  run (boot t0) evs = Some lp →
  serial (boot t0) evs = true →
  spaced (log lp)
  ∧ (∀ t s s', start t s = (s', None) →
       lastRequestTime s' = t
       ∧ remaining s' = (if resetTime s <? t then 5000 else remaining s) - 1)
  ∧ (∀ t s s' p, start t s = (s', Some p) →
       lastRequestTime s' = lastRequestTime s
       ∧ remaining s' = if resetTime s <? t then 5000 else remaining s)
  ∧ (∀ t p s s', resume t p s = (s', None) →
       lastRequestTime s' = t ∧ remaining s' = remaining s - 1)
  ∧ (∀ t p s s' p', resume t p s = (s', Some p') → s' = s).
Proof.
  intros Hrun Hser. split; [|split; [|split; [|split]]].
  - destruct (run_inv evs (boot t0) lp (boot_inv t0) Hrun Hser) as [Hc _].
    now apply (chain_spaced (lastRequestTime (limiter lp))).
  - intros t s s' E.
    destruct (start_inv _ _ _ _ E) as [(due & [=] & _)|E'].
    apply spacing_inv in E' as [(_ & -> & _)|([=] & _)]; cbn.
    now rewrite refreshed_remaining.
  - intros t s s' p E.
    destruct (start_inv _ _ _ _ E) as [(due & _ & -> & _)|E'].
    + now rewrite refreshed_last, refreshed_remaining.
    + apply spacing_inv in E' as [([=] & _)|(_ & -> & _)].
      now rewrite refreshed_last, refreshed_remaining.
  - intros t [now due|due] s s' E; cbn in E.
    + now apply spacing_inv in E as [(_ & -> & _)|([=] & _)].
    + now injection E as <-.
  - intros t [now due|due] s s' p' E; cbn in E; [|done].
    now apply spacing_inv in E as [([=] & _)|(_ & -> & _)].
Qed.

Lemma serial_calls_spaced_witness :
  ∃ lp, run (boot 1700000000000) one_by_one = Some lp
        ∧ log lp = [(1%nat, 1700000000000); (2%nat, 1700000000100);
                    (3%nat, 1700000000200)]
        ∧ spaced (log lp).
Proof.
  eexists. split; [vm_compute; reflexivity|]. split; [reflexivity|].
  apply (serial_calls_spaced 1700000000000 one_by_one); reflexivity.
Defined.

End RateLimiterFacts.

(** ** The enhanced search *)

Module EnhancedFacts.
Import JS Enhanced Samples.

(** *** The cache *)


(** *** Paging *)

(** An empty repository updated in the past gets at most 30 points. *)
Lemma bare_score (now : Z) :
  (raw_updated_at bare <= now)%Z →
  ∃ s, calculateEnhancedQualityScore now bare [] 0 = Some s ∧ (0 <= s <= 30)%Z.
Proof.
  intros Hnow. unfold calculateEnhancedQualityScore; cbn -[Num.round IZR Rmin Rmax].
  destruct (ScoreFacts.log10_count 0) as [Hl _].
  change (Num.ofN 0) with 0%R in *. rewrite Hl; cbn [mbind option_bind].
  unfold Num.fdiv. destruct (Req_dec_T (0 + 1) 0) as [E|_]; [exfalso; lra|].
  cbn [mbind option_bind].
  eexists. split; [reflexivity|].
  apply ScoreFacts.round_bounds.
  assert (Hlog : Spec.log10 (0 + 1) = 0%R).
  { unfold Spec.log10. rewrite Rplus_0_l, ln_1. lra. }
  rewrite Hlog.
  assert (Hd : (0 <= IZR (now - raw_updated_at bare) / IZR Num.msPerDay)%R).
  { apply Rmult_le_pos; [apply IZR_le; lia|].
    left. apply Rinv_0_lt_compat, IZR_lt. reflexivity. }
  change (raw_updated_at bare) with 1699990000000%Z in *.
  set (d := (IZR (now - 1699990000000) / IZR Num.msPerDay)%R) in *.
  change (Num.ofN (N.of_nat 0)) with 0%R.
  rewrite (Rmin_left (0 * 5) 25), (Rmin_left (0 * 2) 15),
    (Rmin_left (0 / 10) 5), (Rmin_left (0 * 2) 10) by lra.
  rewrite (Rmax_left (10 - 0 / (0 + 1) * 50) 0) by lra.
  assert (Ha : (0 <= Rmax (20 - d / 7) 0 <= 20)%R).
  { split; [apply Rmax_r|]. apply Rmax_lub; lra. }
  split.
  - apply Rmin_glb; lra.
  - eapply Rle_trans; [apply Rmin_l|]. lra.
Qed.

Lemma bare_rejected (now : Z) :
  (raw_updated_at bare <= now)%Z →
  keeps only_excellent (enhanced_one full_page now bare) = false.
Proof.
  intros Hnow. destruct (bare_score now Hnow) as (s & Hs & Hlo & Hhi).
  unfold keeps, enhanced_one; cbn -[calculateEnhancedQualityScore].
  change (getRepositoryLanguages full_page "carol/scratch") with (@nil string).
  change (getTopContributors full_page "carol/scratch") with 0%N.
  rewrite Hs. unfold score_or.
  destruct (s =? 0)%Z; [done|].
  now destruct (Z.ltb_spec s 85); [|lia].
Qed.

Lemma all_rejected (now : Z) (n : nat) :
  (raw_updated_at bare <= now)%Z →
  applyAdvancedFilters (enhancedEnrichment full_page now (repeat bare n))
                       only_excellent = [].
Proof.
  intros Hnow. unfold applyAdvancedFilters, enhancedEnrichment.
  induction n as [|n IH]; [done|].
  cbn [repeat map]. rewrite filter_cons, (bare_rejected now Hnow). exact IH.
Qed.

(** The standard search reports a further page exactly when the response
    fills the page. *)
Lemma standard_hasMore octokit now e query filters page result :
  SearchEngine.searchRepositories octokit now e query filters page = Returned result →
  ∃ response,
    octokit {| q := SearchEngine.buildSmartQuery e query filters;
               call_sort := Some (default by_stars (sortBy filters));
               call_order := default desc (order filters);
               per_page := 30;
               call_page := page |} = Some response
    ∧ hasMore result = (length (items response) =? 30)%nat
    ∧ nextPage result = if hasMore result then Some (page + 1)%Z else None.
Proof.
  unfold SearchEngine.searchRepositories.
  destruct (octokit _) as [response|]; [|done].
  intros [= <-]. exists response. cbn.
  repeat split.
Qed.

(** C3, on the enhanced search.  The service returns a full page of 50
    items and the quality filter drops them: the result says there is no
    further page. *)
Theorem enhanced_hasMore_after_filter (stringify : EnhancedSearchFilters → string) :
  ∃ response,
    search_repos full_page
      {| q := buildEnhancedQuery 1700000000000 "cli" only_excellent;
         call_sort := Some by_stars; call_order := desc;
         per_page := 50; call_page := 1 |} = Some response
    ∧ N.of_nat (length (items response)) = 50%N
    ∧ (enhancedSearch stringify full_page "cli" only_excellent 1 at_start).1
      = Returned {| sr_repositories := []; totalCount := 1000;
                    hasMore := false; nextPage := None |}.
Proof.
  eexists. split; [reflexivity|]. split; [reflexivity|].
  unfold enhancedSearch, fresh_entry.
  change (cache at_start) with (∅ : gmap string CachedEntry).
  rewrite lookup_empty.
  change (RateLimiter.waitIfNeeded (clock at_start) (rateLimitManager at_start))
    with (1700000000000%Z,
          RateLimiter.mkState 1700000000000 1 0 4999).
  cbn [search_repos full_page items total_count elapsed].
  change (1700000000000 + 250)%Z with 1700000000250%Z.
  rewrite (all_rejected 1700000000250 50) by (cbn; lia).
  reflexivity.
Qed.

End EnhancedFacts.

(** ** The query builders *)

Module QueryFacts.
Import JS SearchEngine Enhanced Samples.

Example smart_query_sample :
  buildSmartQuery initial "cli tool"
    {| f_language := Some "ts"; minStars := Some 10%Z; maxStars := None;
       f_topics := Some ["a"; "b"]; hasIssues := Some true; hasWiki := Some false;
       hasPages := None; archived := Some false; fork := None;
       sortBy := None; order := None |}
  = "cli tool -user:Gzeu language:ts stars:>=10 topic:a topic:b has:issues -has:wiki archived:false".
Proof. reflexivity. Qed.

Example enhanced_query_sample :
  buildEnhancedQuery 1700000000000 "cli" only_active
  = "cli pushed:>2023-10-15 -user:Gzeu -user:octocat NOT tutorial NOT example".
Proof. reflexivity. Qed.






End QueryFacts.

(** ** Where the quality score comes from *)

Module QualityFacts.
Import SearchEngine Enhanced Samples.

(** Against C9 as stated.  The analysis of a repository hands on the
    score its input carries. *)
Lemma analysis_trusts_input_score :
  Combinator.codeQuality (Combinator.analyzeRepository shop)
  ≠ Combinator.codeQuality
      (Combinator.analyzeRepository (with_quality (Some 99%Z) shop)).
Proof. vm_compute. discriminate. Qed.

Lemma enrich_forgets now raws :
  enrichRepositories now raws
  = enrichRepositories now (map (raw_with_quality None) raws).
Proof. unfold enrichRepositories. now rewrite map_map. Qed.

Lemma enhanced_forgets api now raws :
  enhancedEnrichment api now raws
  = enhancedEnrichment api now (map (raw_with_quality None) raws).
Proof. unfold enhancedEnrichment. now rewrite map_map. Qed.

(** C9, amended.  Both enrichments compute the score from the raw
    metadata: responses that differ only in a [qualityScore] of their own
    are enriched alike, and the score attached is the computed one.  The
    analysis of the combinator does not compute a score: its
    [codeQuality] is the [qualityScore] of the record it is given (0 when
    there is none), and its [repository] is that record itself, score
    included; the framework, components, dependencies, structure and
    features do not depend on the score. *)
Theorem quality_score_sources
    (api : Api) (now : Z) (raws raws' : list RawRepo)
    (r : Repository) (q : option Z) :
  map (raw_with_quality None) raws = map (raw_with_quality None) raws' →
  enrichRepositories now raws = enrichRepositories now raws'
  ∧ map qualityScore (enrichRepositories now raws)
    = map (calculateQualityScore now) raws
  ∧ enhancedEnrichment api now raws = enhancedEnrichment api now raws'
  ∧ map (λ x, qualityScore (repo x)) (enhancedEnrichment api now raws)
    = map (λ raw, calculateEnhancedQualityScore now raw
                    (getRepositoryLanguages api (raw_full_name raw))
                    (getTopContributors api (raw_full_name raw))) raws
  ∧ Combinator.codeQuality (Combinator.analyzeRepository r)
    = score_or (qualityScore r) 0
  ∧ Combinator.repository (Combinator.analyzeRepository r) = r
  ∧ Combinator.framework (Combinator.analyzeRepository (with_quality q r))
    = Combinator.framework (Combinator.analyzeRepository r)
  ∧ Combinator.components (Combinator.analyzeRepository (with_quality q r))
    = Combinator.components (Combinator.analyzeRepository r)
  ∧ Combinator.an_dependencies (Combinator.analyzeRepository (with_quality q r))
    = Combinator.an_dependencies (Combinator.analyzeRepository r)
  ∧ Combinator.an_structure (Combinator.analyzeRepository (with_quality q r))
    = Combinator.an_structure (Combinator.analyzeRepository r)
  ∧ Combinator.an_features (Combinator.analyzeRepository (with_quality q r))
    = Combinator.an_features (Combinator.analyzeRepository r).
Proof.
  intros H.
  split; [|split; [|split; [|split; [|repeat split]]]].
  - now rewrite (enrich_forgets now raws), (enrich_forgets now raws'), H.
  - unfold enrichRepositories. now rewrite map_map.
  - now rewrite (enhanced_forgets api now raws), (enhanced_forgets api now raws'), H.
  - unfold enhancedEnrichment. now rewrite map_map.
Qed.

Lemma quality_score_sources_witness :
  enrichRepositories 1700000000000 [bare] = enrichRepositories 1700000000000 [boasting]
  ∧ enhancedEnrichment full_page 1700000000000 [bare]
    = enhancedEnrichment full_page 1700000000000 [boasting]
  ∧ Combinator.codeQuality (Combinator.analyzeRepository shop) = 7%Z
  ∧ qualityScore (Combinator.repository (Combinator.analyzeRepository shop))
    = Some 7%Z.
Proof.
  destruct (quality_score_sources full_page 1700000000000 [bare] [boasting]
              shop None eq_refl) as (H1 & _ & H2 & _ & H3 & H4 & _).
  split; [exact H1|]. split; [exact H2|]. split; [exact H3|].
  now rewrite H4.
Defined.

End QualityFacts.

(** ** Fewer than two repositories *)

Module CompatibilityFacts.
Import Enhanced.

(** C4.  For no repository or one, [analyzeProjectCompatibility] returns
    the score 100, no conflict and one suggestion, and
    [getCompatibilityScore] returns 100 without analysing anything;
    neither throws. *)
Theorem few_repositories_compatible
    (JSON_parse : string → option CodeAnalysis.PartialAnalysis)
    (timestamp_text : Z → string)
    (replies : nat → CodeAnalysis.Reply) (order : list nat)
    (repos : list Repository)
    (cache : gmap string CodeAnalysis.CodeAnalysisResult) :
  (length repos < 2)%nat →
  (∃ result,
      analyzeProjectCompatibility repos = Returned result
      ∧ compatibilityScore result = 100%Z
      ∧ conflicts result = []
      ∧ suggestions result = ["Add more repositories to analyze compatibility"]
      ∧ suggestions result ≠ [])
  ∧ CodeAnalysis.getCompatibilityScore JSON_parse timestamp_text replies order
      repos cache
    = (Returned 100%Z, cache).
Proof.
  intros Hlen.
  unfold analyzeProjectCompatibility, CodeAnalysis.getCompatibilityScore.
  apply Nat.ltb_lt in Hlen. rewrite Hlen.
  split; [|done]. eexists. repeat split. done.
Qed.

Lemma few_repositories_compatible_witness :
  (∃ result,
      analyzeProjectCompatibility [Samples.shop] = Returned result
      ∧ compatibilityScore result = 100%Z
      ∧ conflicts result = []
      ∧ suggestions result = ["Add more repositories to analyze compatibility"]
      ∧ suggestions result ≠ [])
  ∧ CodeAnalysis.getCompatibilityScore (λ _, None) JS.str_of_Z
      (λ _, CodeAnalysis.Content None) [0%nat] [Samples.shop] ∅
    = (Returned 100%Z, ∅).
Proof.
  apply (few_repositories_compatible (λ _, None) JS.str_of_Z
           (λ _, CodeAnalysis.Content None) [0%nat] [Samples.shop] ∅).
  cbn. lia.
Defined.

End CompatibilityFacts.

(** ** More on the project combinator *)

Module CombinatorMore.
Import JS JSFacts Combinator Vocabulary.

Lemma set_from_seen_equiv l : ∀ seen seen',
  (∀ x, x ∈ seen ↔ x ∈ seen') → set_from seen l = set_from seen' l.
Proof.
  induction l as [|y l IH]; intros seen seen' Heq; cbn; [done|].
  unfold arr_includes.
  rewrite (bool_decide_ext (y ∈ seen) (y ∈ seen')) by apply Heq.
  case_bool_decide; [now apply IH|].
  f_equal. apply IH. intros x. rewrite !elem_of_cons, Heq. done.
Qed.

Lemma obj_get_table keys c f :
  obj_get (table keys c) f = if bool_decide (f ∈ keys) then Some (c f) else None.
Proof.
  unfold table. induction keys as [|k keys IH]; cbn; [done|].
  destruct (String.eqb_spec k f) as [->|Hne].
  - now rewrite bool_decide_eq_true_2 by apply list_elem_of_here.
  - rewrite IH. apply option_eq. intros v.
    rewrite (bool_decide_ext (f ∈ k :: keys) (f ∈ keys)); [done|].
    rewrite elem_of_cons. naive_solver.
Qed.

Lemma obj_set_table_in keys c f v :
  NoDup keys → f ∈ keys →
  obj_set (table keys c) f v = table keys (put f v c).
Proof.
  unfold table, put. induction keys as [|k keys IH]; intros Hnd Hin; cbn.
  - now apply elem_of_nil in Hin.
  - apply NoDup_cons in Hnd as [Hk Hnd].
    destruct (String.eqb_spec k f) as [->|Hne].
    + f_equal. apply map_ext_in. intros g Hg%list_elem_of_In.
      destruct (String.eqb_spec g f) as [->|]; done.
    + f_equal. apply IH; [done|].
      apply elem_of_cons in Hin as [->|]; done.
Qed.

Lemma obj_set_table_fresh keys c f v :
  f ∉ keys →
  obj_set (table keys c) f v = table (keys ++ [f]) (put f v c).
Proof.
  unfold table, put. induction keys as [|k keys IH]; intros Hin; cbn.
  - now rewrite String.eqb_refl.
  - apply not_elem_of_cons in Hin as [Hne Hin].
    destruct (String.eqb_spec k f) as [->|_]; [done|].
    f_equal. now apply IH.
Qed.

Lemma table_ext keys c c' :
  (∀ g, g ∈ keys → c g = c' g) → table keys c = table keys c'.
Proof.
  intros H. apply map_ext_in. intros g Hg%list_elem_of_In. now rewrite H.
Qed.

(** The counting loop of [findDominantFramework]. *)
Lemma count_loop fws : ∀ keys c,
  NoDup keys → (∀ g, g ∉ keys → c g = 0%N) →
  fold_left bump fws (table keys c)
  = table (keys ++ set_from keys fws)
          (λ g, (c g + N.of_nat (occurrences fws g))%N).
Proof.
  unfold occurrences.
  induction fws as [|f fws IH]; intros keys c Hnd Hc; cbn [fold_left set_from].
  - rewrite app_nil_r. apply table_ext. intros g _. cbn. lia.
  - unfold bump at 2. rewrite obj_get_table. unfold arr_includes.
    case_bool_decide as Hf; cbn [default].
    + rewrite obj_set_table_in by done. rewrite IH; [|done|].
      * apply table_ext. intros g _. unfold put. cbn [count_occ].
        destruct (string_dec f g) as [->|Hne].
        -- rewrite String.eqb_refl. cbn. lia.
        -- destruct (String.eqb_spec g f); [congruence|done].
      * intros g Hg. unfold put.
        destruct (String.eqb_spec g f) as [->|]; [done|now apply Hc].
    + rewrite obj_set_table_fresh by done. rewrite IH.
      * rewrite <- app_assoc. cbn [app].
        rewrite (set_from_seen_equiv fws (keys ++ [f]) (f :: keys)).
        2:{ intros x. rewrite elem_of_app, !elem_of_cons.
            split; [intros [?|[?|H]]; [tauto|tauto|inversion H]|tauto]. }
        apply table_ext. intros g _. unfold put. cbn [count_occ].
        destruct (string_dec f g) as [->|Hne].
        -- rewrite String.eqb_refl, (Hc g) by done. cbn. lia.
        -- destruct (String.eqb_spec g f); [congruence|done].
      * apply NoDup_app. repeat split; [done| |apply NoDup_singleton].
        intros x Hx Hx'%list_elem_of_singleton. congruence.
      * intros g Hg. unfold put.
        rewrite not_elem_of_app, list_elem_of_singleton in Hg.
        destruct (String.eqb_spec g f); [tauto|]. apply Hc. tauto.
Qed.

Lemma counts_table fws :
  fold_left bump fws [] = table (uniq fws) (λ g, N.of_nat (occurrences fws g)).
Proof.
  change (@nil (string * N)) with (table [] (λ _, 0%N)).
  rewrite count_loop; [done|constructor|done].
Qed.

(** The head of a list sorted by falling count is the first entry with
    the greatest count. *)
Lemma head_by_count (l : list (string * N)) :
  l ≠ [] →
  ∃ l1 e l2,
    l = l1 ++ e :: l2
    ∧ head (sort_by (λ x y : string * N, (snd y <=? snd x)%N) l) = Some e
    ∧ Forall (λ x, (snd x < snd e)%N) l1
    ∧ Forall (λ x, (snd x <= snd e)%N) l2.
Proof.
  induction l as [|x l IH]; [done|]. intros _.
  destruct (decide (l = [])) as [->|Hne].
  - exists [], x, []. repeat split; constructor.
  - destruct (IH Hne) as (l1 & e & l2 & Hl & Hhead & H1 & H2).
    change (sort_by ?le (x :: l)) with (sort_insert le x (sort_by le l)).
    destruct (sort_by _ l) as [|e' s]; [done|].
    injection Hhead as ->. cbn [sort_insert].
    destruct (N.leb_spec (snd e) (snd x)) as [Hle|Hlt].
    + exists [], x, l. repeat split; [constructor|].
      rewrite Hl. apply Forall_app. split.
      * eapply Forall_impl; [exact H1|]. cbn. lia.
      * constructor; [done|]. eapply Forall_impl; [exact H2|]. cbn. lia.
    + exists (x :: l1), e, l2. rewrite Hl. repeat split; [|done].
      constructor; done.
Qed.

Lemma detectFramework_known repo : detectFramework repo ∈ framework_names.
Proof.
  unfold detectFramework, framework_names.
  repeat match goal with
         | |- context [if ?b then _ else _] => destruct b
         end;
    apply list_elem_of_In; cbn; tauto.
Qed.

Lemma detectFramework_truthy repo : detectFramework repo ≠ "".
Proof.
  intros H. pose proof (detectFramework_known repo) as Hk. rewrite H in Hk.
  apply list_elem_of_In in Hk. cbn in Hk. intuition discriminate.
Qed.

Lemma occurrences_absent fws f : f ∉ fws → occurrences fws f = 0%nat.
Proof.
  intros H. apply count_occ_not_In. now rewrite <- list_elem_of_In.
Qed.

(** The dominant framework of a non-empty list of non-empty names is the
    most frequent name, and among the most frequent ones the first seen. *)
Lemma dominant_is_most_frequent (fws : list string) :
  fws ≠ [] → "" ∉ fws →
  let d := findDominantFramework fws in
  d ∈ fws
  ∧ (∀ f, occurrences fws f ≤ occurrences fws d)%nat
  ∧ ∃ k1 k2, uniq fws = k1 ++ d :: k2
             ∧ ∀ f, f ∈ k1 → (occurrences fws f < occurrences fws d)%nat.
Proof.
  intros Hne Hempty d. unfold d, findDominantFramework.
  rewrite counts_table.
  set (n := λ g, N.of_nat (occurrences fws g)).
  assert (Hu : uniq fws ≠ []).
  { destruct fws as [|f fws]; [done|]. intros Hnil.
    assert (Hf : f ∈ uniq (f :: fws)) by (apply uniq_elem, list_elem_of_here).
    rewrite Hnil in Hf. now apply elem_of_nil in Hf. }
  destruct (head_by_count (table (uniq fws) n)) as (l1 & e & l2 & Hl & -> & H1 & H2).
  { unfold table. destruct (uniq fws); done. }
  unfold table in Hl.
  apply map_eq_app in Hl as (k1 & k2' & Hk & <- & Hl2).
  apply map_eq_cons in Hl2 as (g & k2 & -> & <- & <-).
  cbn [fmap option_fmap option_map fst].
  assert (Hg : g ∈ fws).
  { apply uniq_elem. rewrite Hk, elem_of_app, elem_of_cons. tauto. }
  assert (Hd : or_else (Some g) "react" = g).
  { unfold or_else, truthy. destruct (String.eqb_spec g ""); [congruence|done]. }
  rewrite Hd. rewrite Forall_forall in H1, H2.
  split; [done|]. split.
  - intros f. destruct (decide (f ∈ fws)) as [Hf|Hf].
    + apply uniq_elem in Hf. rewrite Hk, elem_of_app, elem_of_cons in Hf.
      destruct Hf as [Hf|[->|Hf]]; [|done|].
      * specialize (H1 (f, n f)). cbn in H1. unfold n in H1.
        assert ((f, N.of_nat (occurrences fws f)) ∈ map (λ g, (g, n g)) k1)
          by (apply list_elem_of_In, in_map_iff; exists f;
              split; [done|now apply list_elem_of_In]).
        specialize (H1 H). lia.
      * specialize (H2 (f, n f)). cbn in H2. unfold n in H2.
        assert ((f, N.of_nat (occurrences fws f)) ∈ map (λ g, (g, n g)) k2)
          by (apply list_elem_of_In, in_map_iff; exists f;
              split; [done|now apply list_elem_of_In]).
        specialize (H2 H). lia.
    + rewrite (occurrences_absent fws f) by done. lia.
  - exists k1, k2. split; [done|]. intros f Hf.
    specialize (H1 (f, n f)). cbn in H1. unfold n in H1.
    assert ((f, N.of_nat (occurrences fws f)) ∈ map (λ g, (g, n g)) k1)
      by (apply list_elem_of_In, in_map_iff; exists f;
          split; [done|now apply list_elem_of_In]).
    specialize (H1 H). lia.
Qed.

(** Without a target framework, the merge strategy of a non-empty request
    takes the framework detected for most of its repositories, the first
    seen among equals. *)
Theorem strategy_follows_majority (request : CombinationRequest) :
  targetFramework request = None → repositories request ≠ [] →
  let fws := map detectFramework (repositories request) in
  let d := strategy_targetFramework (mergeStrategyOf request) in
  (∃ r, r ∈ repositories request ∧ detectFramework r = d)
  ∧ (∀ f, occurrences fws f ≤ occurrences fws d)%nat
  ∧ ∃ k1 k2, uniq fws = k1 ++ d :: k2
             ∧ ∀ f, f ∈ k1 → (occurrences fws f < occurrences fws d)%nat.
Proof.
  intros Htarget Hne fws d.
  assert (Hd : d = findDominantFramework fws).
  { unfold d, mergeStrategyOf, determineMergeStrategy; cbn.
    rewrite Htarget; cbn. unfold fws. now rewrite map_map. }
  rewrite Hd.
  destruct (dominant_is_most_frequent fws) as (H1 & H2 & H3).
  - unfold fws. destruct (repositories request); done.
  - unfold fws. intros H. apply list_elem_of_In, in_map_iff in H as (r & Hr & _).
    now apply (detectFramework_truthy r).
  - split; [|done]. apply list_elem_of_In, in_map_iff in H1 as (r & Hr & Hin).
    exists r. split; [now apply list_elem_of_In|done].
Qed.

Lemma strategy_follows_majority_witness :
  strategy_targetFramework (mergeStrategyOf Samples.shop_and_blog) = "nextjs"
  ∧ ∃ r, r ∈ repositories Samples.shop_and_blog
         ∧ detectFramework r
           = strategy_targetFramework (mergeStrategyOf Samples.shop_and_blog).
Proof.
  split; [reflexivity|].
  destruct (strategy_follows_majority Samples.shop_and_blog) as (H & _).
  - reflexivity.
  - discriminate.
  - exact H.
Defined.

Lemma framework_deps_known fw x : x ∈ framework_deps fw → x ∈ dependency_names.
Proof.
  unfold framework_deps, dependency_names.
  repeat match goal with
         | |- context [if ?b then _ else _] => destruct b
         end;
    intros H%list_elem_of_In; apply list_elem_of_In; cbn in *; tauto.
Qed.

Lemma topic_deps_known t x : x ∈ topic_deps t → x ∈ dependency_names.
Proof.
  unfold topic_deps, dependency_names.
  repeat match goal with
         | |- context [if ?b then _ else _] => destruct b
         end;
    intros H%list_elem_of_In; apply list_elem_of_In; cbn in *; tauto.
Qed.

Lemma extractDependencies_known r x :
  x ∈ extractDependencies r → x ∈ dependency_names.
Proof.
  unfold extractDependencies. rewrite uniq_elem, elem_of_app.
  intros [H|H]; [now apply (framework_deps_known (detectFramework r))|].
  apply list_elem_of_In, in_flat_map in H as (t & _ & H).
  now apply (topic_deps_known t), list_elem_of_In.
Qed.

(** The dependency list of a combination is the union of the lists
    inferred for its repositories: every name comes from one of them, each
    occurs once, and all belong to the eleven names the combinator knows. *)
Theorem dependencies_are_the_union (now : Z) (request : CombinationRequest)
    (st : State) (x : string) :
  NoDup (dependencies (combineProjects now request st).1)
  ∧ (x ∈ dependencies (combineProjects now request st).1
     ↔ ∃ r, r ∈ repositories request ∧ x ∈ extractDependencies r)
  ∧ (x ∈ dependencies (combineProjects now request st).1 → x ∈ dependency_names).
Proof.
  assert (Hiff : x ∈ dependencies (combineProjects now request st).1
                 ↔ ∃ r, r ∈ repositories request ∧ x ∈ extractDependencies r).
  { cbn. unfold resolveDependencies. rewrite uniq_elem.
    rewrite list_elem_of_In, in_flat_map. split.
    - intros (a & Ha & Hx). apply in_map_iff in Ha as (r & <- & Hr).
      exists r. split; now apply list_elem_of_In.
    - intros (r & Hr & Hx). exists (analyzeRepository r). split.
      + apply in_map. now apply list_elem_of_In.
      + now apply list_elem_of_In. }
  split; [apply uniq_NoDup|]. split; [exact Hiff|].
  intros (r & _ & Hx)%Hiff. now apply (extractDependencies_known r).
Qed.

(** A combination is stored under its id: it can be read back, it is
    listed, and the other stored combinations stay as they were. *)
Theorem combination_is_stored (now : Z) (request : CombinationRequest) (st : State)
    (other : string) :
  let result := (combineProjects now request st).1 in
  let st' := (combineProjects now request st).2 in
  getCombination st' (res_id result) = Some result
  ∧ result ∈ getAllCombinations st'
  ∧ (other ≠ res_id result → getCombination st' other = getCombination st other).
Proof.
  intros result st'. unfold getCombination, getAllCombinations.
  assert (H : st' !! res_id result = Some result) by apply lookup_insert_eq.
  split; [exact H|]. split.
  - apply list_elem_of_fmap. exists (res_id result, result).
    split; [done|]. now apply elem_of_map_to_list.
  - intros Hne. unfold st', combineProjects. cbn [snd].
    apply lookup_insert_ne. intros E. apply Hne. now rewrite <- E.
Qed.

(** The scripts always have the same five keys.  Scripts and output
    directory are chosen by the target framework of the request alone:
    when it is left out they are the npm scripts and [build], whatever
    frameworks are detected. *)
Theorem scripts_follow_the_request (now : Z) (request : CombinationRequest)
    (st : State) :
  targetFramework request = None →
  map fst (scripts (combineProjects now request st).1)
  = ["dev"; "build"; "start"; "lint"; "type-check"]
  ∧ scripts (combineProjects now request st).1 = baseScripts
  ∧ outputDirectory (deploymentConfig (combineProjects now request st).1) = "build"
  ∧ ∀ fw s, map fst (generateScripts fw s)
            = ["dev"; "build"; "start"; "lint"; "type-check"].
Proof.
  intros H. cbn. rewrite H. repeat split.
  intros [fw|] s; cbn; [|done].
  destruct (String.eqb fw "nextjs"); [done|].
  destruct (String.eqb fw "remix"); done.
Qed.

Lemma scripts_follow_the_request_witness :
  strategy_targetFramework (mergeStrategyOf Samples.shop_and_blog) = "nextjs"
  ∧ scripts (combineProjects 1700000000000 Samples.shop_and_blog ∅).1 = baseScripts
  ∧ outputDirectory
      (deploymentConfig (combineProjects 1700000000000 Samples.shop_and_blog ∅).1)
    = "build".
Proof.
  split; [reflexivity|].
  destruct (scripts_follow_the_request 1700000000000 Samples.shop_and_blog ∅ eq_refl)
    as (_ & H1 & H2 & _).
  exact (conj H1 H2).
Defined.

(** The structure of a combination is the layout of its first repository,
    one of the three layouts the combinator knows; the other repositories
    play no part in it. *)
Theorem structure_of_first_repository (now : Z) (request : CombinationRequest)
    (st : State) (r : Repository) (rs : list Repository) :
  repositories request = r :: rs →
  structure (combineProjects now request st).1 = analyzeStructure r
  ∧ analyzeStructure r ∈ map snd structures.
Proof.
  intros H. split; [cbn; now rewrite H|].
  unfold analyzeStructure, structures_react, structures.
  pose proof (detectFramework_known r) as Hk.
  apply list_elem_of_In in Hk. cbn in Hk.
  apply list_elem_of_In; cbn.
  destruct Hk as [<-|[<-|[<-|[<-|[<-|[<-|[<-|[<-|[<-|[]]]]]]]]]]; cbn; tauto.
Qed.

Lemma structure_of_first_repository_witness :
  structure (combineProjects 1700000000000 Samples.shop_and_blog ∅).1
  = analyzeStructure Samples.shop
  ∧ analyzeStructure Samples.shop ∈ map snd structures.
Proof.
  apply (structure_of_first_repository 1700000000000 Samples.shop_and_blog ∅
           Samples.shop [Samples.blog]).
  reflexivity.
Defined.

(** Two requests made at the same instant for the same repositories, in
    any order, get the same id: the second combination takes the place of
    the first in the store. *)
Theorem same_instant_same_id (now : Z) (request1 request2 : CombinationRequest)
    (st : State) :
  Permutation (repositories request1) (repositories request2) →
  let r1 := (combineProjects now request1 st).1 in
  let st1 := (combineProjects now request1 st).2 in
  let r2 := (combineProjects now request2 st1).1 in
  let st2 := (combineProjects now request2 st1).2 in
  res_id r1 = res_id r2
  ∧ getCombination st2 (res_id r1) = Some r2
  ∧ (∀ cid, cid ≠ res_id r1 → getCombination st2 cid = getCombination st cid).
Proof.
  intros Hperm r1 st1 r2 st2.
  assert (Hid : res_id r1 = res_id r2).
  { cbn. unfold generateCombinationId, repoIds.
    now rewrite (default_sort_permutation _ _ (Permutation_map id Hperm)). }
  split; [exact Hid|]. unfold getCombination. split.
  - rewrite Hid. apply lookup_insert_eq.
  - intros cid Hne. transitivity (st1 !! cid).
    + apply lookup_insert_ne. intros E. apply Hne. rewrite Hid, <- E. reflexivity.
    + apply lookup_insert_ne. intros E. apply Hne. now rewrite <- E.
Qed.

Lemma same_instant_same_id_witness :
  let r1 := (combineProjects 1700000000000 Samples.shop_and_blog ∅).1 in
  let st1 := (combineProjects 1700000000000 Samples.shop_and_blog ∅).2 in
  let r2 := (combineProjects 1700000000000 Samples.blog_and_shop st1).1 in
  let st2 := (combineProjects 1700000000000 Samples.blog_and_shop st1).2 in
  res_id r1 = res_id r2 ∧ getCombination st2 (res_id r1) = Some r2.
Proof.
  intros r1 st1 r2 st2.
  destruct (same_instant_same_id 1700000000000 Samples.shop_and_blog
              Samples.blog_and_shop ∅ (perm_swap _ _ _)) as (H1 & H2 & _).
  exact (conj H1 H2).
Defined.

(** Components and features are read off two fixed tables: what is found
    comes in the order of the table, each entry at most once. *)
Theorem components_and_features_from_tables (r : Repository) :
  extractComponents r `sublist_of` component_patterns
  ∧ NoDup (extractComponents r)
  ∧ identifyFeatures r `sublist_of` map fst featurePatterns
  ∧ NoDup (identifyFeatures r).
Proof.
  assert (H1 : extractComponents r `sublist_of` component_patterns)
    by apply sublist_filter.
  assert (H2 : identifyFeatures r `sublist_of` map fst featurePatterns).
  { unfold identifyFeatures. apply (fmap_sublist fst). apply sublist_filter. }
  repeat split; [done| |done|].
  - eapply sublist_NoDup; [|exact H1].
    apply NoDup_ListNoDup, (NoDup_count_occ' string_dec). intros x Hx.
    cbn in Hx.
    repeat (destruct Hx as [<-|Hx]; [reflexivity|]). destruct Hx.
  - eapply sublist_NoDup; [|exact H2].
    apply NoDup_ListNoDup, (NoDup_count_occ' string_dec). intros x Hx.
    cbn in Hx.
    repeat (destruct Hx as [<-|Hx]; [reflexivity|]). destruct Hx.
Qed.

End CombinatorMore.

(** ** More on the search engine *)

Module SearchMore.
Import JS SearchEngine ScoreFacts.

Local Open Scope R_scope.








Local Close Scope R_scope.


(** *** Text of the query *)

Lemma prefix_nil s : String.prefix "" s = true.
Proof. now destruct s. Qed.

Lemma prefix_app p : ∀ a b, String.prefix p a = true → String.prefix p (a +:+ b) = true.
Proof.
  induction p as [|c p IH]; intros a b; [intros _; apply prefix_nil|].
  destruct a as [|c' a]; simpl; [discriminate|].
  destruct (ascii_dec c c'); [apply IH|discriminate].
Qed.

Lemma prefix_self p : ∀ b, String.prefix p (p +:+ b) = true.
Proof.
  induction p as [|c p IH]; intros b; simpl; [apply prefix_nil|].
  destruct (ascii_dec c c); [apply IH|done].
Qed.

Lemma includes_nil s : includes s "" = true.
Proof. now destruct s. Qed.

Lemma includes_app_l a b p : includes a p = true → includes (a +:+ b) p = true.
Proof.
  induction a as [|c a IH]; simpl.
  - destruct p; [intros _; apply includes_nil|discriminate].
  - intros [H|H]%orb_prop; apply orb_true_iff.
    + left. now apply (prefix_app p (String c a) b).
    + right. now apply IH.
Qed.

Lemma includes_app_r a b p : includes b p = true → includes (a +:+ b) p = true.
Proof.
  intros H. induction a as [|c a IH]; cbn; [done|].
  apply orb_true_iff. now right.
Qed.

Lemma prefix_refl p : String.prefix p p = true.
Proof.
  induction p as [|c p IH]; simpl; [done|].
  destruct (ascii_dec c c); done.
Qed.

Lemma includes_self p : includes p p = true.
Proof.
  destruct p as [|c p]; [done|]. unfold includes; fold includes.
  now rewrite prefix_refl.
Qed.

Lemma includes_join sep l p : p ∈ l → includes (join sep l) p = true.
Proof.
  unfold join. induction l as [|x l IH]; intros Hin; [now apply elem_of_nil in Hin|].
  apply elem_of_cons in Hin as [->|Hin].
  - destruct l as [|y l]; cbn [String.concat]; [apply includes_self|].
    apply includes_app_l, includes_self.
  - destruct l as [|y l]; [now apply elem_of_nil in Hin|].
    cbn [String.concat]. apply includes_app_r, includes_app_r. now apply IH.
Qed.

(** Every query carries an exclusion term for each name on the list. *)
Theorem query_excludes_every_listed_user (e : Engine) (query : string)
    (filters : SearchFilters) (user : string) :
  user ∈ deref e (exclusionList e) →
  includes (buildSmartQuery e query filters) ("-user:" +:+ user) = true.
Proof.
  intros Hin. unfold buildSmartQuery. apply includes_join.
  apply list_elem_of_filter. split; [done|].
  apply elem_of_cons. right. apply elem_of_app. left.
  apply list_elem_of_fmap. now exists user.
Qed.

Lemma query_excludes_every_listed_user_witness :
  includes (buildSmartQuery (addToExclusionList "spammer" initial) "cli"
                            Samples.no_filters)
           "-user:spammer" = true.
Proof.
  apply (query_excludes_every_listed_user (addToExclusionList "spammer" initial)
           "cli" Samples.no_filters "spammer").
  apply list_elem_of_In. vm_compute. tauto.
Defined.

(** *** The list as a set *)

Lemma current_step_elem w op u :
  wf w →
  u ∈ current (step w op) ↔ u ∈ ExclusionSet.apply_op (list_to_set (current w)) op.
Proof.
  intros Hwf. destruct op as [v|v| |k v]; cbn [ExclusionSet.apply_op].
  - rewrite ExclusionFacts.current_add by done. unfold arr_includes.
    rewrite elem_of_union, elem_of_singleton, elem_of_list_to_set.
    case_bool_decide as Hv.
    + split; [tauto|]. intros [->|H]; done.
    + rewrite elem_of_app, list_elem_of_singleton. tauto.
  - rewrite ExclusionFacts.current_remove.
    rewrite list_elem_of_filter, elem_of_difference, elem_of_singleton,
      elem_of_list_to_set. tauto.
  - now rewrite ExclusionFacts.current_get, elem_of_list_to_set.
  - now rewrite ExclusionFacts.current_mutate, elem_of_list_to_set.
Qed.

Lemma run_as_set ops : ∀ w,
  wf w →
  list_to_set (current (run w ops))
  =@{gset string} fold_left ExclusionSet.apply_op ops (list_to_set (current w)).
Proof.
  induction ops as [|op ops IH]; intros w Hwf; [done|].
  rewrite ExclusionFacts.run_cons. cbn [fold_left].
  rewrite IH by now apply ExclusionFacts.wf_step.
  f_equal. apply set_eq. intros u.
  rewrite elem_of_list_to_set. now apply current_step_elem.
Qed.

(** The exclusion list holds exactly the names a set would hold: it
    starts with [Gzeu], a name is on it after it was added and until it is
    removed, and neither reading the list nor writing to the arrays read
    changes that. *)
Theorem exclusion_list_is_a_set (ops : list Op) (user : string) :
  user ∈ current (run boot ops) ↔ user ∈ ExclusionSet.excluded ops.
Proof.
  rewrite <- (elem_of_list_to_set (C := gset string)).
  rewrite run_as_set by apply ExclusionFacts.boot_wf.
  unfold ExclusionSet.excluded.
  replace (list_to_set (current boot)) with ({[ "Gzeu" ]} : gset string); [done|].
  apply set_eq. intros u. rewrite elem_of_list_to_set, elem_of_singleton.
  change (current boot) with ["Gzeu"]. now rewrite list_elem_of_singleton.
Qed.

End SearchMore.

(** ** More on the enhanced search *)

Module EnhancedMore.
Import JS Enhanced ScoreFacts Aux.

Local Open Scope R_scope.


Local Close Scope R_scope.



(** *** The quality filter *)

(** Without a quality bucket nothing is filtered.  With one, what is kept
    is a sublist of the input whose scores reach the threshold, and
    filtering by a looser bucket first changes nothing. *)
Theorem quality_filter_keeps_the_good
    (repos : list EnhancedRepository) (filters loose : EnhancedSearchFilters)
    (c c' : Quality) :
  codeQuality filters = Some c → codeQuality loose = Some c' →
  (qualityThresholds c' <= qualityThresholds c)%Z →
  applyAdvancedFilters repos filters `sublist_of` repos
  ∧ Forall (λ r, (qualityThresholds c <= score_or (qualityScore (repo r)) 0)%Z)
           (applyAdvancedFilters repos filters)
  ∧ (∀ r, r ∈ repos →
          (qualityThresholds c <= score_or (qualityScore (repo r)) 0)%Z →
          r ∈ applyAdvancedFilters repos filters)
  ∧ applyAdvancedFilters (applyAdvancedFilters repos loose) filters
    = applyAdvancedFilters repos filters
  ∧ (∀ plain, codeQuality plain = None → applyAdvancedFilters repos plain = repos).
Proof.
  intros Hc Hc' Hle.
  assert (Hkeep : ∀ r, keeps filters r = true
                       ↔ (qualityThresholds c <= score_or (qualityScore (repo r)) 0)%Z).
  { intros r. unfold keeps. rewrite Hc.
    destruct (Z.ltb_spec (score_or (qualityScore (repo r)) 0) (qualityThresholds c));
      split; (done || lia). }
  assert (Hloose : ∀ r, keeps filters r = true → keeps loose r = true).
  { intros r Hr%Hkeep. unfold keeps. rewrite Hc'.
    destruct (Z.ltb_spec (score_or (qualityScore (repo r)) 0) (qualityThresholds c'));
      [lia|done]. }
  unfold applyAdvancedFilters. split; [apply sublist_filter|]. split; [|split; [|split]].
  - apply Forall_forall. intros r [Hr _]%list_elem_of_filter.
    apply Hkeep. now apply Is_true_true.
  - intros r Hr Hs. apply list_elem_of_filter. split; [|done].
    apply Is_true_true. now apply Hkeep.
  - induction repos as [|r repos IH]; [done|].
    destruct (keeps filters r) eqn:Hf.
    + rewrite (filter_cons_True (λ r, Is_true (keeps loose r)))
        by (rewrite (Hloose r Hf); exact I).
      rewrite !(filter_cons_True (λ r, Is_true (keeps filters r)))
        by (rewrite Hf; exact I).
      now rewrite IH.
    + rewrite (filter_cons_False (λ r, Is_true (keeps filters r)))
        by (rewrite Hf; exact (λ x, x)).
      destruct (keeps loose r) eqn:Hl.
      * rewrite (filter_cons_True (λ r, Is_true (keeps loose r)))
          by (rewrite Hl; exact I).
        rewrite (filter_cons_False (λ r, Is_true (keeps filters r)))
          by (rewrite Hf; exact (λ x, x)).
        exact IH.
      * rewrite (filter_cons_False (λ r, Is_true (keeps loose r)))
          by (rewrite Hl; exact (λ x, x)).
        exact IH.
  - intros plain Hp. induction repos as [|r repos IH]; [done|].
    rewrite filter_cons_True; [now rewrite IH|].
    unfold keeps. rewrite Hp. exact I.
Qed.

Lemma quality_filter_keeps_the_good_witness :
  applyAdvancedFilters (enhancedEnrichment Samples.full_page 1700000000000 [Samples.bare])
                       Samples.only_excellent
  `sublist_of` enhancedEnrichment Samples.full_page 1700000000000 [Samples.bare].
Proof.
  destruct (quality_filter_keeps_the_good
              (enhancedEnrichment Samples.full_page 1700000000000 [Samples.bare])
              Samples.only_excellent Samples.only_excellent excellent excellent
              eq_refl eq_refl) as [H _].
  - cbn. lia.
  - exact H.
Defined.

(** *** Searching twice *)

(** What a search puts in the cache is served to the same search for the
    next 15 minutes, with no request issued; a failed search leaves the
    cache as it was. *)
Theorem fresh_result_is_served_again
    (stringify : EnhancedSearchFilters → string) (api : Api)
    (query : string) (filters : EnhancedSearchFilters) (page : Z)
    (w : World) (d : Z) :
  fresh_entry w (cacheKey stringify query filters page) = None →
  (d < cacheTimeout)%Z →
  match enhancedSearch stringify api query filters page w with
  | (Returned result, w1) =>
      enhancedSearch stringify api query filters page (later d w1)
      = (Returned result, later d w1)
  | (Thrown _, w1) => cache w1 = cache w
  end.
Proof.
  intros Hmiss Hd. unfold enhancedSearch at 1. rewrite Hmiss.
  destruct (RateLimiter.waitIfNeeded (clock w) (rateLimitManager w)) as [t rate].
  destruct (search_repos api _) as [response|]; [|done].
  unfold enhancedSearch, fresh_entry, later; cbn [cache clock].
  rewrite lookup_insert_eq; cbn [timestamp data].
  destruct (Z.ltb_spec (t + elapsed api + d - (t + elapsed api)) cacheTimeout);
    [done|lia].
Qed.

Lemma fresh_result_is_served_again_witness :
  match enhancedSearch (λ _, "{}") Samples.full_page "cli" Samples.only_active 1
                       Samples.at_start with
  | (Returned result, w1) =>
      enhancedSearch (λ _, "{}") Samples.full_page "cli" Samples.only_active 1
                     (later 60000 w1)
      = (Returned result, later 60000 w1)
  | (Thrown _, w1) => cache w1 = cache Samples.at_start
  end.
Proof.
  apply (fresh_result_is_served_again (λ _, "{}") Samples.full_page "cli"
           Samples.only_active 1 Samples.at_start 60000).
  - reflexivity.
  - reflexivity.
Defined.



(** *** The enhanced query *)

Lemma append_assoc (a b c : string) : (a +:+ b) +:+ c = a +:+ b +:+ c.
Proof.
  induction a as [|x a IH]; [reflexivity|].
  change (String x ((a +:+ b) +:+ c) = String x (a +:+ b +:+ c)). now f_equal.
Qed.

Lemma join_app sep l1 l2 :
  l1 ≠ [] → l2 ≠ [] → join sep (l1 ++ l2) = join sep l1 +:+ sep +:+ join sep l2.
Proof.
  unfold join. intros H1 H2. induction l1 as [|x l1 IH]; [done|].
  destruct l1 as [|y l1].
  - destruct l2 as [|z l2]; [done|]. reflexivity.
  - change (String.concat sep ((x :: y :: l1) ++ l2))
      with (x +:+ sep +:+ String.concat sep ((y :: l1) ++ l2)).
    rewrite IH by done.
    change (String.concat sep (x :: y :: l1))
      with (x +:+ sep +:+ String.concat sep (y :: l1)).
    now rewrite !append_assoc.
Qed.

Lemma join_cons sep x l : l ≠ [] → join sep (x :: l) = x +:+ sep +:+ join sep l.
Proof. now destruct l. Qed.

(** The enhanced query reads the license, size and activity filters and
    nothing else of the filters: language, stars, topics and the rest
    leave no trace.  It begins with the text of the query and ends with
    the four fixed terms. *)
Theorem enhanced_query_shape (now : Z) (query : string)
    (filters filters' : EnhancedSearchFilters) :
  license filters = license filters' → size filters = size filters' →
  activity filters = activity filters' →
  buildEnhancedQuery now query filters = buildEnhancedQuery now query filters'
  ∧ (∃ rest, buildEnhancedQuery now query filters = query +:+ " " +:+ rest)
  ∧ ∃ front, buildEnhancedQuery now query filters
             = front +:+ " -user:Gzeu -user:octocat NOT tutorial NOT example".
Proof.
  intros Hl Hs Ha. split; [|split].
  - unfold buildEnhancedQuery. now rewrite Hl, Hs, Ha.
  - unfold buildEnhancedQuery.
    match goal with
    | |- context [ [query] ++ ?a ++ ?b ++ ?c ++ ?f ] =>
        change ([query] ++ a ++ b ++ c ++ f) with (query :: (a ++ b ++ c ++ f));
        set (A := a); set (B := b); set (C := c)
    end.
    rewrite join_cons; [eexists; reflexivity|].
    destruct A, B, C; discriminate.
  - unfold buildEnhancedQuery.
    match goal with
    | |- context [ [query] ++ ?a ++ ?b ++ ?c ++ ?f ] =>
        replace ([query] ++ a ++ b ++ c ++ f) with ((query :: a ++ b ++ c) ++ f)
          by (cbn; now rewrite <- !app_assoc)
    end.
    rewrite join_app by done. eexists. reflexivity.
Qed.

Lemma enhanced_query_shape_witness :
  buildEnhancedQuery 1700000000000 "cli" Samples.only_excellent
  = buildEnhancedQuery 1700000000000 "cli"
      (Recommend.recommendation_filters (Recommend.mkPreferences [] [] (Some 500%Z)))
  ∧ (∃ rest, buildEnhancedQuery 1700000000000 "cli" Samples.only_excellent
             = "cli" +:+ " " +:+ rest)
  ∧ ∃ front, buildEnhancedQuery 1700000000000 "cli" Samples.only_excellent
             = front +:+ " -user:Gzeu -user:octocat NOT tutorial NOT example".
Proof.
  apply (enhanced_query_shape 1700000000000 "cli" Samples.only_excellent
           (Recommend.recommendation_filters
              (Recommend.mkPreferences [] [] (Some 500%Z))));
    reflexivity.
Defined.

End EnhancedMore.

(** ** Recommendations *)

Module RecommendFacts.
Import JS JSFacts Enhanced Recommend Aux.

Lemma dedup_from_elem repos : ∀ seen r,
  r ∈ dedup_from seen repos → r ∈ repos ∧ enhanced_id r ∉ seen.
Proof.
  unfold enhanced_id.
  induction repos as [|x repos IH]; intros seen r; cbn.
  - intros H. now apply elem_of_nil in H.
  - case_bool_decide as Hx.
    + intros [H1 H2]%IH. split; [now apply list_elem_of_further|done].
    + intros [->|[H1 H2]%IH]%elem_of_cons.
      * split; [apply list_elem_of_here|done].
      * split; [now apply list_elem_of_further|].
        rewrite elem_of_union in H2. tauto.
Qed.

Lemma dedup_from_NoDup repos : ∀ seen,
  NoDup (map enhanced_id (dedup_from seen repos)).
Proof.
  induction repos as [|x repos IH]; intros seen; cbn; [constructor|].
  case_bool_decide as Hx; [apply IH|]. cbn. constructor; [|apply IH].
  intros Hin. apply list_elem_of_In, in_map_iff in Hin as (r & Hid & Hr).
  apply list_elem_of_In, dedup_from_elem in Hr as [_ Hr].
  rewrite Hid in Hr. apply Hr, elem_of_union. left. now apply elem_of_singleton.
Qed.

Lemma dedup_from_sublist repos : ∀ seen, dedup_from seen repos `sublist_of` repos.
Proof.
  induction repos as [|x repos IH]; intros seen; cbn; [done|].
  case_bool_decide; [apply sublist_cons | apply sublist_skip]; apply IH.
Qed.

Lemma dedup_from_covers repos : ∀ seen r,
  r ∈ repos → enhanced_id r ∉ seen →
  ∃ r', r' ∈ dedup_from seen repos ∧ enhanced_id r' = enhanced_id r.
Proof.
  unfold enhanced_id.
  induction repos as [|x repos IH]; intros seen r Hr Hs; cbn.
  - now apply elem_of_nil in Hr.
  - apply elem_of_cons in Hr as [->|Hr].
    + rewrite bool_decide_eq_false_2 by done. exists x.
      split; [apply list_elem_of_here|done].
    + case_bool_decide as Hx; [now apply IH|].
      destruct (decide (id (repo r) = id (repo x))) as [E|Hne].
      * exists x. split; [apply list_elem_of_here|done].
      * destruct (IH ({[id (repo x)]} ∪ seen) r Hr) as (r' & H1 & H2).
        { rewrite elem_of_union, elem_of_singleton. tauto. }
        exists r'. split; [now apply list_elem_of_further|done].
Qed.

Lemma dedup_from_again repos : ∀ seen,
  dedup_from seen (dedup_from seen repos) = dedup_from seen repos.
Proof.
  induction repos as [|x repos IH]; intros seen; cbn; [done|].
  case_bool_decide as Hx; [apply IH|]. cbn.
  rewrite bool_decide_eq_false_2 by done. f_equal. apply IH.
Qed.

(** Deduplication keeps, for every id, the first record that carries it:
    the result is a sublist of the input with pairwise different ids, no
    id is lost, and a second pass changes nothing. *)
Theorem deduplicate_by_id (repos : list EnhancedRepository) :
  deduplicateRepositories repos `sublist_of` repos
  ∧ NoDup (map enhanced_id (deduplicateRepositories repos))
  ∧ (∀ r, r ∈ repos →
          ∃ r', r' ∈ deduplicateRepositories repos ∧ enhanced_id r' = enhanced_id r)
  ∧ deduplicateRepositories (deduplicateRepositories repos)
    = deduplicateRepositories repos
  ∧ head (deduplicateRepositories repos) = head repos.
Proof.
  unfold deduplicateRepositories. split; [apply dedup_from_sublist|].
  split; [apply dedup_from_NoDup|]. split; [|split].
  - intros r Hr. apply dedup_from_covers; [done|]. apply not_elem_of_empty.
  - apply dedup_from_again.
  - destruct repos as [|x repos]; [done|]. cbn.
    now rewrite bool_decide_eq_false_2 by apply not_elem_of_empty.
Qed.

(** *** The recommendations *)

Lemma by_score_total a b : by_score a b = true ∨ by_score b a = true.
Proof.
  unfold by_score.
  destruct (Z.leb_spec (score_or (Some (recommendationScore b)) 0)
                       (score_or (Some (recommendationScore a)) 0));
    [now left|right].
  apply Z.leb_le. lia.
Qed.

Lemma Sorted_take {A} (R : A → A → Prop) (l : list A) (n : nat) :
  Sorted R l → Sorted R (take n l).
Proof.
  intros Hs. revert n. induction Hs as [|x l Hs IH Hhd]; intros [|n]; cbn;
    try constructor.
  - apply IH.
  - destruct Hhd as [|y l' Hxy]; [destruct n; constructor|].
    destruct n; cbn; constructor. exact Hxy.
Qed.

Lemma Sorted_weaken {A} (R R' : A → A → Prop) (l : list A) :
  (∀ a b, R a b → R' a b) → Sorted R l → Sorted R' l.
Proof.
  intros H. induction 1 as [|x l Hs IH Hhd]; constructor; [done|].
  destruct Hhd; constructor. now apply H.
Qed.

(** When the search succeeds, at most 20 repositories are recommended,
    no id twice, in falling order of score, each score being the quality
    score of the record, or 50 where that is missing or 0.  When the search
    throws, so does the recommendation. *)
Theorem recommendations_shape
    (stringify : EnhancedSearchFilters → string) (api : Api)
    (userHistory : list Repository) (preferences : Preferences) (w : World) :
  match (getSmartRecommendations stringify api userHistory preferences w).1 with
  | Returned recs =>
      (length recs <= 20)%nat
      ∧ NoDup (map rec_id recs)
      ∧ Sorted (λ a b, (recommendationScore b <= recommendationScore a)%Z) recs
      ∧ Forall (λ x, recommendationScore x
                     = score_or (qualityScore (repo (rec_repo x))) 50) recs
  | Thrown message =>
      ∃ query, (enhancedSearch stringify api query
                  (recommendation_filters preferences) 1 w).1 = Thrown message
  end.
Proof.
  unfold getSmartRecommendations, buildRecommendationQueries.
  set (query := "language:" +:+ _). cbn [search_all].
  destruct (enhancedSearch stringify api query _ 1 w) as [[r|m] w1] eqn:E.
  2:{ cbn. exists query. now rewrite E. }
  cbn [fst flat_map]. rewrite app_nil_r.
  set (scored := map _ (deduplicateRepositories (sr_repositories r))).
  assert (Hperm : Permutation scored (sort_by by_score scored))
    by apply sort_by_perm.
  assert (Hids : NoDup (map rec_id scored)).
  { unfold scored. rewrite map_map. cbn.
    apply dedup_from_NoDup. }
  assert (Hsub : take 20 (sort_by by_score scored) `sublist_of` sort_by by_score scored)
    by apply sublist_take.
  split; [|split; [|split]].
  - rewrite length_take. lia.
  - eapply sublist_NoDup; [|apply (fmap_sublist rec_id), Hsub].
    change (NoDup (rec_id <$> sort_by by_score scored)).
    rewrite <- Hperm. exact Hids.
  - apply Sorted_take.
    eapply Sorted_weaken; [|apply (sort_by_sorted by_score), by_score_total].
    intros a b. unfold by_score, score_or. cbn.
    destruct (Z.eqb_spec (recommendationScore a) 0),
             (Z.eqb_spec (recommendationScore b) 0); lia.
  - apply Forall_forall. intros x Hx.
    apply (elem_of_sublist _ _ _ Hx) in Hsub.
    rewrite <- Hperm in Hsub. unfold scored in Hsub.
    apply list_elem_of_fmap in Hsub as (y & -> & _). reflexivity.
Qed.

End RecommendFacts.

(** ** More on the rate limiter *)

Module RateLimiterMore.
Import RateLimiter RateLimiterFacts.

Local Open Scope Z_scope.

Lemma waitIfNeeded_spec (clock : Z) (s : State) :
  let t := (waitIfNeeded clock s).1 in
  let s' := (waitIfNeeded clock s).2 in
  clock <= t
  ∧ lastRequestTime s + 100 <= t
  ∧ (remaining (refreshed clock s) <= 100 → resetTime s <= t)
  ∧ lastRequestTime s' = t
  ∧ remaining s' = remaining (refreshed clock s) - 1
  ∧ resetTime s' = resetTime s.
Proof.
  assert (Hr : resetTime (refreshed clock s) = resetTime s).
  { unfold refreshed. now destruct (resetTime s <? clock). }
  pose proof (refreshed_last clock s) as Hl.
  unfold waitIfNeeded, start. fold (refreshed clock s).
  set (s0 := refreshed clock s) in *.
  assert (Hfresh : resetTime s < clock → remaining s0 = 5000).
  { intros H. unfold s0, refreshed.
    now destruct (Z.ltb_spec (resetTime s) clock); [|lia]. }
  unfold resume, spacing, record, due_time, minInterval.
  destruct (Z.leb_spec (remaining s0) 100) as [Hlow|Hhigh].
  - destruct (Z.ltb_spec 0 (Z.max 0 (resetTime s0 - clock))) as [Hwait|Hnow].
    + cbn.
      destruct (Z.ltb_spec (clock - lastRequestTime s0) 100); cbn;
        repeat split; lia.
    + destruct (Z.ltb_spec (clock - lastRequestTime s0) 100); cbn;
        repeat split; lia.
  - destruct (Z.ltb_spec (clock - lastRequestTime s0) 100); cbn;
      repeat split; lia.
Qed.

(** One call, with the timers firing when due: it resolves no earlier than
    it started and no earlier than 100 ms after the request before; when
    100 requests or fewer remain it resolves no earlier than the reset
    time.  It records the instant it resolves, takes one from the quota
    that was current at its start, and does not touch the reset time. *)
Theorem waitIfNeeded_waits_long_enough (clock : Z) (s : State) :
  let t := (waitIfNeeded clock s).1 in
  let s' := (waitIfNeeded clock s).2 in
  clock <= t
  ∧ lastRequestTime s + 100 <= t
  ∧ (remaining (refreshed clock s) <= 100 → resetTime s <= t)
  ∧ lastRequestTime s' = t
  ∧ remaining s' = remaining (refreshed clock s) - 1
  ∧ resetTime s' = resetTime s.
Proof. apply waitIfNeeded_spec. Qed.

(** After [updateLimits] has reported 100 requests or fewer and a reset
    still ahead, the next call sleeps until the reset but does not refresh
    the quota: it leaves one request less than reported, below zero if
    none was left.  The quota is back at 5000 only for the call after. *)
Theorem quota_refreshed_one_call_late (clock clock2 left reset : Z) (s : State) :
  left <= 100 → clock < reset * 1000 → reset * 1000 < clock2 →
  let s0 := updateLimits left reset s in
  let t := (waitIfNeeded clock s0).1 in
  let s1 := (waitIfNeeded clock s0).2 in
  reset * 1000 <= t
  ∧ remaining s1 = left - 1
  ∧ remaining (waitIfNeeded clock2 s1).2 = 4999.
Proof.
  intros Hleft Hreset Hpast s0 t s1.
  destruct (waitIfNeeded_spec clock s0) as (_ & _ & Hwait & _ & Hrem & Hres).
  fold t s1 in Hwait, Hrem, Hres.
  assert (H0 : refreshed clock s0 = s0).
  { unfold refreshed. cbn.
    now destruct (Z.ltb_spec (reset * 1000) clock); [lia|]. }
  rewrite H0 in Hwait, Hrem. cbn in Hwait, Hrem, Hres.
  split; [now apply Hwait|]. split; [done|].
  destruct (waitIfNeeded_spec clock2 s1) as (_ & _ & _ & _ & -> & _).
  unfold refreshed. rewrite Hres.
  now destruct (Z.ltb_spec (reset * 1000) clock2); [|lia].
Qed.

Lemma quota_refreshed_one_call_late_witness :
  let s0 := updateLimits 0 1700000060 initial in
  let t := (waitIfNeeded 1700000000000 s0).1 in
  let s1 := (waitIfNeeded 1700000000000 s0).2 in
  1700000060000 <= t
  ∧ remaining s1 = -1
  ∧ remaining (waitIfNeeded 1700000070000 s1).2 = 4999.
Proof.
  apply (quota_refreshed_one_call_late 1700000000000 1700000070000 0 1700000060
           initial); lia.
Defined.

End RateLimiterMore.
(** ** Two repositories or more *)

Module CompatibilityMore.
Import Enhanced.

Local Open Scope R_scope.

Lemma weighted_compatibility : Num.round (85 * 0.4 + 90 * 0.4 + 80 * 0.2) = 86%Z.
Proof.
  replace (85 * 0.4 + 90 * 0.4 + 80 * 0.2) with (IZR 86) by lra.
  apply ScoreFacts.round_integer.
Qed.

Local Close Scope R_scope.

Section Settle.
Variable JSON_parse : string → option CodeAnalysis.PartialAnalysis.
Variable timestamp_text : Z → string.
Variable replies : nat → CodeAnalysis.Reply.
Variable repos : list Repository.
Variable cache0 : gmap string CodeAnalysis.CodeAnalysisResult.

(** One settled call leaves the cache alone or writes the call's own
    analysis under a key the cache did not hold at the start. *)
Lemma settle_step cache i :
  CodeAnalysis.settle JSON_parse timestamp_text replies repos cache0 cache i = cache
  ∨ ∃ repo text,
      repos !! i = Some repo
      ∧ cache0 !! CodeAnalysis.cacheKey timestamp_text repo = None
      ∧ replies i = CodeAnalysis.Content text
      ∧ CodeAnalysis.settle JSON_parse timestamp_text replies repos cache0 cache i
        = <[CodeAnalysis.cacheKey timestamp_text repo :=
              CodeAnalysis.finished JSON_parse (replies i) repo]> cache.
Proof.
  unfold CodeAnalysis.settle.
  destruct (repos !! i) as [repo|] eqn:Hi; [|now left].
  destruct (cache0 !! _) eqn:Hc; [now left|].
  destruct (replies i) as [|text] eqn:Hr; [now left|].
  right. now exists repo, text.
Qed.

Lemma settled_keeps order : ∀ cache k v,
  cache0 !! k = Some v → cache !! k = Some v →
  fold_left (CodeAnalysis.settle JSON_parse timestamp_text replies repos cache0)
    order cache !! k = Some v.
Proof.
  induction order as [|i order IH]; intros cache k v H0 Hc; cbn; [done|].
  apply IH; [done|].
  destruct (settle_step cache i) as [->|(repo & text & _ & Hmiss & _ & ->)]; [done|].
  rewrite lookup_insert_ne; [done|]. intros <-. congruence.
Qed.

Lemma settled_elsewhere order : ∀ cache k,
  (∀ repo, repo ∈ repos → CodeAnalysis.cacheKey timestamp_text repo ≠ k) →
  fold_left (CodeAnalysis.settle JSON_parse timestamp_text replies repos cache0)
    order cache !! k = cache !! k.
Proof.
  induction order as [|i order IH]; intros cache k Hk; cbn; [done|].
  rewrite IH by done.
  destruct (settle_step cache i) as [->|(repo & text & Hi & _ & _ & ->)]; [done|].
  apply lookup_insert_ne. apply Hk. eapply list_elem_of_lookup_2. eassumption.
Qed.

Lemma settled_failures order : ∀ cache k,
  cache !! k = None →
  (∀ j repo, repos !! j = Some repo →
             CodeAnalysis.cacheKey timestamp_text repo = k →
             replies j = CodeAnalysis.Failed) →
  fold_left (CodeAnalysis.settle JSON_parse timestamp_text replies repos cache0)
    order cache !! k = None.
Proof.
  induction order as [|i order IH]; intros cache k Hc Hk; cbn; [done|].
  apply IH; [|done].
  destruct (settle_step cache i) as [->|(repo & text & Hi & _ & Hr & ->)]; [done|].
  rewrite lookup_insert_ne; [done|]. intros Heq.
  specialize (Hk i repo Hi Heq). congruence.
Qed.

Lemma settled_stays order : ∀ cache k,
  (∃ j repo text,
      repos !! j = Some repo
      ∧ CodeAnalysis.cacheKey timestamp_text repo = k
      ∧ replies j = CodeAnalysis.Content text
      ∧ cache !! k = Some (CodeAnalysis.finished JSON_parse (replies j) repo)) →
  ∃ j repo text,
    repos !! j = Some repo
    ∧ CodeAnalysis.cacheKey timestamp_text repo = k
    ∧ replies j = CodeAnalysis.Content text
    ∧ fold_left (CodeAnalysis.settle JSON_parse timestamp_text replies repos cache0)
        order cache !! k
      = Some (CodeAnalysis.finished JSON_parse (replies j) repo).
Proof.
  induction order as [|i order IH]; intros cache k H; cbn; [done|].
  apply IH.
  destruct (settle_step cache i) as [->|(repo & text & Hi & _ & Hr & ->)]; [done|].
  destruct (decide (CodeAnalysis.cacheKey timestamp_text repo = k)) as [<-|Hne].
  - exists i, repo, text. repeat split; [done|done|]. apply lookup_insert_eq.
  - destruct H as (j & repo' & text' & H1 & H2 & H3 & H4).
    exists j, repo', text'. repeat split; [done|done|done|].
    now rewrite lookup_insert_ne.
Qed.

Lemma settled_writes order : ∀ cache i repo text,
  i ∈ order → repos !! i = Some repo →
  cache0 !! CodeAnalysis.cacheKey timestamp_text repo = None →
  replies i = CodeAnalysis.Content text →
  ∃ j repo' text',
    repos !! j = Some repo'
    ∧ CodeAnalysis.cacheKey timestamp_text repo'
      = CodeAnalysis.cacheKey timestamp_text repo
    ∧ replies j = CodeAnalysis.Content text'
    ∧ fold_left (CodeAnalysis.settle JSON_parse timestamp_text replies repos cache0)
        order cache !! CodeAnalysis.cacheKey timestamp_text repo
      = Some (CodeAnalysis.finished JSON_parse (replies j) repo').
Proof.
  induction order as [|a order IH]; intros cache i repo text Hin Hi Hmiss Hr;
    [now apply elem_of_nil in Hin|].
  cbn. apply elem_of_cons in Hin as [->|Hin]; [|now apply (IH _ i repo text)].
  apply settled_stays. exists a, repo, text. repeat split; [done|done|].
  unfold CodeAnalysis.settle. rewrite Hi, Hmiss, Hr. apply lookup_insert_eq.
Qed.
End Settle.

(** For two repositories or more the compatibility figures do not depend
    on the repositories: [analyzeProjectCompatibility] returns 85 with no
    conflict and one fixed suggestion, and [getCompatibilityScore] returns
    86.  Its analyses run side by side and only add to the cache: what the
    cache held stays, the keys of other repositories are untouched, a key
    that was missing and for which a request succeeded holds the analysis
    of one such request afterwards, and a key for which every request
    failed stays missing. *)
Theorem many_repositories_fixed_scores
    (JSON_parse : string → option CodeAnalysis.PartialAnalysis)
    (timestamp_text : Z → string)
    (replies : nat → CodeAnalysis.Reply) (order : list nat)
    (repos : list Repository)
    (cache : gmap string CodeAnalysis.CodeAnalysisResult) :
  (2 <= length repos)%nat →
  Permutation order (seq 0 (length repos)) →
  let final :=
    (CodeAnalysis.getCompatibilityScore JSON_parse timestamp_text replies order
       repos cache).2 in
  analyzeProjectCompatibility repos
  = Returned {| compatibilityScore := 85;
                conflicts := [];
                suggestions := ["Projects appear to be compatible"] |}
  ∧ (CodeAnalysis.getCompatibilityScore JSON_parse timestamp_text replies order
       repos cache).1 = Returned 86%Z
  ∧ cache ⊆ final
  ∧ (∀ k, (∀ repo, repo ∈ repos → CodeAnalysis.cacheKey timestamp_text repo ≠ k) →
          final !! k = cache !! k)
  ∧ (∀ i repo text,
       repos !! i = Some repo →
       cache !! CodeAnalysis.cacheKey timestamp_text repo = None →
       replies i = CodeAnalysis.Content text →
       ∃ j repo' text',
         repos !! j = Some repo'
         ∧ CodeAnalysis.cacheKey timestamp_text repo'
           = CodeAnalysis.cacheKey timestamp_text repo
         ∧ replies j = CodeAnalysis.Content text'
         ∧ final !! CodeAnalysis.cacheKey timestamp_text repo
           = Some (CodeAnalysis.finished JSON_parse (replies j) repo'))
  ∧ (∀ k, cache !! k = None →
          (∀ j repo, repos !! j = Some repo →
                     CodeAnalysis.cacheKey timestamp_text repo = k →
                     replies j = CodeAnalysis.Failed) →
          final !! k = None).
Proof.
  intros Hlen Hperm final.
  assert (Hlt : (length repos <? 2)%nat = false) by now apply Nat.ltb_ge.
  assert (Hfinal : final
                   = fold_left (CodeAnalysis.settle JSON_parse timestamp_text replies
                                  repos cache) order cache).
  { subst final. unfold CodeAnalysis.getCompatibilityScore. now rewrite Hlt. }
  split; [|split; [|split; [|split; [|split]]]].
  - unfold analyzeProjectCompatibility. now rewrite Hlt.
  - unfold CodeAnalysis.getCompatibilityScore, CodeAnalysis.analyzeAll.
    rewrite Hlt. cbn [fst].
    unfold CodeAnalysis.calculateFrameworkCompatibility,
      CodeAnalysis.analyzeDependencyConflicts,
      CodeAnalysis.analyzeArchitecturalPatterns.
    f_equal. apply weighted_compatibility.
  - rewrite Hfinal. apply map_subseteq_spec. intros k v Hk.
    now apply settled_keeps.
  - intros k Hk. rewrite Hfinal. now apply settled_elsewhere.
  - intros i repo text Hi Hmiss Hr. rewrite Hfinal.
    apply (settled_writes _ _ _ _ _ _ _ i repo text); [|done|done|done].
    rewrite Hperm. apply elem_of_seq. apply lookup_lt_Some in Hi. lia.
  - intros k Hk Hfail. rewrite Hfinal. now apply settled_failures.
Qed.

Lemma many_repositories_fixed_scores_witness :
  let final :=
    (CodeAnalysis.getCompatibilityScore (λ _, None) JS.str_of_Z
       Aux.two_replies [1; 0]%nat [Samples.shop; Samples.shop] ∅).2 in
  analyzeProjectCompatibility [Samples.shop; Samples.shop]
  = Returned {| compatibilityScore := 85;
                conflicts := [];
                suggestions := ["Projects appear to be compatible"] |}
  ∧ (CodeAnalysis.getCompatibilityScore (λ _, None) JS.str_of_Z
       Aux.two_replies [1; 0]%nat [Samples.shop; Samples.shop] ∅).1
    = Returned 86%Z
  ∧ ∅ ⊆ final
  ∧ (∀ k, (∀ repo, repo ∈ [Samples.shop; Samples.shop] →
                   CodeAnalysis.cacheKey JS.str_of_Z repo ≠ k) →
          final !! k = (∅ : gmap string CodeAnalysis.CodeAnalysisResult) !! k)
  ∧ (∀ i repo text,
       [Samples.shop; Samples.shop] !! i = Some repo →
       (∅ : gmap string CodeAnalysis.CodeAnalysisResult)
         !! CodeAnalysis.cacheKey JS.str_of_Z repo = None →
       Aux.two_replies i = CodeAnalysis.Content text →
       ∃ j repo' text',
         [Samples.shop; Samples.shop] !! j = Some repo'
         ∧ CodeAnalysis.cacheKey JS.str_of_Z repo'
           = CodeAnalysis.cacheKey JS.str_of_Z repo
         ∧ Aux.two_replies j = CodeAnalysis.Content text'
         ∧ final !! CodeAnalysis.cacheKey JS.str_of_Z repo
           = Some (CodeAnalysis.finished (λ _, None) (Aux.two_replies j) repo'))
  ∧ (∀ k, (∅ : gmap string CodeAnalysis.CodeAnalysisResult) !! k = None →
          (∀ j repo, [Samples.shop; Samples.shop] !! j = Some repo →
                     CodeAnalysis.cacheKey JS.str_of_Z repo = k →
                     Aux.two_replies j = CodeAnalysis.Failed) →
          final !! k = None).
Proof.
  apply (many_repositories_fixed_scores (λ _, None) JS.str_of_Z
           Aux.two_replies [1; 0]%nat [Samples.shop; Samples.shop] ∅).
  - cbn. lia.
  - cbn. apply perm_swap.
Defined.

(** A repository listed twice with an empty cache is analysed twice, and
    the cache ends with the analysis of the request that settled last. *)
Lemma listed_twice_analysed_twice :
  (CodeAnalysis.analyzeAll (λ _, None) JS.str_of_Z Aux.two_replies [1; 0]%nat
     [Samples.shop; Samples.shop] ∅).1
  = [CodeAnalysis.finished (λ _, None) (Aux.two_replies 0) Samples.shop;
     CodeAnalysis.finished (λ _, None) (Aux.two_replies 1) Samples.shop]
  ∧ (CodeAnalysis.analyzeAll (λ _, None) JS.str_of_Z Aux.two_replies [1; 0]%nat
       [Samples.shop; Samples.shop] ∅).2
      !! CodeAnalysis.cacheKey JS.str_of_Z Samples.shop
    = Some (CodeAnalysis.finished (λ _, None) (Aux.two_replies 0) Samples.shop).
Proof.
  split; [reflexivity|].
  unfold CodeAnalysis.analyzeAll. cbn [snd fold_left].
  unfold CodeAnalysis.settle. cbn [lookup list_lookup]. cbn -[insert lookup CodeAnalysis.cacheKey CodeAnalysis.finished].
  rewrite lookup_empty. cbn -[insert lookup CodeAnalysis.cacheKey CodeAnalysis.finished].
  apply lookup_insert_eq.
Qed.

End CompatibilityMore.

(** ** The code analyzer *)

Module CodeAnalysisFacts.
Import JS CodeAnalysis Aux.

Lemma append_cons a s t : String a s +:+ t = String a (s +:+ t).
Proof. reflexivity. Qed.

Lemma append_nil t : "" +:+ t = t.
Proof. reflexivity. Qed.

Lemma from_first_none c s : occurs c s = false → from_first c s = None.
Proof.
  induction s as [|a s IH]; cbn; [done|].
  destruct (Ascii.eqb a c); [done|exact IH].
Qed.

Lemma from_first_skip c pre s :
  occurs c pre = false → from_first c (pre +:+ String c s) = Some (String c s).
Proof.
  induction pre as [|a pre IH].
  - intros _. rewrite append_nil. cbn. now rewrite Ascii.eqb_refl.
  - cbn [occurs]. rewrite append_cons. cbn [from_first].
    destruct (Ascii.eqb a c); [done|exact IH].
Qed.

Lemma from_first_keeps c d s t :
  from_first c s = Some t → occurs d s = false → occurs d t = false.
Proof.
  induction s as [|a s IH]; cbn; [done|].
  destruct (Ascii.eqb a c).
  - intros [= <-]. done.
  - intros Ht [_ Hs]%orb_false_elim. now apply IH.
Qed.

Lemma upto_last_none c s : occurs c s = false → upto_last c s = None.
Proof.
  induction s as [|a s IH]; cbn; [done|].
  intros [Ha Hs]%orb_false_elim. now rewrite (IH Hs), Ha.
Qed.

Lemma upto_last_mid c body post :
  occurs c post = false →
  upto_last c (body +:+ String c post) = Some (body +:+ String c "").
Proof.
  intros Hpost. induction body as [|a body IH].
  - rewrite !append_nil. cbn.
    now rewrite (upto_last_none c post Hpost), Ascii.eqb_refl.
  - rewrite !append_cons. cbn [upto_last]. now rewrite IH.
Qed.

(** The text handed to [JSON.parse] runs from the first opening brace to
    the last closing brace, whatever surrounds them; a text without an
    opening brace, or without a closing one, is not parsed and gives the
    stock analysis. *)
Theorem braces_are_extracted
    (JSON_parse : string → option PartialAnalysis) (pre body post content : string) :
  occurs "{" pre = false → occurs "}" post = false →
  (occurs "{" content = false ∨ occurs "}" content = false) →
  match_braces (pre +:+ "{" +:+ body +:+ "}" +:+ post) = Some ("{" +:+ body +:+ "}")
  ∧ parseAIAnalysis JSON_parse (pre +:+ "{" +:+ body +:+ "}" +:+ post)
    = default unparsed (JSON_parse ("{" +:+ body +:+ "}"))
  ∧ match_braces content = None
  ∧ parseAIAnalysis JSON_parse content = unparsed.
Proof.
  intros Hpre Hpost Hcontent.
  assert (H1 : match_braces (pre +:+ "{" +:+ body +:+ "}" +:+ post)
               = Some ("{" +:+ body +:+ "}")).
  { unfold match_braces.
    change ("{" +:+ body +:+ "}" +:+ post) with (String "{" (body +:+ String "}" post)).
    rewrite (from_first_skip "{" pre _ Hpre). cbn [mbind option_bind].
    now rewrite (upto_last_mid "}" body post Hpost). }
  assert (H2 : match_braces content = None).
  { unfold match_braces. destruct Hcontent as [H|H].
    - now rewrite (from_first_none _ _ H).
    - destruct (from_first "{" content) as [t|] eqn:E; [|done].
      cbn [mbind option_bind].
      pose proof (from_first_keeps _ "}" _ _ E H) as Ht.
      destruct t as [|a t]; [done|].
      cbn in Ht. apply orb_false_elim in Ht as [_ Ht].
      now rewrite (upto_last_none _ _ Ht). }
  unfold parseAIAnalysis. rewrite H1, H2. done.
Qed.

Lemma braces_are_extracted_witness :
  match_braces ("Here you go: " +:+ "{" +:+ " overallQuality: 0 " +:+ "}" +:+ " Bye.")
  = Some ("{" +:+ " overallQuality: 0 " +:+ "}")
  ∧ match_braces "I cannot analyse this." = None.
Proof.
  destruct (braces_are_extracted (λ _, None) "Here you go: " " overallQuality: 0 "
              " Bye." "I cannot analyse this.") as (H1 & _ & H2 & _).
  - reflexivity.
  - reflexivity.
  - left. reflexivity.
  - exact (conj H1 H2).
Defined.

Lemma score_or_nonzero q d : d ≠ 0%Z → score_or q d ≠ 0%Z.
Proof.
  intros Hd. destruct q as [s|]; cbn; [|done].
  destruct (Z.eqb_spec s 0); done.
Qed.

(** An analysis that succeeded is cached under the name and the update
    time of the repository: a later call for a repository with the same
    name and update time gets it back without asking the model again.  A
    failed request gives the fallback analysis and caches nothing. *)
Theorem analysis_is_cached
    (JSON_parse : string → option PartialAnalysis) (timestamp_text : Z → string)
    (reply reply' : Reply) (repo repo' : Repository)
    (cache : gmap string CodeAnalysisResult) :
  cache !! cacheKey timestamp_text repo = None →
  cacheKey timestamp_text repo' = cacheKey timestamp_text repo →
  match reply with
  | Content text =>
      (analyzeRepository JSON_parse timestamp_text reply repo cache).1
      = enhanceWithStaticAnalysis (parseAIAnalysis JSON_parse (or_else text "")) repo
      ∧ analyzeRepository JSON_parse timestamp_text reply' repo'
          (analyzeRepository JSON_parse timestamp_text reply repo cache).2
        = analyzeRepository JSON_parse timestamp_text reply repo cache
  | Failed =>
      analyzeRepository JSON_parse timestamp_text reply repo cache
      = (getFallbackAnalysis repo, cache)
  end.
Proof.
  intros Hmiss Hkey. unfold analyzeRepository. rewrite Hmiss.
  destruct reply as [|text]; [done|]. cbn [fst snd]. split; [done|].
  now rewrite Hkey, lookup_insert_eq.
Qed.

Lemma analysis_is_cached_witness :
  (analyzeRepository (λ _, None) str_of_Z (Content None) Samples.shop ∅).1
  = enhanceWithStaticAnalysis (parseAIAnalysis (λ _, None) (or_else None ""))
                              Samples.shop
  ∧ analyzeRepository (λ _, None) str_of_Z Failed
      (Samples.with_quality (Some 1%Z) Samples.shop)
      (analyzeRepository (λ _, None) str_of_Z (Content None) Samples.shop ∅).2
    = analyzeRepository (λ _, None) str_of_Z (Content None) Samples.shop ∅.
Proof.
  apply (analysis_is_cached (λ _, None) str_of_Z (Content None) Failed Samples.shop
           (Samples.with_quality (Some 1%Z) Samples.shop) ∅);
    reflexivity.
Defined.

(** A new analysis never has a zero score: a zero or missing figure is
    replaced by the default.  It lists no dependency and has no test
    coverage. *)
Theorem new_analysis_has_no_zero
    (JSON_parse : string → option PartialAnalysis) (timestamp_text : Z → string)
    (reply : Reply) (repo : Repository) (cache : gmap string CodeAnalysisResult) :
  cache !! cacheKey timestamp_text repo = None →
  let a := (analyzeRepository JSON_parse timestamp_text reply repo cache).1 in
  overallQuality a ≠ 0%Z ∧ securityScore a ≠ 0%Z ∧ maintainabilityScore a ≠ 0%Z
  ∧ dependencies a = [] ∧ testCoverage a = None.
Proof.
  intros Hmiss. unfold analyzeRepository. rewrite Hmiss.
  destruct reply as [|text]; cbn; repeat split;
    (done || now apply score_or_nonzero).
Qed.

Lemma new_analysis_has_no_zero_witness :
  let a := (analyzeRepository
              (λ _, Some (mkPartial (Some 0%Z) None None None None))
              str_of_Z (Content (Some "{}")) Samples.shop ∅).1 in
  overallQuality a ≠ 0%Z ∧ securityScore a ≠ 0%Z ∧ maintainabilityScore a ≠ 0%Z
  ∧ dependencies a = [] ∧ testCoverage a = None.
Proof.
  apply (new_analysis_has_no_zero
           (λ _, Some (mkPartial (Some 0%Z) None None None None))
           str_of_Z (Content (Some "{}")) Samples.shop ∅).
  reflexivity.
Defined.

(** *** Merge suggestions *)

Lemma space_is_no_digit a : is_space a = true → is_digit a = false.
Proof.
  unfold is_space, is_digit.
  destruct (N.leb_spec 9 (N_of_ascii a)), (N.leb_spec (N_of_ascii a) 13),
    (N.eqb_spec (N_of_ascii a) 32), (N.eqb_spec (N_of_ascii a) 160),
    (N.leb_spec 48 (N_of_ascii a)),
    (N.leb_spec (N_of_ascii a) 57); cbn; intros; (done || lia).
Qed.

Lemma trim_start_again s : trim_start (trim_start s) = trim_start s.
Proof.
  induction s as [|a s IH]; cbn; [done|].
  destruct (is_space a) eqn:E; [exact IH|]. cbn. now rewrite E.
Qed.

(** At most eight suggestions are returned, each the trimmed text of a
    line whose trimmed form starts with a number and a full stop.  The
    number is removed where the line itself starts with it; on a line that
    starts with white space it stays. *)
Theorem numbering_is_removed_at_line_start (content line rest : string) (a : ascii) :
  after_number line = Some rest → is_space a = true →
  (length (parseSuggestions content) <= 8)%nat
  ∧ Forall (λ s, ∃ l, l ∈ Enhanced.split "010" content
                      ∧ is_Some (after_number (trim l))
                      ∧ s = trim (strip_number l))
           (parseSuggestions content)
  ∧ trim (strip_number line) = trim rest
  ∧ trim (strip_number (String a line)) = trim line.
Proof.
  intros Hnum Hspace. split; [|split; [|split]].
  - unfold parseSuggestions. rewrite length_take. lia.
  - unfold parseSuggestions. apply Forall_forall. intros s Hs.
    apply elem_of_take in Hs as (i & Hs & _).
    apply list_elem_of_lookup_2 in Hs.
    apply list_elem_of_fmap in Hs as (l & -> & Hl).
    apply list_elem_of_filter in Hl as [Hn Hl].
    apply list_elem_of_filter in Hl as [_ Hl].
    exists l. done.
  - unfold strip_number. rewrite Hnum. unfold trim. now rewrite trim_start_again.
  - unfold strip_number. cbn [after_number].
    rewrite (space_is_no_digit a Hspace).
    unfold trim. cbn [trim_start]. now rewrite Hspace.
Qed.

Lemma numbering_is_removed_at_line_start_witness :
  (length (parseSuggestions "Steps:") <= 8)%nat
  ∧ Forall (λ s, ∃ l, l ∈ Enhanced.split "010" "Steps:"
                      ∧ is_Some (after_number (trim l))
                      ∧ s = trim (strip_number l))
           (parseSuggestions "Steps:")
  ∧ trim (strip_number "12.  use the shop's login") = trim "  use the shop's login"
  ∧ trim (strip_number (String " " "12.  use the shop's login"))
    = trim "12.  use the shop's login".
Proof.
  apply (numbering_is_removed_at_line_start "Steps:" "12.  use the shop's login"
           "  use the shop's login" " "); reflexivity.
Defined.

End CodeAnalysisFacts.
